(** * micro-app: the host-facing lifecycle API

    A shallow embedding of the entry module of micro-app
    ([getActiveApps], [getAllApps], [unmountApp], [unmountAllApps] and
    [MicroApp.start]) together with the part of the browser it talks to:
    a store of DOM elements with attributes, parents and event
    listeners, a store of promises with their reactions, and the
    microtask queue.  Every call the module makes on a collaborator is
    appended to a chronological [trace], so that temporal statements
    ("listeners are attached before removal is requested") are
    statements about list positions. *)

From stdpp Require Import base list strings gmap functions.

Open Scope string_scope.
Open Scope list_scope.

Set Warnings "-clear-no-such-hyp".

(** ** Constants *)

(** Modelled from the spec: the [appStates] table of [./constants] is not
    among the sources; the lifecycle states are the ones the data model
    enumerates. *)
Inductive appStates := CREATED | LOADING | MOUNTED | UNMOUNT.

(** Modelled from the spec: the [keepAliveStates] table of [./constants];
    [NONE] stands for the absence of a keep-alive state. *)
Inductive keepAliveStates := NONE | KEEP_ALIVE_HIDDEN | KEEP_ALIVE_SHOWN.

#[global] Instance appStates_eq_dec : EqDecision appStates.
Proof. solve_decision. Defined.

#[global] Instance keepAliveStates_eq_dec : EqDecision keepAliveStates.
Proof. solve_decision. Defined.

(** ** Applications and their containers *)

(** [app.container] is an [HTMLElement], a [ShadowRoot] or [null];
    elements are named by numbers, a shadow root by the element that
    hosts it. *)
Inductive Container :=
| HTMLElement (el : nat)
| ShadowRoot (host : nat).

(** The fields of [AppInterface] this module reads. *)
Record AppInterface := {
  getAppState : appStates;
  getKeepAliveState : keepAliveStates;
  isPrefetch : bool;
  container : option Container
}.

(** [unmountAppParams]: both fields are optional booleans. *)
Record unmountAppParams := {
  destroy : option bool;
  clearAliveState : option bool
}.

(** [options?.destroy] and [options?.clearAliveState] as conditions. *)
Definition truthy (b : option bool) : bool :=
  match b with Some true => true | _ => false end.

Definition wants_destroy (options : option unmountAppParams) : bool :=
  match options with Some o => truthy (destroy o) | None => false end.

Definition wants_clearAliveState (options : option unmountAppParams) : bool :=
  match options with Some o => truthy (clearAliveState o) | None => false end.

(** ** The registry: a JavaScript [Map] keeps insertion order *)

Module JsMap.
Section JsMap.
  Context {V : Type}.

Fixpoint get (k : string) (m : list (string * V)) : option V :=
    match m with
    | [] => None
    | (k', v) :: m' => if decide (k = k') then Some v else get k m'
    end.

  (** [set] on a present key replaces the value where it stands; a new
      key goes to the end. *)
Fixpoint set (k : string) (v : V) (m : list (string * V)) : list (string * V) :=
    match m with
    | [] => [(k, v)]
    | (k', v') :: m' =>
        if decide (k = k') then (k, v) :: m' else (k', v') :: set k v m'
    end.

Fixpoint delete (k : string) (m : list (string * V)) : list (string * V) :=
    match m with
    | [] => []
    | (k', v') :: m' =>
        if decide (k = k') then m' else (k', v') :: delete k m'
    end.

Definition keys (m : list (string * V)) : list string := m.*1.

  (** [forEach] with a callback that updates an accumulator. *)
Definition forEach {A : Type} (f : V -> string -> A -> A)
      (m : list (string * V)) (acc : A) : A :=
    fold_left (fun acc kv => f kv.2 kv.1 acc) m acc.

  (** A list is a genuine [Map] when no key occurs twice. *)
Definition wf (m : list (string * V)) : Prop := NoDup (keys m).

  (** The ways a [Map] changes, and the map a history of them builds. *)
Inductive Op :=
  | OpSet (k : string) (v : V)
  | OpDelete (k : string).

Definition apply (m : list (string * V)) (op : Op) : list (string * V) :=
    match op with
    | OpSet k v => set k v m
    | OpDelete k => delete k m
    end.

Definition build (ops : list Op) : list (string * V) :=
    fold_left apply ops [].
End JsMap.
End JsMap.

(** ** The browser state *)

(** The two closures [unmountApp] registers as listeners: each closes
    over the container and the [resolve] function of one promise. *)
Inductive Handler :=
| unmountHandler (c : nat) (p : nat)
| afterhiddenHandler (c : nat) (p : nat).

#[global] Instance Handler_eq_dec : EqDecision Handler.
Proof. solve_decision. Defined.

Record Element := {
  attributes : gmap string string;
  parentNode : option nat;
  listeners : list (string * Handler)
}.

Inductive PromiseState := Pending | Fulfilled | Rejected.

#[global] Instance PromiseState_eq_dec : EqDecision PromiseState.
Proof. solve_decision. Defined.

(** What was registered on a promise with [then]:
    - [ThenUnmount next options d]: the callback
      [() => unmountApp(next, options)] of [unmountAllApps], with [d] the
      promise [then] returned;
    - [Adopt d]: [d] was resolved with this promise and takes its
      outcome. *)
Inductive Reaction :=
| ThenUnmount (next : string) (options : option unmountAppParams) (d : nat)
| Adopt (d : nat).

Record Promise := {
  pstate : PromiseState;
  reactions : list Reaction
}.

Inductive Job :=
| PromiseReactionJob (r : Reaction) (s : PromiseState)
| PromiseResolveThenableJob (d : nat) (thenable : nat).

(** What the custom element of a container does when it is taken out of
    the document, and what it may do later when teardown completes: it
    dispatches lifecycle events on containers and updates the registry
    through the [Map] interface. *)
Inductive AdapterAct :=
| Emit (c : nat) (ev : string)
| AppSet (key : string) (app : AppInterface)
| AppDelete (key : string).

(** Calls and happenings, in the order they occur. *)
Inductive Event :=
| Call_unmountApp (appName : string) (p : nat)
| Call_addEventListener (c : nat) (ev : string) (h : Handler)
| Call_removeEventListener (c : nat) (ev : string) (h : Handler)
| Call_setAttribute (c : nat) (k v : string)
| Call_removeAttribute (c : nat) (k : string)
| Call_removeChild (c : nat)
| Call_unmount (app : string) (destroy : bool)
| Call_actionsForCompletelyDestroy (app : string)
| Dispatched (c : nat) (ev : string)
| Settled (p : nat) (s : PromiseState).

#[global] Instance Event_eq_dec : EqDecision Event.
Proof. solve_decision. Defined.

Inductive LogEntry :=
| Warn (msg : string)
| Error (msg : string).

Record World := {
  appInstanceMap : list (string * AppInterface);
  sandBoxes : gset string;
  channels : gset string;
  document : nat -> Element;
  promises : list Promise;
  microtasks : list Job;
  console : list LogEntry;
  trace : list Event
}.

Definition with_apps (m : list (string * AppInterface)) (w : World) : World :=
  {| appInstanceMap := m; sandBoxes := sandBoxes w; channels := channels w;
     document := document w; promises := promises w;
     microtasks := microtasks w; console := console w; trace := trace w |}.

Definition with_sandBoxes (s : gset string) (w : World) : World :=
  {| appInstanceMap := appInstanceMap w; sandBoxes := s; channels := channels w;
     document := document w; promises := promises w;
     microtasks := microtasks w; console := console w; trace := trace w |}.

Definition with_channels (s : gset string) (w : World) : World :=
  {| appInstanceMap := appInstanceMap w; sandBoxes := sandBoxes w; channels := s;
     document := document w; promises := promises w;
     microtasks := microtasks w; console := console w; trace := trace w |}.

Definition with_document (d : nat -> Element) (w : World) : World :=
  {| appInstanceMap := appInstanceMap w; sandBoxes := sandBoxes w;
     channels := channels w; document := d; promises := promises w;
     microtasks := microtasks w; console := console w; trace := trace w |}.

Definition with_promises (ps : list Promise) (w : World) : World :=
  {| appInstanceMap := appInstanceMap w; sandBoxes := sandBoxes w;
     channels := channels w; document := document w; promises := ps;
     microtasks := microtasks w; console := console w; trace := trace w |}.

Definition with_microtasks (q : list Job) (w : World) : World :=
  {| appInstanceMap := appInstanceMap w; sandBoxes := sandBoxes w;
     channels := channels w; document := document w; promises := promises w;
     microtasks := q; console := console w; trace := trace w |}.

Definition with_console (l : list LogEntry) (w : World) : World :=
  {| appInstanceMap := appInstanceMap w; sandBoxes := sandBoxes w;
     channels := channels w; document := document w; promises := promises w;
     microtasks := microtasks w; console := l; trace := trace w |}.

Definition with_trace (t : list Event) (w : World) : World :=
  {| appInstanceMap := appInstanceMap w; sandBoxes := sandBoxes w;
     channels := channels w; document := document w; promises := promises w;
     microtasks := microtasks w; console := console w; trace := t |}.

Definition record (e : Event) (w : World) : World :=
  with_trace (trace w ++ [e]) w.

Definition logWarn (msg : string) (w : World) : World :=
  with_console (console w ++ [Warn msg]) w.

Definition logError (msg : string) (w : World) : World :=
  with_console (console w ++ [Error msg]) w.

(** ** Registry queries *)

(** The test of [getActiveApps], one application at a time. *)
Definition is_active (excludeHiddenApp : bool) (app : AppInterface) : bool :=
  bool_decide (UNMOUNT <> getAppState app) &&
  negb (isPrefetch app) &&
  (negb excludeHiddenApp ||
   bool_decide (KEEP_ALIVE_HIDDEN <> getKeepAliveState app)).

(** [excludeHiddenApp] is optional: left out, it is falsy. *)
Definition getActiveApps (excludeHiddenApp : option bool) (w : World) : list string :=
  JsMap.forEach
    (fun app appName activeApps =>
       if is_active (truthy excludeHiddenApp) app
       then activeApps ++ [appName]
       else activeApps)
    (appInstanceMap w) [].

Definition getAllApps (w : World) : list string :=
  JsMap.keys (appInstanceMap w).

(** ** Promises *)

Definition newPromise (s : PromiseState) (w : World) : nat * World :=
  (length (promises w),
   with_promises (promises w ++ [{| pstate := s; reactions := [] |}]) w).

Definition enqueue (j : Job) (w : World) : World :=
  with_microtasks (microtasks w ++ [j]) w.

(** Settling a pending promise hands its reactions to the microtask
    queue; a promise that is already settled ignores the call.  The
    outcome [s] is [Fulfilled] or [Rejected]. *)
Definition settle (p : nat) (s : PromiseState) (w : World) : World :=
  match s, promises w !! p with
  | Pending, _ | _, None => w
  | _, Some pr =>
      match pstate pr with
      | Pending =>
          record (Settled p s)
            (with_microtasks
               (microtasks w ++ map (fun r => PromiseReactionJob r s) (reactions pr))
               (with_promises
                  (<[p := {| pstate := s; reactions := [] |}]> (promises w)) w))
      | _ => w
      end
  end.

Definition resolve (p : nat) : World -> World := settle p Fulfilled.
Definition reject (p : nat) : World -> World := settle p Rejected.

(** Registering a reaction on [p]: kept while [p] is pending, queued as
    a job at once when [p] is settled. *)
Definition register (p : nat) (r : Reaction) (w : World) : World :=
  match promises w !! p with
  | Some pr =>
      match pstate pr with
      | Pending =>
          with_promises
            (<[p := {| pstate := Pending; reactions := reactions pr ++ [r] |}]>
               (promises w)) w
      | s => enqueue (PromiseReactionJob r s) w
      end
  | None => w
  end.

Definition state_of (p : nat) (w : World) : option PromiseState :=
  pstate <$> promises w !! p.

(** ** Elements *)

Definition update_element (c : nat) (f : Element -> Element) (w : World) : World :=
  with_document (<[c := f (document w c)]> (document w)) w.

Arguments update_element : simpl never.

Definition hasAttribute (c : nat) (k : string) (w : World) : bool :=
  bool_decide (is_Some (attributes (document w c) !! k)).

Definition getAttribute (c : nat) (k : string) (w : World) : option string :=
  attributes (document w c) !! k.

Definition setAttribute (c : nat) (k v : string) (w : World) : World :=
  record (Call_setAttribute c k v)
    (update_element c
       (fun e => {| attributes := <[k := v]> (attributes e);
                    parentNode := parentNode e; listeners := listeners e |}) w).

Definition removeAttribute (c : nat) (k : string) (w : World) : World :=
  record (Call_removeAttribute c k)
    (update_element c
       (fun e => {| attributes := delete k (attributes e);
                    parentNode := parentNode e; listeners := listeners e |}) w).

(** A listener already present (same type, same callback) is not added
    a second time. *)
Definition addEventListener (c : nat) (ev : string) (h : Handler) (w : World) : World :=
  record (Call_addEventListener c ev h)
    (update_element c
       (fun e => {| attributes := attributes e; parentNode := parentNode e;
                    listeners := if bool_decide ((ev, h) ∈ listeners e)
                                 then listeners e
                                 else listeners e ++ [(ev, h)] |}) w).

Definition removeEventListener (c : nat) (ev : string) (h : Handler) (w : World) : World :=
  record (Call_removeEventListener c ev h)
    (update_element c
       (fun e => {| attributes := attributes e; parentNode := parentNode e;
                    listeners := List.filter (fun l => negb (bool_decide (l = (ev, h))))
                                   (listeners e) |}) w).

Arguments setAttribute : simpl never.
Arguments removeAttribute : simpl never.
Arguments addEventListener : simpl never.
Arguments removeEventListener : simpl never.

(** The bodies of the two closures are the same: both listeners are
    taken off the container, then the promise is resolved. *)
Definition run_handler (h : Handler) (w : World) : World :=
  match h with
  | unmountHandler c p | afterhiddenHandler c p =>
      resolve p
        (removeEventListener c "afterhidden" (afterhiddenHandler c p)
           (removeEventListener c "unmount" (unmountHandler c p) w))
  end.

(** Dispatch walks the listeners of that type registered when it
    starts; one removed in the meantime is not called. *)
Definition call_listener (c : nat) (w : World) (l : string * Handler) : World :=
  if bool_decide (l ∈ listeners (document w c)) then run_handler l.2 w else w.

Definition dispatchEvent (c : nat) (ev : string) (w : World) : World :=
  fold_left (call_listener c)
    (List.filter (fun l => bool_decide (l.1 = ev)) (listeners (document w c)))
    (record (Dispatched c ev) w).

Definition adapter_act (a : AdapterAct) (w : World) : World :=
  match a with
  | Emit c ev => dispatchEvent c ev w
  | AppSet k app => with_apps (JsMap.set k app (appInstanceMap w)) w
  | AppDelete k => with_apps (JsMap.delete k (appInstanceMap w)) w
  end.

Definition adapter_acts (l : list AdapterAct) (w : World) : World :=
  fold_left (fun w a => adapter_act a w) l w.

(** How a block of statements ends: normally, or by throwing. *)
Inductive Completion :=
| Normal (w : World)
| Throw (w : World).

Definition completion_world (c : Completion) : World :=
  match c with Normal w | Throw w => w end.

Definition bind (c : Completion) (k : World -> Completion) : Completion :=
  match c with
  | Normal w => k w
  | Throw w => Throw w
  end.

Notation "'do' w <- c ; k" := (bind c (fun w => k))
  (at level 10, w name, c at level 100, k at level 200).

(** ** The orchestrator *)

Section Orchestrator.

  (** [formatAppName] and [getRootContainer] come from [./libs/utils];
      [disconnectedCallback c w] is what the custom element of container
      [c] does, within the call, when [c] leaves the document in state
      [w].  The three are collaborators of this module. *)
  Variable formatAppName : string -> string.
  Variable getRootContainer : Container -> nat.
  Variable disconnectedCallback : nat -> World -> list AdapterAct.

  (** [container.parentNode!.removeChild(container)]: a container
      without a parent makes the call throw a [TypeError]. *)
Definition removeChild (c : nat) (w : World) : Completion :=
    match parentNode (document w c) with
    | None => Throw w
    | Some _ =>
        let w1 :=
          record (Call_removeChild c)
            (update_element c
               (fun e => {| attributes := attributes e; parentNode := None;
                            listeners := listeners e |}) w) in
        Normal (adapter_acts (disconnectedCallback c w1) w1)
    end.

  (** Modelled from the spec: [app.actionsForCompletelyDestroy()] of
      [./create_app], which is not among the sources: "fully destroy
      (release Sandbox Context, Bus, Registry entry)".  The application
      is the one registered under [key]. *)
Definition actionsForCompletelyDestroy (key : string) (w : World) : World :=
    with_apps (JsMap.delete key (appInstanceMap w))
      (with_channels (channels w ∖ {[key]})
         (with_sandBoxes (sandBoxes w ∖ {[key]})
            (record (Call_actionsForCompletelyDestroy key) w))).

  (** Modelled from the spec: [app.unmount(destroy, unmountcb)] of
      [./create_app]: the application leaves its container and its
      keep-alive state is cleared; with [destroy] its resources and its
      Registry entry are released, without it both are retained; the
      container emits [unmount] and the callback is called. *)
Definition app_unmount (key : string) (destroy : bool)
      (unmountcb : World -> World) (w : World) : World :=
    let w1 := record (Call_unmount key destroy) w in
    match JsMap.get key (appInstanceMap w1) with
    | None => unmountcb w1
    | Some app =>
        let w2 :=
          with_apps
            (JsMap.set key
               {| getAppState := UNMOUNT; getKeepAliveState := NONE;
                  isPrefetch := isPrefetch app; container := None |}
               (appInstanceMap w1)) w1 in
        let w3 := if destroy then actionsForCompletelyDestroy key w2 else w2 in
        let w4 :=
          match container app with
          | Some ct => dispatchEvent (getRootContainer ct) "unmount" w3
          | None => w3
          end in
        unmountcb w4
    end.

  (** The visible branch takes the container out in one of three ways. *)
Definition detach_destroy (c : nat) (w : World) : Completion :=
    let destroyAttrValue := getAttribute c "destroy" w in
    let destoryAttrValue := getAttribute c "destory" w in
    let w := setAttribute c "destroy" "true" w in
    do w <- removeChild c w;
    let w := removeAttribute c "destroy" w in
    let w := match destroyAttrValue with
             | Some v => setAttribute c "destroy" v w
             | None => w
             end in
    let w := match destoryAttrValue with
             | Some v => setAttribute c "destory" v w
             | None => w
             end in
    Normal w.

  (** [getAttribute('keep-alive')!] is read under [hasAttribute]; a
      [null] handed to [setAttribute] would be written as its name. *)
Definition detach_clearAliveState (c : nat) (w : World) : Completion :=
    let keepAliveAttrValue := default "null" (getAttribute c "keep-alive" w) in
    let w := removeAttribute c "keep-alive" w in
    do w <- removeChild c w;
    Normal (setAttribute c "keep-alive" keepAliveAttrValue w).

Definition detach (options : option unmountAppParams) (c : nat) (w : World)
      : Completion :=
    if wants_destroy options then
      detach_destroy c w
    else if wants_clearAliveState options && hasAttribute c "keep-alive" w then
      detach_clearAliveState c w
    else
      removeChild c w.

  (** The body of the promise executor of [unmountApp]; [app] is what
      [appInstanceMap.get(formatAppName(appName))] returned and [p] the
      promise under construction. *)
Definition executor (appName : string) (options : option unmountAppParams)
      (app : option AppInterface) (p : nat) (w : World) : Completion :=
    let key := formatAppName appName in
    match app with
    | Some a =>
        if bool_decide (getAppState a = UNMOUNT) || isPrefetch a then
          let w := if wants_destroy options
                   then actionsForCompletelyDestroy key w else w in
          Normal (resolve p w)
        else if bool_decide (getKeepAliveState a = KEEP_ALIVE_HIDDEN) then
          if wants_destroy options then
            Normal (app_unmount key true (resolve p) w)
          else if wants_clearAliveState options then
            Normal (app_unmount key false (resolve p) w)
          else
            Normal (resolve p w)
        else
          match container a with
          | None => Throw w
          | Some ct =>
              let c := getRootContainer ct in
              let w := addEventListener c "unmount" (unmountHandler c p) w in
              let w := addEventListener c "afterhidden" (afterhiddenHandler c p) w in
              detach options c w
          end
    | None =>
        Normal (resolve p (logWarn ("app " +:+ appName +:+ " does not exist") w))
    end.

  (** [new Promise(executor)]: the executor runs at once; an exception
      it throws rejects the promise. *)
Definition unmountApp (appName : string) (options : option unmountAppParams)
      (w : World) : nat * World :=
    let app := JsMap.get (formatAppName appName) (appInstanceMap w) in
    let '(p, w1) := newPromise Pending w in
    match executor appName options app p (record (Call_unmountApp appName p) w1) with
    | Normal w2 => (p, w2)
    | Throw w2 => (p, reject p w2)
    end.

  (** [pre.then(() => unmountApp(next, options))]. *)
Definition promise_then (pre : nat) (next : string)
      (options : option unmountAppParams) (w : World) : nat * World :=
    let '(d, w1) := newPromise Pending w in
    (d, register pre (ThenUnmount next options d) w1).

  (** [Array.from(appInstanceMap.keys()).reduce(..., Promise.resolve())]. *)
Definition unmountAllApps (options : option unmountAppParams) (w : World)
      : nat * World :=
    fold_left
      (fun pre next => promise_then pre.1 next options pre.2)
      (getAllApps w)
      (newPromise Fulfilled w).

  (** ** Microtasks *)

Definition run_job (j : Job) (w : World) : World :=
    match j with
    | PromiseReactionJob (ThenUnmount next options d) Fulfilled =>
        let '(q, w1) := unmountApp next options w in
        enqueue (PromiseResolveThenableJob d q) w1
    | PromiseReactionJob (ThenUnmount _ _ d) s => settle d s w
    | PromiseReactionJob (Adopt d) s => settle d s w
    | PromiseResolveThenableJob d q => register q (Adopt d) w
    end.

Definition run_microtask (w : World) : World :=
    match microtasks w with
    | [] => w
    | j :: q => run_job j (with_microtasks q w)
    end.

  (** What can happen after a call returns: the adapter acts (an event
      is dispatched, the registry is updated) or one microtask runs. *)
Inductive EnvAct :=
  | Adapter (a : AdapterAct)
  | Microtask.

Definition env_act (e : EnvAct) (w : World) : World :=
    match e with
    | Adapter a => adapter_act a w
    | Microtask => run_microtask w
    end.

Definition run (schedule : list EnvAct) (w : World) : World :=
    fold_left (fun w e => env_act e w) schedule w.

End Orchestrator.

(** ** [MicroApp.start] *)

Module MicroApp.

  (** What the checks [isFunction] and [isPlainObject] tell apart. *)
Inductive JsValue :=
  | JsFunction (id : nat)
  | JsPlainObject (id : nat)
  | JsOther (id : nat).

Definition isFunction (v : option JsValue) : bool :=
    match v with Some (JsFunction _) => true | _ => false end.

Definition isPlainObject (v : option JsValue) : bool :=
    match v with Some (JsPlainObject _) => true | _ => false end.

  (** [options.plugins]: a plain object whose [modules], when it is a
      plain object too, maps application names to plugin lists, or
      something else. *)
Inductive Modules :=
  | ModulesObject (entries : list (string * nat))
  | ModulesOther.

Inductive Plugins :=
  | PluginsObject (global : option nat) (modules : option Modules)
  | PluginsOther.

  (** The options handed to [start]: an object with these properties;
      [opt_isPlainObject] is what [isPlainObject(options)] answers, the
      properties being readable on an object of any kind. *)
Record OptionsType := {
    opt_isPlainObject : bool;
    opt_tagName : option string;
    opt_shadowDOM : option bool;
    opt_destroy : option bool;
    opt_destory : option bool;
    opt_inline : option bool;
    opt_disableScopecss : option bool;
    opt_disableSandbox : option bool;
    opt_ssr : option bool;
    opt_fetch : option JsValue;
    opt_lifeCycles : option JsValue;
    opt_preFetchApps : option nat;
    opt_globalAssets : option nat;
    opt_excludeAssetFilter : option JsValue;
    opt_plugins : option Plugins
  }.

  (** The fields of the [MicroApp] instance. *)
Record Fields := {
    tagName : string;
    shadowDOM : option bool;
    destroy : option bool;
    destory : option bool;
    inline : option bool;
    disableScopecss : option bool;
    disableSandbox : option bool;
    ssr : option bool;
    lifeCycles : option JsValue;
    plugins : option Plugins;
    fetch : option JsValue;
    excludeAssetFilter : option JsValue
  }.

  (** A new instance: [tagName = 'micro-app'], nothing else set. *)
Definition fresh : Fields :=
    {| tagName := "micro-app"; shadowDOM := None; destroy := None;
       destory := None; inline := None; disableScopecss := None;
       disableSandbox := None; ssr := None; lifeCycles := None;
       plugins := None; fetch := None; excludeAssetFilter := None |}.

  (** The calls [start] makes on other modules. *)
Inductive StartCall :=
  | Call_initGlobalEnv
  | Call_preFetch (apps : nat)
  | Call_getGlobalAssets (assets : nat)
  | Call_defineElement (tagName : string).

  (** [window], when there is one: the names under which custom elements
      are defined, or nothing when [window.customElements] is missing. *)
Record Window := {
    customElements : option (list string)
  }.

Record State := {
    this : Fields;
    window : option Window;
    log : list LogEntry;
    calls : list StartCall
  }.

  (** *** The pattern [/^micro-app(-\S+)?/] *)

Fixpoint literal (lit s : string) : option string :=
    match lit, s with
    | EmptyString, _ => Some s
    | String a lit', String b s' => if Ascii.eqb a b then literal lit' s' else None
    | String _ _, EmptyString => None
    end.

  (** [\S]: anything but white space. *)
Definition non_space (a : Ascii.ascii) : bool :=
    negb (existsb (Nat.eqb (Ascii.nat_of_ascii a)) [9; 10; 11; 12; 13; 32; 160]).

Fixpoint many (p : Ascii.ascii -> bool) (s : string) : string :=
    match s with
    | String a s' => if p a then many p s' else s
    | EmptyString => s
    end.

  (** [-\S+]: the rest of the input after the group, if it matches. *)
Definition dash_word (s : string) : option string :=
    match s with
    | String d (String a s') =>
        if Ascii.eqb d (Ascii.ascii_of_nat 45) && non_space a
        then Some (many non_space s') else None
    | _ => None
    end.

  (** The group is optional and nothing follows it: after the literal
      the match succeeds with or without it. *)
Definition test_tagName (s : string) : bool :=
    match literal "micro-app" s with
    | Some rest =>
        match dash_word rest with
        | Some _ => true
        | None => true
        end
    | None => false
    end.

  Section Start.
    Variable formatAppName : string -> string.

    (** The [for ... in] loop over [modules]: the names are those present
        when the loop starts; one deleted in the meantime is skipped. *)
Definition normalize_modules (modules : list (string * nat)) : list (string * nat) :=
      fold_left
        (fun modules appName =>
           match JsMap.get appName modules with
           | Some v =>
               let formattedAppName := formatAppName appName in
               if negb (String.eqb formattedAppName "") &&
                  negb (String.eqb appName formattedAppName)
               then JsMap.delete appName (JsMap.set formattedAppName v modules)
               else modules
           | None => modules
           end)
        (JsMap.keys modules) modules.

Definition normalize_plugins (p : Plugins) : Plugins :=
      match p with
      | PluginsObject g (Some (ModulesObject entries)) =>
          PluginsObject g (Some (ModulesObject (normalize_modules entries)))
      | _ => p
      end.

Definition is_plugins_object (p : option Plugins) : bool :=
      match p with Some (PluginsObject _ _) => true | _ => false end.

Definition say (e : LogEntry) (st : State) : State :=
      {| this := this st; window := window st; log := log st ++ [e];
         calls := calls st |}.

Definition call (c : StartCall) (st : State) : State :=
      {| this := this st; window := window st; log := log st;
         calls := calls st ++ [c] |}.

Definition with_this (f : Fields) (st : State) : State :=
      {| this := f; window := window st; log := log st; calls := calls st |}.

Definition set_tagName (t : string) (f : Fields) : Fields :=
      {| tagName := t; shadowDOM := shadowDOM f; destroy := destroy f;
         destory := destory f; inline := inline f;
         disableScopecss := disableScopecss f;
         disableSandbox := disableSandbox f; ssr := ssr f;
         lifeCycles := lifeCycles f; plugins := plugins f; fetch := fetch f;
         excludeAssetFilter := excludeAssetFilter f |}.

    (** The assignments of the block [if (options && isPlainObject(options))]. *)
Definition copy_options (o : OptionsType) (f : Fields) : Fields :=
      {| tagName := tagName f;
         shadowDOM := opt_shadowDOM o;
         destroy := opt_destroy o;
         destory := opt_destory o;
         inline := opt_inline o;
         disableScopecss := opt_disableScopecss o;
         disableSandbox := opt_disableSandbox o;
         ssr := opt_ssr o;
         lifeCycles := if isPlainObject (opt_lifeCycles o)
                       then opt_lifeCycles o else lifeCycles f;
         plugins := if is_plugins_object (opt_plugins o)
                    then normalize_plugins <$> opt_plugins o else plugins f;
         fetch := if isFunction (opt_fetch o) then opt_fetch o else fetch f;
         excludeAssetFilter := if isFunction (opt_excludeAssetFilter o)
                               then opt_excludeAssetFilter o
                               else excludeAssetFilter f |}.

    (** [if (options && isPlainObject(options)) { ... }]. *)
Definition init_options (options : option OptionsType) (st : State) : State :=
      match options with
      | Some o =>
          if opt_isPlainObject o then
            let st := with_this (copy_options o (this st)) st in
            let st := match opt_preFetchApps o with
                      | Some apps => call (Call_preFetch apps) st
                      | None => st
                      end in
            match opt_globalAssets o with
            | Some assets => call (Call_getGlobalAssets assets) st
            | None => st
            end
          else st
      | None => st
      end.

    (** Modelled from the spec: [defineElement] of [./micro_app_element],
        the custom-element registration shim: it defines the embedding
        tag in [window.customElements]. *)
Definition defineElement (t : string) (st : State) : State :=
      let st := call (Call_defineElement t) st in
      {| this := this st;
         window :=
           (fun win => {| customElements := (fun names => names ++ [t]) <$> customElements win |})
             <$> window st;
         log := log st; calls := calls st |}.

    (** [options?.tagName] as a condition: present and not empty. *)
Definition given_tagName (options : option OptionsType) : option string :=
      match options with
      | Some o =>
          match opt_tagName o with
          | Some "" => None
          | t => t
          end
      | None => None
      end.

Definition start (options : option OptionsType) (st : State) : State :=
      match window st with
      | None => say (Error "micro-app is not supported in this environment") st
      | Some win =>
          match customElements win with
          | None => say (Error "micro-app is not supported in this environment") st
          | Some defined =>
              let checked :=
                match given_tagName options with
                | Some t =>
                    if test_tagName t
                    then inl (with_this (set_tagName t (this st)) st)
                    else inr (say (Error (t +:+ " is invalid tagName")) st)
                | None => inl st
                end in
              match checked with
              | inr st => st
              | inl st =>
                  if bool_decide (tagName (this st) ∈ defined) then
                    say (Warn ("element " +:+ tagName (this st) +:+ " is already defined")) st
                  else
                    let st := call Call_initGlobalEnv st in
                    let st := init_options options st in
                    defineElement (tagName (this st)) st
              end
          end
      end.

  End Start.

End MicroApp.

(** ** Reference definitions, in the words of the specification *)

(** Insertion order of the names of a [Map] with the given history: a
    name enters at the end when it is first added, keeps its place when
    it is set again, and leaves when it is deleted. *)
Definition order_step {V : Type} (names : list string) (op : @JsMap.Op V)
    : list string :=
  match op with
  | JsMap.OpSet k _ => if decide (k ∈ names) then names else names ++ [k]
  | JsMap.OpDelete k => filter (fun n => n <> k) names
  end.

Definition insertion_order {V : Type} (ops : list (@JsMap.Op V)) : list string :=
  fold_left order_step ops [].

(** "An application is active when its lifecycle state is not UNMOUNT
    and isPrefetch is false, optionally excluding those currently
    KEEP_ALIVE_HIDDEN." *)
Definition active (excludeHiddenKeepAlive : bool) (app : AppInterface) : Prop :=
  getAppState app <> UNMOUNT /\
  isPrefetch app = false /\
  (excludeHiddenKeepAlive = true -> getKeepAliveState app <> KEEP_ALIVE_HIDDEN).

#[global] Instance active_dec b app : Decision (active b app).
Proof. unfold active. apply _. Defined.

(** The element names defined in a supported environment: a browser
    with [window.customElements]. *)
Definition supported (st : MicroApp.State) : option (list string) :=
  MicroApp.window st ≫= MicroApp.customElements.

(** The tag name [start] works with: the one given in the options, or
    the one the instance already has. *)
Definition effective_tagName (options : option MicroApp.OptionsType)
    (st : MicroApp.State) : string :=
  match MicroApp.given_tagName options with
  | Some t => t
  | None => MicroApp.tagName (MicroApp.this st)
  end.

(** Start-up did not take place: no call was made (no global
    initialization, no element definition) and [window] is as before. *)
Definition start_aborted (st st' : MicroApp.State) : Prop :=
  MicroApp.calls st' = MicroApp.calls st /\
  MicroApp.window st' = MicroApp.window st.

(** The calls [start] may make between initialization and definition. *)
Definition is_prefetch_call (c : MicroApp.StartCall) : bool :=
  match c with
  | MicroApp.Call_preFetch _ | MicroApp.Call_getGlobalAssets _ => true
  | _ => false
  end.

(** ** Names for what the code does, used in the statements *)

(** The key under which the [for ... in] loop of [start] leaves the
    plugins of the application [appName]: the formatted name, unless
    that is empty. *)
Definition module_key (formatAppName : string -> string) (appName : string)
    : string :=
  if String.eqb (formatAppName appName) "" then appName
  else formatAppName appName.

(** The same instance fields but for the tag name. *)
Definition same_settings (f f' : MicroApp.Fields) : Prop :=
  MicroApp.set_tagName "" f' = MicroApp.set_tagName "" f.

(** The options with the tag name left out. *)
Definition without_tagName (o : MicroApp.OptionsType) : MicroApp.OptionsType :=
  {| MicroApp.opt_isPlainObject := MicroApp.opt_isPlainObject o;
     MicroApp.opt_tagName := None;
     MicroApp.opt_shadowDOM := MicroApp.opt_shadowDOM o;
     MicroApp.opt_destroy := MicroApp.opt_destroy o;
     MicroApp.opt_destory := MicroApp.opt_destory o;
     MicroApp.opt_inline := MicroApp.opt_inline o;
     MicroApp.opt_disableScopecss := MicroApp.opt_disableScopecss o;
     MicroApp.opt_disableSandbox := MicroApp.opt_disableSandbox o;
     MicroApp.opt_ssr := MicroApp.opt_ssr o;
     MicroApp.opt_fetch := MicroApp.opt_fetch o;
     MicroApp.opt_lifeCycles := MicroApp.opt_lifeCycles o;
     MicroApp.opt_preFetchApps := MicroApp.opt_preFetchApps o;
     MicroApp.opt_globalAssets := MicroApp.opt_globalAssets o;
     MicroApp.opt_excludeAssetFilter := MicroApp.opt_excludeAssetFilter o;
     MicroApp.opt_plugins := MicroApp.opt_plugins o |}.

(** ** What a call may do to the browser state *)

(** The promise a listener resolves. *)
Definition target (h : Handler) : nat :=
  match h with
  | unmountHandler _ p | afterhiddenHandler _ p => p
  end.


(** Events other than a call of [unmountApp] and the settling of a
    promise. *)
Definition is_note (e : Event) : bool :=
  match e with
  | Call_unmountApp _ _ | Settled _ _ => false
  | _ => true
  end.

(** The calls an executor makes on elements and applications. *)
Definition is_plain_call (e : Event) : bool :=
  match e with
  | Call_unmountApp _ _ | Settled _ _ | Dispatched _ _ => false
  | _ => true
  end.

Definition settles (p : nat) (e : Event) : bool :=
  match e with
  | Settled p' _ => bool_decide (p' = p)
  | _ => false
  end.

(** How often promise [p] is settled in a stretch of the trace. *)
Definition count_settled (p : nat) (tr : list Event) : nat :=
  length (List.filter (settles p) tr).

(** [p] is pending or not yet created. *)
Definition unsettled (p : nat) (w : World) : Prop :=
  forall pr, promises w !! p = Some pr -> pstate pr = Pending.

(** [w'] is a later state of [w]: promises are only added, a settled
    promise never changes again, the trace only grows, and a promise is
    settled at most once, the trace showing when. *)
Definition evolves (w w' : World) : Prop :=
  length (promises w) <= length (promises w') /\
  (forall p pr, promises w !! p = Some pr -> pstate pr <> Pending ->
                promises w' !! p = Some pr) /\
  exists new,
    trace w' = trace w ++ new /\
    forall p,
      (count_settled p new = 0 /\
       (state_of p w = Some Pending -> state_of p w' = Some Pending)) \/
      (count_settled p new = 1 /\ unsettled p w /\
       exists s, s <> Pending /\ state_of p w' = Some s /\ Settled p s ∈ new).

Section Steps.

  (** [ok p]: promise [p] may be resolved by a listener or by the
      executor that is running. *)
  Variable ok : nat -> Prop.

Definition listeners_ok (w : World) : Prop :=
    forall c l, l ∈ listeners (document w c) -> ok (target l.2).

  (** The small steps: every effect of a dispatch and of the executor
      of [unmountApp] is a sequence of them.  They resolve [ok] promises
      only, add listeners for [ok] promises only, and never call
      [unmountApp] nor reject a promise. *)
Inductive plain : World -> World -> Prop :=
  | plain_apps m w : plain w (with_apps m w)
  | plain_sandBoxes s w : plain w (with_sandBoxes s w)
  | plain_channels s w : plain w (with_channels s w)
  | plain_console l w : plain w (with_console l w)
  | plain_record e w : is_note e = true -> plain w (record e w)
  | plain_element c f w :
      (forall l, l ∈ listeners (f (document w c)) ->
                 l ∈ listeners (document w c) \/ ok (target l.2)) ->
      plain w (update_element c f w)
  | plain_resolve p w : ok p -> plain w (resolve p w).

Definition plains : World -> World -> Prop := rtc plain.

  (** The same effects with a dispatch taken as one step; outside a
      dispatch no listener is removed. *)
Inductive step : World -> World -> Prop :=
  | step_apps m w : step w (with_apps m w)
  | step_sandBoxes s w : step w (with_sandBoxes s w)
  | step_channels s w : step w (with_channels s w)
  | step_console l w : step w (with_console l w)
  | step_record e w : is_plain_call e = true -> step w (record e w)
  | step_attrs c f w :
      listeners (f (document w c)) = listeners (document w c) ->
      step w (update_element c f w)
  | step_listen c ev h w : ok (target h) -> step w (addEventListener c ev h w)
  | step_resolve p w : ok p -> step w (resolve p w)
  | step_dispatch c ev w : step w (dispatchEvent c ev w).

Definition steps : World -> World -> Prop := rtc step.

End Steps.

(** The state in which the executor of [unmountApp] starts: the promise
    is allocated and the call recorded. *)
Definition entered (appName : string) (w : World) : World :=
  record (Call_unmountApp appName (length (promises w))) (newPromise Pending w).2.

Arguments entered : simpl never.

(** The events a dispatch leaves in the trace. *)
Definition is_dispatch_event (e : Event) : bool :=
  match e with
  | Dispatched _ _ | Call_removeEventListener _ _ _ | Settled _ _ => true
  | _ => false
  end.

(** What a dispatch, and with [registry_too = false] what the adapter,
    leaves alone: sandboxes, channels, console, the attributes and the
    parent of every element and, for a dispatch, the registry; the trace
    grows by dispatch events only. *)
Definition reacts (registry_too : bool) (w w' : World) : Prop :=
  (registry_too = true -> appInstanceMap w' = appInstanceMap w) /\
  sandBoxes w' = sandBoxes w /\
  channels w' = channels w /\
  console w' = console w /\
  (forall c, attributes (document w' c) = attributes (document w c) /\
             parentNode (document w' c) = parentNode (document w c)) /\
  exists new, trace w' = trace w ++ new /\
              Forall (fun e => is_dispatch_event e = true) new.

(** [p] exists and is not rejected. *)
Definition alive (p : nat) (w : World) : Prop :=
  state_of p w = Some Pending \/ state_of p w = Some Fulfilled.

(** The state of the visible branch once both listeners are attached
    to the root container [c]. *)
Definition listening (appName : string) (c : nat) (w : World) : World :=
  let p := length (promises w) in
  addEventListener c "afterhidden" (afterhiddenHandler c p)
    (addEventListener c "unmount" (unmountHandler c p) (entered appName w)).

Arguments listening : simpl never.

(** The calls that put back the markers found before a destroy. *)
Definition restore_calls (c : nat) (attrs : gmap string string) : list Event :=
  match attrs !! "destroy" with
  | Some v => [Call_setAttribute c "destroy" v]
  | None => []
  end ++
  match attrs !! "destory" with
  | Some v => [Call_setAttribute c "destory" v]
  | None => []
  end.

(** ** Waiting for the container *)

(** The promise a reaction or a queued job will settle. *)
Definition reaction_target (r : Reaction) : nat :=
  match r with
  | ThenUnmount _ _ d | Adopt d => d
  end.

Definition job_target (j : Job) : nat :=
  match j with
  | PromiseReactionJob r _ => reaction_target r
  | PromiseResolveThenableJob d _ => d
  end.

(** Every promise that a listener, a queued job or a reaction refers to
    exists. *)
Definition wf_refs (w : World) : Prop :=
  (forall c l, l ∈ listeners (document w c) -> target l.2 < length (promises w)) /\
  (forall j, j ∈ microtasks w -> job_target j < length (promises w)) /\
  (forall p pr r, promises w !! p = Some pr -> r ∈ reactions pr ->
                  reaction_target r < length (promises w)).

(** No queued job and no reaction will settle [q]. *)
Definition untargeted (q : nat) (w : World) : Prop :=
  (forall j, j ∈ microtasks w -> job_target j <> q) /\
  (forall p pr r, promises w !! p = Some pr -> r ∈ reactions pr ->
                  reaction_target r <> q).

(** The only listeners for [q] are the two that [unmountApp] attached
    to [c]. *)
Definition own_listeners (c q : nat) (w : World) : Prop :=
  forall c' l, l ∈ listeners (document w c') -> target l.2 = q ->
    c' = c /\
    (l = ("unmount", unmountHandler c q) \/
     l = ("afterhidden", afterhiddenHandler c q)).

(** Container [c] has emitted [unmount] or [afterhidden] in this
    stretch of the trace. *)
Definition emitted (c : nat) (tr : list Event) : Prop :=
  exists ev, (ev = "unmount" \/ ev = "afterhidden") /\ Dispatched c ev ∈ tr.

(** The two states of the promise [q] of a visible application, [rest]
    being the trace since its listeners were attached: the promise
    pending, never settled, and both listeners in place; or the promise
    fulfilled, settled once, and no listener for it left anywhere. *)
Definition waiting (c q : nat) (rest : list Event) (w : World) : Prop :=
  state_of q w = Some Pending /\
  ("unmount", unmountHandler c q) ∈ listeners (document w c) /\
  ("afterhidden", afterhiddenHandler c q) ∈ listeners (document w c) /\
  count_settled q rest = 0.

Definition resolved (q : nat) (rest : list Event) (w : World) : Prop :=
  state_of q w = Some Fulfilled /\
  (forall c' l, l ∈ listeners (document w c') -> target l.2 <> q) /\
  count_settled q rest = 1.

(** The promise is in the first state exactly as long as the container
    has emitted neither event. *)
Definition awaits (base : list Event) (c q : nat) (w : World) : Prop :=
  exists rest,
    trace w = base ++ rest /\
    untargeted q w /\
    own_listeners c q w /\
    ((waiting c q rest w /\ ~ emitted c rest) \/
     (resolved q rest w /\ emitted c rest)).

Definition is_dispatched (e : Event) : bool :=
  match e with
  | Dispatched _ _ => true
  | _ => false
  end.

(** What holds of [q] all through a dispatch, the event itself being
    already in the trace. *)
Definition tracks (base : list Event) (c q : nat) (rest : list Event)
    (w : World) : Prop :=
  trace w = base ++ rest /\ untargeted q w /\ own_listeners c q w.

(** ** A host page to try the definitions on *)

Module Example.

  (** Names that need no formatting; the root of a shadow root is its
      host. *)
Definition formatAppName (appName : string) : string := appName.

Definition getRootContainer (ct : Container) : nat :=
    match ct with
    | HTMLElement el => el
    | ShadowRoot host => host
    end.

  (** Two adapters: one whose teardown completes within the removal,
      one whose teardown completes later. *)
Definition prompt (c : nat) (w : World) : list AdapterAct := [Emit c "unmount"].
Definition lazy (c : nat) (w : World) : list AdapterAct := [].

Definition blank : Element :=
    {| attributes := ∅; parentNode := None; listeners := [] |}.

Definition child (attrs : list (string * string)) : Element :=
    {| attributes := list_to_map attrs; parentNode := Some 0; listeners := [] |}.

Definition app (s : appStates) (k : keepAliveStates) (prefetch : bool)
      (c : option Container) : AppInterface :=
    {| getAppState := s; getKeepAliveState := k; isPrefetch := prefetch;
       container := c |}.

  (** Five applications: one unmounted, one visible in element 1 (which
      carries both marker attributes), one hidden by keep-alive in
      element 2, one prefetched, and one that is unmounted yet still
      marked hidden. *)
Definition page : World :=
    {| appInstanceMap :=
         [("done", app UNMOUNT NONE false None);
          ("shown", app MOUNTED KEEP_ALIVE_SHOWN false (Some (HTMLElement 1)));
          ("hidden", app MOUNTED KEEP_ALIVE_HIDDEN false (Some (HTMLElement 2)));
          ("early", app LOADING NONE true None);
          ("stale", app UNMOUNT KEEP_ALIVE_HIDDEN false None)];
       sandBoxes := {["done"; "shown"; "hidden"; "early"; "stale"]};
       channels := {["done"; "shown"; "hidden"; "early"; "stale"]};
       document :=
         <[1 := child [("destroy", "later"); ("destory", "");
                       ("keep-alive", "true")]]>
           (<[2 := child [("keep-alive", "true")]]> (fun _ => blank));
       promises := [];
       microtasks := [];
       console := [];
       trace := [] |}.

  (** The same page after element 1 was taken out of the document by
      other means: the visible application's container has no parent. *)
Definition orphaned : World :=
    {| appInstanceMap := appInstanceMap page;
       sandBoxes := sandBoxes page;
       channels := channels page;
       document :=
         <[1 := {| attributes := attributes (document page 1);
                   parentNode := None; listeners := [] |}]> (document page);
       promises := [];
       microtasks := [];
       console := [];
       trace := [] |}.

  (** The page without its visible application. *)
Definition idle : World :=
    {| appInstanceMap :=
         [("done", app UNMOUNT NONE false None);
          ("hidden", app MOUNTED KEEP_ALIVE_HIDDEN false (Some (HTMLElement 2)));
          ("early", app LOADING NONE true None);
          ("stale", app UNMOUNT KEEP_ALIVE_HIDDEN false None)];
       sandBoxes := sandBoxes page;
       channels := channels page;
       document := document page;
       promises := [];
       microtasks := [];
       console := [];
       trace := [] |}.

Definition only_destroy : option unmountAppParams :=
    Some {| destroy := Some true; clearAliveState := None |}.

Definition only_clear : option unmountAppParams :=
    Some {| destroy := None; clearAliveState := Some true |}.

Definition destroy_and_clear : option unmountAppParams :=
    Some {| destroy := Some true; clearAliveState := Some true |}.

  (** A formatter that drops blanks, to try the renaming of plugin
      modules on. *)
Fixpoint squeeze (s : string) : string :=
    match s with
    | EmptyString => EmptyString
    | String a s' =>
        if Ascii.eqb a (Ascii.ascii_of_nat 32) then squeeze s'
        else String a (squeeze s')
    end.

Definition modules : list (string * nat) :=
    [("my app", 1); ("shop", 2); (" cart ", 3)].

End Example.

Module StartExample.

Definition browser (defined : list string) : MicroApp.State :=
    {| MicroApp.this := MicroApp.fresh;
       MicroApp.window := Some {| MicroApp.customElements := Some defined |};
       MicroApp.log := [];
       MicroApp.calls := [] |}.

Definition server : MicroApp.State :=
    {| MicroApp.this := MicroApp.fresh;
       MicroApp.window := None;
       MicroApp.log := [];
       MicroApp.calls := [] |}.

Definition named (t : string) : option MicroApp.OptionsType :=
    Some {| MicroApp.opt_isPlainObject := true;
            MicroApp.opt_tagName := Some t;
            MicroApp.opt_shadowDOM := None;
            MicroApp.opt_destroy := None;
            MicroApp.opt_destory := None;
            MicroApp.opt_inline := None;
            MicroApp.opt_disableScopecss := None;
            MicroApp.opt_disableSandbox := None;
            MicroApp.opt_ssr := None;
            MicroApp.opt_fetch := None;
            MicroApp.opt_lifeCycles := None;
            MicroApp.opt_preFetchApps := Some 7;
            MicroApp.opt_globalAssets := None;
            MicroApp.opt_excludeAssetFilter := None;
            MicroApp.opt_plugins := None |}.

  (** Options with a [fetch] that is no function, plain-object
      [lifeCycles] and both prefetch options. *)
Definition typed : MicroApp.OptionsType :=
    {| MicroApp.opt_isPlainObject := true;
       MicroApp.opt_tagName := Some "micro-app-demo";
       MicroApp.opt_shadowDOM := None;
       MicroApp.opt_destroy := None;
       MicroApp.opt_destory := None;
       MicroApp.opt_inline := None;
       MicroApp.opt_disableScopecss := None;
       MicroApp.opt_disableSandbox := None;
       MicroApp.opt_ssr := Some true;
       MicroApp.opt_fetch := Some (MicroApp.JsOther 1);
       MicroApp.opt_lifeCycles := Some (MicroApp.JsPlainObject 2);
       MicroApp.opt_preFetchApps := Some 7;
       MicroApp.opt_globalAssets := Some 9;
       MicroApp.opt_excludeAssetFilter := None;
       MicroApp.opt_plugins := None |}.

  (** The same properties on an object that is not a plain object. *)
Definition listed : MicroApp.OptionsType :=
    {| MicroApp.opt_isPlainObject := false;
       MicroApp.opt_tagName := Some "micro-app-demo";
       MicroApp.opt_shadowDOM := None;
       MicroApp.opt_destroy := None;
       MicroApp.opt_destory := None;
       MicroApp.opt_inline := None;
       MicroApp.opt_disableScopecss := None;
       MicroApp.opt_disableSandbox := None;
       MicroApp.opt_ssr := Some true;
       MicroApp.opt_fetch := Some (MicroApp.JsOther 1);
       MicroApp.opt_lifeCycles := Some (MicroApp.JsPlainObject 2);
       MicroApp.opt_preFetchApps := Some 7;
       MicroApp.opt_globalAssets := Some 9;
       MicroApp.opt_excludeAssetFilter := None;
       MicroApp.opt_plugins := None |}.

End StartExample.

(** ** One application after the other *)

(** The calls of [unmountApp] in a stretch of the trace, in order. *)
Definition calls_of (tr : list Event) : list (string * nat) :=
  omap (fun e => match e with
                 | Call_unmountApp n p => Some (n, p)
                 | _ => None
                 end) tr.

(** No call of [unmountApp] is made before the promise of the call
    before it has been fulfilled. *)
Definition sequential (tr : list Event) : Prop :=
  forall tr1 n q tr2 n' q' tr3,
    tr = tr1 ++ Call_unmountApp n q :: tr2 ++ Call_unmountApp n' q' :: tr3 ->
    Settled q Fulfilled ∈ tr2.

(** The same, as a check that walks along the trace: [Busy q] while the
    promise [q] of the last call is not fulfilled, [Broken] once a call
    was made in that state. *)
Inductive Gate := Open | Busy (q : nat) | Broken.

Definition gate_step (g : Gate) (e : Event) : Gate :=
  match e, g with
  | Call_unmountApp _ q, Open => Busy q
  | Call_unmountApp _ _, _ => Broken
  | Settled p Fulfilled, Busy q => if decide (p = q) then Open else Busy q
  | _, _ => g
  end.

Definition gate_from (g : Gate) (tr : list Event) : Gate :=
  fold_left gate_step tr g.

(** Nothing is in flight: no job is queued, no reaction is registered,
    and the listeners belong to promises that exist. *)
Definition quiescent (w : World) : Prop :=
  microtasks w = [] /\
  (forall p pr, promises w !! p = Some pr -> reactions pr = []) /\
  (forall c l, l ∈ listeners (document w c) -> target l.2 < length (promises w)).

(** The ways through [unmountApp] that end in [resolve()] without any
    call on the application or its container: the name is not
    registered; the application is UNMOUNT or a prefetch and [destroy]
    is not asked for; it is hidden by keep-alive and neither option is
    set. *)
Definition settles_at_once (options : option unmountAppParams)
    (app : option AppInterface) : bool :=
  match app with
  | None => true
  | Some a =>
      if bool_decide (getAppState a = UNMOUNT) || isPrefetch a then
        negb (wants_destroy options)
      else if bool_decide (getKeepAliveState a = KEEP_ALIVE_HIDDEN) then
        negb (wants_destroy options) && negb (wants_clearAliveState options)
      else false
  end.

Section Chain.

(** [unmountAllApps] was called with [options] when the registry held
    [names] and [L] promises existed.  It created the promises [L],
    [L + 1], ..., [L + length names]: the first is fulfilled, and
    promise [L + i + 1] is the one returned by [then] for the
    [i]-th name. *)
Variable L : nat.
Variable names : list string.
Variable options : option unmountAppParams.

Definition free (p : nat) : Prop := p < L \/ L + length names < p.

(** What is registered on chain promise [L + i] while it is pending. *)
Definition chain_reactions (i : nat) : list Reaction :=
  match names !! i with
  | Some n => [ThenUnmount n options (L + i + 1)]
  | None => []
  end.

(** The chain promises from [L + k] on are untouched. *)
Definition chain_from (k : nat) (w : World) : Prop :=
  forall i, k <= i <= length names ->
    promises w !! (L + i) =
    Some {| pstate := Pending; reactions := chain_reactions i |}.

(** The state of promises, queue and listeners when the chain has
    advanced to [k]: the queue holds [jobs]; all chain promises exist
    and those from [L + k] on are untouched; listeners resolve free
    promises only; and no promise other than those and the promise
    [loud] has a reaction. *)
Definition chain_state (k : nat) (jobs : list Job)
    (loud : option (nat * list Reaction)) (w : World) : Prop :=
  microtasks w = jobs /\
  L + length names < length (promises w) /\
  listeners_ok free w /\
  chain_from k w /\
  (forall p pr, promises w !! p = Some pr ->
     ~ (L + k <= p <= L + length names) ->
     Some p <> (fst <$> loud) ->
     reactions pr = []) /\
  match loud with
  | Some (q, rs) =>
      free q /\ promises w !! q = Some {| pstate := Pending; reactions := rs |}
  | None => True
  end.

(** The chain while [unmountAllApps] builds it from the state [w0]:
    [i] names have been folded in.  Promise [L] is fulfilled, so the
    reaction for the first name went to the queue at once; the last
    promise has no reaction yet.  Nothing else has changed. *)
Definition built (w0 : World) (i : nat) (w : World) : Prop :=
  length (promises w) = L + i + 1 /\
  (forall p, p < L -> promises w !! p = promises w0 !! p) /\
  promises w !! L = Some {| pstate := Fulfilled; reactions := [] |} /\
  (forall j, 1 <= j <= i ->
     promises w !! (L + j) =
     Some {| pstate := Pending;
             reactions := if decide (j < i) then chain_reactions j else [] |}) /\
  microtasks w =
    microtasks w0 ++
    (if decide (i = 0) then []
     else map (fun r => PromiseReactionJob r Fulfilled) (chain_reactions 0)) /\
  document w = document w0 /\
  trace w = trace w0 /\
  appInstanceMap w = appInstanceMap w0 /\
  sandBoxes w = sandBoxes w0 /\
  channels w = channels w0 /\
  console w = console w0.

(** The batch after [k] applications whose promises were fulfilled at
    once: the chain promises up to [L + k] and the promises of the [k]
    calls are fulfilled, the reaction for name [k] is queued, and
    registry and elements are as in [w0]. *)
Definition advanced (w0 : World) (k : nat) (new : list Event) (w : World) : Prop :=
  microtasks w = map (fun r => PromiseReactionJob r Fulfilled) (chain_reactions k) /\
  length (promises w) = L + length names + 1 + k /\
  (forall i, i <= k ->
     promises w !! (L + i) = Some {| pstate := Fulfilled; reactions := [] |}) /\
  (forall i, k < i <= length names ->
     promises w !! (L + i) =
     Some {| pstate := Pending; reactions := chain_reactions i |}) /\
  appInstanceMap w = appInstanceMap w0 /\
  document w = document w0 /\
  sandBoxes w = sandBoxes w0 /\
  channels w = channels w0 /\
  trace w = trace w0 ++ new /\
  (calls_of new).*1 = take k names /\
  (forall c ev, Dispatched c ev ∉ new).

(** The gate as the state of the last promise [q] has it. *)
Definition gate_of (q : nat) (w : World) : Gate :=
  if bool_decide (state_of q w = Some Fulfilled) then Open else Busy q.

(** While the executor of the call for name [k] runs: the call is
    recorded, its promise [q] exists and is not part of the chain. *)
Definition called (k q : nat) (new : list Event) (w : World) : Prop :=
  chain_state (k + 1) [] None w /\
  free q /\ q < length (promises w) /\
  (calls_of new).*1 = take (k + 1) names /\
  gate_from Open new = gate_of q w.

(** The stages of the chain, [new] being the trace since the call of
    [unmountAllApps]:
    - [at_react]: the job that will call [unmountApp] for name [k] is
      queued; the names before it have been called and their promises
      are fulfilled;
    - [at_called]: [unmountApp] was called for name [k] and returned [q];
    - [at_wait]: [q] is pending and chain promise [L + k + 1] follows it;
    - [at_adopt]: [q] is fulfilled and the job that fulfils
      [L + k + 1] is queued;
    - [at_dead]: a promise was rejected: no call will follow and the
      last chain promise will not be fulfilled;
    - [at_done]: the chain is through: every name has been called and
      the last chain promise is fulfilled. *)
Inductive stage (new : list Event) (w : World) : Prop :=
| at_react k n :
    names !! k = Some n ->
    chain_state (k + 1)
      [PromiseReactionJob (ThenUnmount n options (L + k + 1)) Fulfilled] None w ->
    (calls_of new).*1 = take k names ->
    gate_from Open new = Open ->
    stage new w
| at_called k q jobs :
    k < length names ->
    jobs = [] \/ jobs = [PromiseResolveThenableJob (L + k + 1) q] ->
    chain_state (k + 1) jobs None w ->
    free q -> q < length (promises w) ->
    (calls_of new).*1 = take (k + 1) names ->
    gate_from Open new = gate_of q w ->
    stage new w
| at_wait k q :
    k < length names ->
    chain_state (k + 1) [] (Some (q, [Adopt (L + k + 1)])) w ->
    (calls_of new).*1 = take (k + 1) names ->
    gate_from Open new = Busy q ->
    stage new w
| at_adopt k :
    k < length names ->
    chain_state (k + 1) [PromiseReactionJob (Adopt (L + k + 1)) Fulfilled] None w ->
    (calls_of new).*1 = take (k + 1) names ->
    gate_from Open new = Open ->
    stage new w
| at_dead k jobs :
    (jobs = [] /\ k = length names + 1) \/
    (exists r, jobs = [PromiseReactionJob r Rejected] /\
               reaction_target r = L + k /\ 1 <= k <= length names) ->
    chain_state k jobs None w ->
    (calls_of new).*1 `prefix_of` names ->
    gate_from Open new <> Broken ->
    state_of (L + length names) w <> Some Fulfilled ->
    stage new w
| at_done :
    chain_state (length names + 1) [] None w ->
    (calls_of new).*1 = names ->
    gate_from Open new = Open ->
    state_of (L + length names) w = Some Fulfilled ->
    stage new w.

End Chain.

(** * Facts about the registry *)

Module JsMapFacts.
Section JsMapFacts.
  Context {V : Type}.
  Implicit Types (m : list (string * V)) (k : string) (v : V).

Lemma keys_set m k v :
    JsMap.keys (JsMap.set k v m) =
    if decide (k ∈ JsMap.keys m) then JsMap.keys m else JsMap.keys m ++ [k].
  Proof.
    unfold JsMap.keys. induction m as [|[k' v'] m IH]; csimpl.
    - done.
    - destruct (decide (k = k')) as [->|Hne]; csimpl.
      + clear IH. destruct (decide (k' ∈ k' :: m.*1)) as [|Hn]; [done|].
        exfalso; apply Hn; set_solver.
      + rewrite IH. clear IH.
        destruct (decide (k ∈ m.*1)) as [Hin|Hnin];
          destruct (decide (k ∈ k' :: m.*1)) as [Hin'|Hnin']; try done.
        * exfalso; apply Hnin'; set_solver.
        * apply elem_of_cons in Hin' as [?|?]; [done|]. by exfalso.
  Qed.

Lemma keys_delete m k :
    JsMap.wf m ->
    JsMap.keys (JsMap.delete k m) = filter (fun n => n <> k) (JsMap.keys m).
  Proof.
    unfold JsMap.wf, JsMap.keys. induction m as [|[k' v'] m IH]; csimpl; [done|].
    intros [Hnin Hnd]%list.NoDup_cons.
    destruct (decide (k = k')) as [->|Hne].
    - rewrite filter_cons_False; [|by intros ?].
      clear IH Hnd. induction (m.*1) as [|x l IHl]; [done|].
      apply not_elem_of_cons in Hnin as [? ?].
      rewrite filter_cons_True; [|done]. f_equal. by apply IHl.
    - rewrite filter_cons_True; [|done]. csimpl. f_equal. by apply IH.
  Qed.

Lemma elem_of_keys_get m k :
    k ∈ JsMap.keys m <-> is_Some (JsMap.get k m).
  Proof.
    unfold JsMap.keys. induction m as [|[k' v'] m IH]; csimpl.
    - split; [by intros ?%elem_of_nil | by intros [? ?]].
    - destruct (decide (k = k')) as [->|Hne].
      + split; [by eexists | intros _; set_solver].
      + rewrite elem_of_cons, IH. naive_solver.
  Qed.

Lemma get_elem_of m k v :
    JsMap.wf m -> (k, v) ∈ m <-> JsMap.get k m = Some v.
  Proof.
    unfold JsMap.wf, JsMap.keys. induction m as [|[k' v'] m IH]; csimpl.
    - intros _. split; [by intros ?%elem_of_nil | done].
    - intros [Hnin Hnd]%list.NoDup_cons. rewrite elem_of_cons.
      destruct (decide (k = k')) as [->|Hne].
      + split.
        * intros [[= ->]|Hin]; [done|].
          exfalso. apply Hnin. apply list_elem_of_fmap. by exists (k', v).
        * intros [= ->]. by left.
      + rewrite <- (IH Hnd). naive_solver.
  Qed.

Lemma get_set_eq m k v : JsMap.get k (JsMap.set k v m) = Some v.
  Proof.
    induction m as [|[k' v'] m IH]; simpl.
    - by rewrite decide_True.
    - destruct (decide (k = k')) as [->|Hne]; simpl.
      + by rewrite decide_True.
      + by rewrite decide_False.
  Qed.

Lemma get_set_ne m k k' v :
    k <> k' -> JsMap.get k' (JsMap.set k v m) = JsMap.get k' m.
  Proof.
    intros Hne. induction m as [|[k0 v0] m IH]; simpl.
    - by rewrite decide_False.
    - destruct (decide (k = k0)) as [->|Hne0]; simpl.
      + by rewrite !decide_False.
      + destruct (decide (k' = k0)); [done | exact IH].
  Qed.

Lemma get_delete_eq m k : JsMap.wf m -> JsMap.get k (JsMap.delete k m) = None.
  Proof.
    unfold JsMap.wf, JsMap.keys. induction m as [|[k' v'] m IH]; csimpl; [done|].
    intros [Hnin Hnd]%list.NoDup_cons.
    destruct (decide (k = k')) as [->|Hne]; simpl.
    - destruct (JsMap.get k' m) eqn:Hget; [|done].
      exfalso. apply Hnin. apply elem_of_keys_get. by eexists.
    - rewrite decide_False by done. by apply IH.
  Qed.

Lemma get_delete_ne m k k' :
    k <> k' -> JsMap.get k' (JsMap.delete k m) = JsMap.get k' m.
  Proof.
    intros Hne. induction m as [|[k0 v0] m IH]; simpl; [done|].
    destruct (decide (k = k0)) as [->|Hne0]; simpl.
    - by rewrite decide_False.
    - destruct (decide (k' = k0)); [done | exact IH].
  Qed.

Lemma wf_set m k v : JsMap.wf m -> JsMap.wf (JsMap.set k v m).
  Proof.
    unfold JsMap.wf. intros Hnd. rewrite keys_set.
    destruct (decide (k ∈ JsMap.keys m)); [done|].
    apply list.NoDup_app. split_and!; [done| |apply NoDup_singleton].
    intros x Hx ->%list_elem_of_singleton. done.
  Qed.

Lemma wf_delete m k : JsMap.wf m -> JsMap.wf (JsMap.delete k m).
  Proof.
    intros Hnd. unfold JsMap.wf. rewrite keys_delete by done.
    by apply list.NoDup_filter.
  Qed.

Lemma wf_build (ops : list (@JsMap.Op V)) : JsMap.wf (JsMap.build ops).
  Proof.
    unfold JsMap.build.
    assert (JsMap.wf (@nil (string * V))) as Hnil by apply NoDup_nil_2.
    revert Hnil. generalize (@nil (string * V)) as m.
    induction ops as [|[k v|k] ops IH]; intros m Hm; simpl; [done| |].
    - apply IH. by apply wf_set.
    - apply IH. by apply wf_delete.
  Qed.

Lemma keys_fold (ops : list (@JsMap.Op V)) m :
    JsMap.wf m ->
    JsMap.keys (fold_left JsMap.apply ops m) =
    fold_left order_step ops (JsMap.keys m).
  Proof.
    revert m. induction ops as [|[k v|k] ops IH]; intros m Hm; simpl; [done| |].
    - rewrite <- (keys_set m k v). apply IH. by apply wf_set.
    - rewrite <- keys_delete by done. apply IH. by apply wf_delete.
  Qed.

Lemma keys_build (ops : list (@JsMap.Op V)) :
    JsMap.keys (JsMap.build ops) = insertion_order ops.
  Proof. apply keys_fold, NoDup_nil_2. Qed.
End JsMapFacts.
End JsMapFacts.

(** C9.  Whatever history of [set] and [delete] built the registry,
    [getAllApps] returns the registered names in insertion order, each
    once, and leaves none out: a name is returned exactly when the
    registry has an entry for it. *)
Theorem getAllApps_insertion_order (ops : list JsMap.Op) (w : World) :
  let w' := with_apps (JsMap.build ops) w in
  getAllApps w' = insertion_order ops /\
  NoDup (getAllApps w') /\
  length (getAllApps w') = length (appInstanceMap w') /\
  forall k, k ∈ getAllApps w' <-> is_Some (JsMap.get k (appInstanceMap w')).
Proof.
  simpl. unfold getAllApps; simpl. split_and!.
  - apply JsMapFacts.keys_build.
  - apply JsMapFacts.wf_build.
  - unfold JsMap.keys. by rewrite length_fmap.
  - intros k. apply JsMapFacts.elem_of_keys_get.
Qed.

Lemma is_active_spec (b : bool) (app : AppInterface) :
  is_active b app = true <-> active b app.
Proof.
  unfold is_active, active.
  rewrite !andb_true_iff, orb_true_iff, negb_true_iff, !bool_decide_eq_true.
  destruct b; simpl; split.
  - intros [[? ?] [?|?]]; [done|]. split_and!; [congruence|done|congruence].
  - intros (? & ? & ?). split_and!; [congruence|done|]. right.
    intros ?. by apply H1.
  - intros [[? ?] _]. split_and!; [congruence|done|done].
  - intros (? & ? & _). split_and!; [congruence|done|by left].
Qed.

Lemma forEach_push (b : bool) (m : list (string * AppInterface)) (acc : list string) :
  JsMap.forEach
    (fun app appName activeApps =>
       if is_active b app then activeApps ++ [appName] else activeApps) m acc =
  acc ++ (filter (fun kv => active b kv.2) m).*1.
Proof.
  unfold JsMap.forEach. revert acc.
  induction m as [|[k a] m IH]; intros acc; simpl.
  - by rewrite app_nil_r.
  - rewrite IH. destruct (is_active b a) eqn:Ha.
    + apply is_active_spec in Ha.
      rewrite filter_cons_True by done. csimpl. by rewrite <- app_assoc.
    + rewrite filter_cons_False; [done|].
      intros ?%is_active_spec. simpl in *. congruence.
Qed.

Lemma getActiveApps_filter (excludeHiddenApp : option bool) (w : World) :
  getActiveApps excludeHiddenApp w =
  (filter (fun kv => active (truthy excludeHiddenApp) kv.2) (appInstanceMap w)).*1.
Proof. unfold getActiveApps. by rewrite forEach_push. Qed.

(** C4.  [getActiveApps] returns, in registry order, exactly the names
    registered with an application that is not UNMOUNT and not a
    prefetch; called with [true] it also leaves out the applications
    that are KEEP_ALIVE_HIDDEN, called with [false] or with nothing it
    keeps them. *)
Theorem getActiveApps_exact (excludeHiddenApp : option bool) (w : World) :
  JsMap.wf (appInstanceMap w) ->
  NoDup (getActiveApps excludeHiddenApp w) /\
  sublist (getActiveApps excludeHiddenApp w) (getAllApps w) /\
  (forall appName,
     appName ∈ getActiveApps excludeHiddenApp w <->
     exists app,
       JsMap.get appName (appInstanceMap w) = Some app /\
       getAppState app <> UNMOUNT /\
       isPrefetch app = false /\
       (excludeHiddenApp = Some true ->
        getKeepAliveState app <> KEEP_ALIVE_HIDDEN)).
Proof.
  intros Hwf. rewrite getActiveApps_filter. split_and!.
  - eapply sublist_NoDup; [exact Hwf | apply fmap_sublist, sublist_filter].
  - apply fmap_sublist, sublist_filter.
  - intros appName. rewrite list_elem_of_fmap. split.
    + intros [[k a] [-> [Hact Hin]%list_elem_of_filter]]. simpl in *.
      exists a. apply JsMapFacts.get_elem_of in Hin; [|done].
      destruct Hact as (? & ? & Hk). split_and!; try done.
      intros ->. by apply Hk.
    + intros (a & Hget & ? & ? & Hk).
      exists (appName, a). split; [done|].
      apply list_elem_of_filter. split.
      * split_and!; try done. simpl.
        destruct excludeHiddenApp as [[]|]; simpl; try done. intros _. by apply Hk.
      * by apply JsMapFacts.get_elem_of.
Qed.

(** * Projections of the DOM calls *)

Lemma appInstanceMap_setAttribute c k v w : appInstanceMap (setAttribute c k v w) = appInstanceMap w.
Proof. reflexivity. Qed.

Lemma sandBoxes_setAttribute c k v w : sandBoxes (setAttribute c k v w) = sandBoxes w.
Proof. reflexivity. Qed.

Lemma channels_setAttribute c k v w : channels (setAttribute c k v w) = channels w.
Proof. reflexivity. Qed.

Lemma promises_setAttribute c k v w : promises (setAttribute c k v w) = promises w.
Proof. reflexivity. Qed.

Lemma microtasks_setAttribute c k v w : microtasks (setAttribute c k v w) = microtasks w.
Proof. reflexivity. Qed.

Lemma console_setAttribute c k v w : console (setAttribute c k v w) = console w.
Proof. reflexivity. Qed.

Lemma trace_setAttribute c k v w : trace (setAttribute c k v w) = trace w ++ [Call_setAttribute c k v].
Proof. reflexivity. Qed.

Lemma appInstanceMap_removeAttribute c k w : appInstanceMap (removeAttribute c k w) = appInstanceMap w.
Proof. reflexivity. Qed.

Lemma sandBoxes_removeAttribute c k w : sandBoxes (removeAttribute c k w) = sandBoxes w.
Proof. reflexivity. Qed.

Lemma channels_removeAttribute c k w : channels (removeAttribute c k w) = channels w.
Proof. reflexivity. Qed.

Lemma promises_removeAttribute c k w : promises (removeAttribute c k w) = promises w.
Proof. reflexivity. Qed.

Lemma microtasks_removeAttribute c k w : microtasks (removeAttribute c k w) = microtasks w.
Proof. reflexivity. Qed.

Lemma console_removeAttribute c k w : console (removeAttribute c k w) = console w.
Proof. reflexivity. Qed.

Lemma trace_removeAttribute c k w : trace (removeAttribute c k w) = trace w ++ [Call_removeAttribute c k].
Proof. reflexivity. Qed.

Lemma appInstanceMap_addEventListener c ev h w : appInstanceMap (addEventListener c ev h w) = appInstanceMap w.
Proof. reflexivity. Qed.

Lemma sandBoxes_addEventListener c ev h w : sandBoxes (addEventListener c ev h w) = sandBoxes w.
Proof. reflexivity. Qed.

Lemma channels_addEventListener c ev h w : channels (addEventListener c ev h w) = channels w.
Proof. reflexivity. Qed.

Lemma promises_addEventListener c ev h w : promises (addEventListener c ev h w) = promises w.
Proof. reflexivity. Qed.

Lemma microtasks_addEventListener c ev h w : microtasks (addEventListener c ev h w) = microtasks w.
Proof. reflexivity. Qed.

Lemma console_addEventListener c ev h w : console (addEventListener c ev h w) = console w.
Proof. reflexivity. Qed.

Lemma trace_addEventListener c ev h w : trace (addEventListener c ev h w) = trace w ++ [Call_addEventListener c ev h].
Proof. reflexivity. Qed.

Lemma appInstanceMap_removeEventListener c ev h w : appInstanceMap (removeEventListener c ev h w) = appInstanceMap w.
Proof. reflexivity. Qed.

Lemma sandBoxes_removeEventListener c ev h w : sandBoxes (removeEventListener c ev h w) = sandBoxes w.
Proof. reflexivity. Qed.

Lemma channels_removeEventListener c ev h w : channels (removeEventListener c ev h w) = channels w.
Proof. reflexivity. Qed.

Lemma promises_removeEventListener c ev h w : promises (removeEventListener c ev h w) = promises w.
Proof. reflexivity. Qed.

Lemma microtasks_removeEventListener c ev h w : microtasks (removeEventListener c ev h w) = microtasks w.
Proof. reflexivity. Qed.

Lemma console_removeEventListener c ev h w : console (removeEventListener c ev h w) = console w.
Proof. reflexivity. Qed.

Lemma trace_removeEventListener c ev h w : trace (removeEventListener c ev h w) = trace w ++ [Call_removeEventListener c ev h].
Proof. reflexivity. Qed.

Lemma element_update c f w c' :
  document (update_element c f w) c' =
  if decide (c = c') then f (document w c) else document w c'.
Proof.
  unfold update_element. simpl. destruct (decide (c = c')) as [->|Hne].
  - by rewrite fn_lookup_insert.
  - by rewrite fn_lookup_insert_ne.
Qed.

Lemma attributes_setAttribute c k v w c' :
  attributes (document (setAttribute c k v w) c') =
  if decide (c = c') then <[k := v]> (attributes (document w c))
  else attributes (document w c').
Proof.
  unfold setAttribute. cbn [document record with_trace].
  rewrite element_update. by destruct (decide (c = c')) as [->|].
Qed.

Lemma attributes_removeAttribute c k w c' :
  attributes (document (removeAttribute c k w) c') =
  if decide (c = c') then delete k (attributes (document w c))
  else attributes (document w c').
Proof.
  unfold removeAttribute. cbn [document record with_trace].
  rewrite element_update. by destruct (decide (c = c')) as [->|].
Qed.

Lemma parentNode_setAttribute c k v w c' :
  parentNode (document (setAttribute c k v w) c') = parentNode (document w c').
Proof.
  unfold setAttribute. cbn [document record with_trace].
  rewrite element_update. by destruct (decide (c = c')) as [->|].
Qed.

Lemma parentNode_removeAttribute c k w c' :
  parentNode (document (removeAttribute c k w) c') = parentNode (document w c').
Proof.
  unfold removeAttribute. cbn [document record with_trace].
  rewrite element_update. by destruct (decide (c = c')) as [->|].
Qed.

Lemma listeners_setAttribute c k v w c' :
  listeners (document (setAttribute c k v w) c') = listeners (document w c').
Proof.
  unfold setAttribute. cbn [document record with_trace].
  rewrite element_update. by destruct (decide (c = c')) as [->|].
Qed.

Lemma listeners_removeAttribute c k w c' :
  listeners (document (removeAttribute c k w) c') = listeners (document w c').
Proof.
  unfold removeAttribute. cbn [document record with_trace].
  rewrite element_update. by destruct (decide (c = c')) as [->|].
Qed.

Lemma attributes_addEventListener c ev h w c' :
  attributes (document (addEventListener c ev h w) c') = attributes (document w c').
Proof.
  unfold addEventListener. cbn [document record with_trace].
  rewrite element_update. by destruct (decide (c = c')) as [->|].
Qed.

Lemma parentNode_addEventListener c ev h w c' :
  parentNode (document (addEventListener c ev h w) c') = parentNode (document w c').
Proof.
  unfold addEventListener. cbn [document record with_trace].
  rewrite element_update. by destruct (decide (c = c')) as [->|].
Qed.

Lemma listeners_addEventListener c ev h w c' :
  listeners (document (addEventListener c ev h w) c') =
  if decide (c = c') then
    if bool_decide ((ev, h) ∈ listeners (document w c))
    then listeners (document w c) else listeners (document w c) ++ [(ev, h)]
  else listeners (document w c').
Proof.
  unfold addEventListener. cbn [document record with_trace].
  rewrite element_update. by destruct (decide (c = c')) as [->|].
Qed.

Lemma listeners_removeEventListener c ev h w c' :
  listeners (document (removeEventListener c ev h w) c') =
  if decide (c = c') then
    List.filter (fun l => negb (bool_decide (l = (ev, h)))) (listeners (document w c))
  else listeners (document w c').
Proof.
  unfold removeEventListener. cbn [document record with_trace].
  rewrite element_update. by destruct (decide (c = c')) as [->|].
Qed.

Lemma appInstanceMap_update_element c f w : appInstanceMap (update_element c f w) = appInstanceMap w.
Proof. reflexivity. Qed.

Lemma sandBoxes_update_element c f w : sandBoxes (update_element c f w) = sandBoxes w.
Proof. reflexivity. Qed.

Lemma channels_update_element c f w : channels (update_element c f w) = channels w.
Proof. reflexivity. Qed.

Lemma promises_update_element c f w : promises (update_element c f w) = promises w.
Proof. reflexivity. Qed.

Lemma microtasks_update_element c f w : microtasks (update_element c f w) = microtasks w.
Proof. reflexivity. Qed.

Lemma console_update_element c f w : console (update_element c f w) = console w.
Proof. reflexivity. Qed.

Lemma trace_update_element c f w : trace (update_element c f w) = trace w.
Proof. reflexivity. Qed.

Lemma elem_of_listeners_removeEventListener c ev h w c' l :
  l ∈ listeners (document (removeEventListener c ev h w) c') <->
  l ∈ listeners (document w c') /\ (c' = c -> l <> (ev, h)).
Proof.
  rewrite listeners_removeEventListener.
  destruct (decide (c = c')) as [<-|Hne].
  - rewrite !list_elem_of_In, filter_In, negb_true_iff, bool_decide_eq_false.
    naive_solver.
  - naive_solver.
Qed.

Lemma elem_of_listeners_addEventListener c ev h w c' l :
  l ∈ listeners (document (addEventListener c ev h w) c') <->
  l ∈ listeners (document w c') \/ (c' = c /\ l = (ev, h)).
Proof.
  rewrite listeners_addEventListener.
  destruct (decide (c = c')) as [<-|Hne]; [|naive_solver].
  case_bool_decide.
  - naive_solver.
  - rewrite elem_of_app, list_elem_of_singleton. naive_solver.
Qed.

Create Rewrite HintDb world.

#[global] Hint Rewrite
  appInstanceMap_update_element
  sandBoxes_update_element
  channels_update_element
  promises_update_element
  microtasks_update_element
  console_update_element
  trace_update_element
  appInstanceMap_setAttribute
  sandBoxes_setAttribute
  channels_setAttribute
  promises_setAttribute
  microtasks_setAttribute
  console_setAttribute
  trace_setAttribute
  appInstanceMap_removeAttribute
  sandBoxes_removeAttribute
  channels_removeAttribute
  promises_removeAttribute
  microtasks_removeAttribute
  console_removeAttribute
  trace_removeAttribute
  appInstanceMap_addEventListener
  sandBoxes_addEventListener
  channels_addEventListener
  promises_addEventListener
  microtasks_addEventListener
  console_addEventListener
  trace_addEventListener
  appInstanceMap_removeEventListener
  sandBoxes_removeEventListener
  channels_removeEventListener
  promises_removeEventListener
  microtasks_removeEventListener
  console_removeEventListener
  trace_removeEventListener
  attributes_addEventListener parentNode_addEventListener
  parentNode_setAttribute parentNode_removeAttribute
  listeners_setAttribute listeners_removeAttribute : world.

(** * Every effect of a dispatch or of an executor is a sequence of plain steps *)

Lemma elem_of_List_filter {A : Type} (f : A -> bool) (x : A) (l : list A) :
  x ∈ List.filter f l <-> x ∈ l /\ f x = true.
Proof. rewrite !list_elem_of_In. apply filter_In. Qed.

Section PlainFacts.
  Variable ok : nat -> Prop.
  Variable formatAppName : string -> string.
  Variable getRootContainer : Container -> nat.
  Variable disconnectedCallback : nat -> World -> list AdapterAct.

  Local Abbreviation plain := (plain ok).
  Local Abbreviation plains := (plains ok).
  Local Abbreviation listeners_ok := (listeners_ok ok).

Lemma plains_step w1 w2 w3 : plains w1 w2 -> plain w2 w3 -> plains w1 w3.
  Proof. intros H1 H2. eapply rtc_r; eauto. Qed.

Lemma plains_trans w1 w2 w3 : plains w1 w2 -> plains w2 w3 -> plains w1 w3.
  Proof. apply rtc_trans. Qed.

Lemma plains_refl w : plains w w.
  Proof. apply rtc_refl. Qed.

  (** A DOM call: the element is updated, then the call is recorded. *)
Ltac recorded_update :=
    eapply plains_step; [|by apply plain_record];
    apply rtc_once, plain_element.

Lemma plain_listeners_ok w w' : plain w w' -> listeners_ok w -> listeners_ok w'.
  Proof.
    intros Hstep Hok. destruct Hstep; try exact Hok.
    - intros c' l. unfold update_element; simpl.
      destruct (decide (c = c')) as [->|Hne].
      + rewrite fn_lookup_insert. intros [?|?]%H; [by eapply Hok | done].
      + rewrite fn_lookup_insert_ne by done. apply Hok.
    - unfold resolve, settle. destruct (promises w !! p) as [pr|]; try exact Hok;
        destruct (pstate pr); exact Hok.
  Qed.

Lemma plains_listeners_ok w w' : plains w w' -> listeners_ok w -> listeners_ok w'.
  Proof. induction 1; eauto using plain_listeners_ok. Qed.

  (** *** The DOM operations *)

Lemma setAttribute_plains c k v w : plains w (setAttribute c k v w).
  Proof.
    unfold setAttribute. recorded_update. simpl. auto.
  Qed.

Lemma removeAttribute_plains c k w : plains w (removeAttribute c k w).
  Proof.
    unfold removeAttribute. recorded_update. simpl. auto.
  Qed.

Lemma addEventListener_plains c ev h w :
    ok (target h) -> plains w (addEventListener c ev h w).
  Proof.
    intros Hok. unfold addEventListener. recorded_update.
    simpl. intros l. case_bool_decide; [auto|].
    intros [?|Hl%list_elem_of_singleton]%elem_of_app; [auto|subst; auto].
  Qed.

Lemma removeEventListener_plains c ev h w : plains w (removeEventListener c ev h w).
  Proof.
    unfold removeEventListener. recorded_update.
    simpl. intros l [? _]%elem_of_List_filter. by left.
  Qed.

Lemma resolve_plains p w : ok p -> plains w (resolve p w).
  Proof. intros. apply rtc_once. by apply plain_resolve. Qed.


Lemma run_handler_plains h w : ok (target h) -> plains w (run_handler h w).
  Proof.
    intros Hok. destruct h as [c p|c p]; simpl in *;
      (eapply plains_trans; [|by apply resolve_plains]);
      (eapply plains_trans; apply removeEventListener_plains).
  Qed.

Lemma dispatch_fold_plains c (ls : list (string * Handler)) w :
    Forall (fun l => ok (target l.2)) ls ->
    plains w
      (fold_left
         (fun w l => if bool_decide (l ∈ listeners (document w c))
                     then run_handler l.2 w else w) ls w).
  Proof.
    intros Hls. revert w. induction Hls as [|l ls Hl _ IH]; intros w; simpl.
    - apply plains_refl.
    - eapply plains_trans; [|apply IH].
      case_bool_decide; [by apply run_handler_plains | apply plains_refl].
  Qed.

Lemma dispatchEvent_plains c ev w :
    listeners_ok w -> plains w (dispatchEvent c ev w).
  Proof.
    intros Hok. unfold dispatchEvent.
    eapply plains_trans;
      [apply rtc_once, (plain_record ok (Dispatched c ev) w); done|].
    apply dispatch_fold_plains. apply Forall_forall.
    intros l [Hin _]%filter_In. eapply Hok. apply list_elem_of_In, Hin.
  Qed.

Lemma adapter_act_plains a w : listeners_ok w -> plains w (adapter_act a w).
  Proof.
    intros Hok. destruct a; simpl.
    - by apply dispatchEvent_plains.
    - apply rtc_once, plain_apps.
    - apply rtc_once, plain_apps.
  Qed.

Lemma adapter_acts_plains l w : listeners_ok w -> plains w (adapter_acts l w).
  Proof.
    unfold adapter_acts. revert w. induction l as [|a l IH]; intros w Hok; simpl.
    - apply plains_refl.
    - eapply plains_trans; [by apply adapter_act_plains|].
      apply IH. eapply plains_listeners_ok; [by apply adapter_act_plains | done].
  Qed.

  (** *** The coarse steps *)

  Local Abbreviation step := (step ok).
  Local Abbreviation steps := (steps ok).

Lemma steps_step w1 w2 w3 : steps w1 w2 -> step w2 w3 -> steps w1 w3.
  Proof. intros H1 H2. eapply rtc_r; eauto. Qed.

Lemma steps_trans w1 w2 w3 : steps w1 w2 -> steps w2 w3 -> steps w1 w3.
  Proof. apply rtc_trans. Qed.

Lemma steps_refl w : steps w w.
  Proof. apply rtc_refl. Qed.

Lemma step_plains w w' : listeners_ok w -> step w w' -> plains w w'.
  Proof.
    intros Hok Hs. revert Hok.
    destruct Hs as [m w0|s w0|s w0|l w0|e w0 He|c f w0 Heq|c ev h w0 Hh|p w0 Hp|c ev w0];
      intros Hok.
    - apply rtc_once, plain_apps.
    - apply rtc_once, plain_sandBoxes.
    - apply rtc_once, plain_channels.
    - apply rtc_once, plain_console.
    - apply rtc_once, plain_record. by destruct e.
    - apply rtc_once, plain_element. intros l. rewrite Heq. auto.
    - by apply addEventListener_plains.
    - by apply resolve_plains.
    - by apply dispatchEvent_plains.
  Qed.

Lemma steps_plains w w' : listeners_ok w -> steps w w' -> plains w w'.
  Proof.
    intros Hok Hs. induction Hs as [|w1 w2 w3 H12 _ IH]; [apply plains_refl|].
    pose proof (step_plains _ _ Hok H12) as Hp.
    eapply plains_trans; [exact Hp|]. apply IH.
    by eapply plains_listeners_ok.
  Qed.

Ltac recorded_attrs :=
    eapply steps_step; [|by apply step_record];
    apply rtc_once, step_attrs; done.

Lemma setAttribute_steps c k v w : steps w (setAttribute c k v w).
  Proof. unfold setAttribute. recorded_attrs. Qed.

Lemma removeAttribute_steps c k w : steps w (removeAttribute c k w).
  Proof. unfold removeAttribute. recorded_attrs. Qed.

Lemma adapter_act_steps a w : steps w (adapter_act a w).
  Proof. destruct a; simpl; apply rtc_once; constructor. Qed.

Lemma adapter_acts_steps l w : steps w (adapter_acts l w).
  Proof.
    unfold adapter_acts. revert w. induction l as [|a l IH]; intros w; simpl.
    - apply steps_refl.
    - eapply steps_trans; [apply adapter_act_steps | apply IH].
  Qed.

  (** *** The orchestrator *)

  Local Abbreviation removeChild := (removeChild disconnectedCallback).
  Local Abbreviation app_unmount := (app_unmount getRootContainer).
  Local Abbreviation executor := (executor formatAppName getRootContainer disconnectedCallback).
  Local Abbreviation unmountApp := (unmountApp formatAppName getRootContainer disconnectedCallback).

Lemma removeChild_steps c w : steps w (completion_world (removeChild c w)).
  Proof.
    unfold removeChild.
    destruct (parentNode (document w c)); simpl; [|apply steps_refl].
    eapply steps_trans; [|apply adapter_acts_steps]. recorded_attrs.
  Qed.

Lemma actionsForCompletelyDestroy_steps key w :
    steps w (actionsForCompletelyDestroy key w).
  Proof.
    unfold actionsForCompletelyDestroy.
    eapply steps_step; [|apply step_apps].
    eapply steps_step; [|apply step_channels].
    eapply steps_step; [|apply step_sandBoxes].
    apply rtc_once. by apply step_record.
  Qed.

Lemma app_unmount_steps key d p w :
    ok p -> steps w (app_unmount key d (resolve p) w).
  Proof.
    intros Hp. unfold app_unmount.
    assert (steps w (record (Call_unmount key d) w)) as H1
      by (apply rtc_once; by apply step_record).
    destruct (JsMap.get key (appInstanceMap (record (Call_unmount key d) w)))
      as [app|]; [|eapply steps_step; [exact H1 | by apply step_resolve]].
    set (w2 := with_apps _ _).
    assert (steps w w2) as H2
      by (eapply steps_step; [exact H1 | apply step_apps]).
    set (w3 := if d then _ else _).
    assert (steps w w3) as H3.
    { subst w3. destruct d; [|done].
      eapply steps_trans; [exact H2 | apply actionsForCompletelyDestroy_steps]. }
    eapply steps_step; [|by apply step_resolve].
    destruct (container app); [|done].
    eapply steps_step; [exact H3 | apply step_dispatch].
  Qed.

Lemma detach_destroy_steps c w :
    steps w (completion_world (detach_destroy disconnectedCallback c w)).
  Proof.
    unfold detach_destroy.
    pose proof (setAttribute_steps c "destroy" "true" w) as H1.
    pose proof (removeChild_steps c (setAttribute c "destroy" "true" w)) as H2.
    destruct (removeChild c (setAttribute c "destroy" "true" w)) as [w1|w1];
      simpl in *; [|by eapply steps_trans].
    eapply steps_trans; [exact H1|]. eapply steps_trans; [exact H2|].
    eapply steps_trans; [apply removeAttribute_steps|].
    destruct (getAttribute c "destroy" w), (getAttribute c "destory" w).
    - eapply steps_trans; apply setAttribute_steps.
    - apply setAttribute_steps.
    - apply setAttribute_steps.
    - apply steps_refl.
  Qed.

Lemma detach_clearAliveState_steps c w :
    steps w (completion_world (detach_clearAliveState disconnectedCallback c w)).
  Proof.
    unfold detach_clearAliveState.
    pose proof (removeAttribute_steps c "keep-alive" w) as H1.
    pose proof (removeChild_steps c (removeAttribute c "keep-alive" w)) as H2.
    destruct (removeChild c (removeAttribute c "keep-alive" w)) as [w1|w1];
      simpl in *; [|by eapply steps_trans].
    eapply steps_trans; [exact H1|]. eapply steps_trans; [exact H2|].
    apply setAttribute_steps.
  Qed.

  Local Abbreviation detach := (detach disconnectedCallback).

Lemma detach_steps options c w : steps w (completion_world (detach options c w)).
  Proof.
    unfold detach. destruct (wants_destroy options); [apply detach_destroy_steps|].
    destruct (wants_clearAliveState options && hasAttribute c "keep-alive" w);
      [apply detach_clearAliveState_steps | apply removeChild_steps].
  Qed.

Lemma executor_steps appName options app p w :
    ok p -> steps w (completion_world (executor appName options app p w)).
  Proof.
    intros Hp. unfold executor. destruct app as [a|]; simpl.
    - destruct (bool_decide (getAppState a = UNMOUNT) || isPrefetch a); simpl.
      { eapply steps_step; [|by apply step_resolve].
        destruct (wants_destroy options);
          [apply actionsForCompletelyDestroy_steps | apply steps_refl]. }
      destruct (bool_decide (getKeepAliveState a = KEEP_ALIVE_HIDDEN)); simpl.
      { destruct (wants_destroy options); simpl; [by apply app_unmount_steps|].
        destruct (wants_clearAliveState options); simpl;
          [by apply app_unmount_steps | apply rtc_once; by apply step_resolve]. }
      destruct (container a) as [ct|]; simpl; [|apply steps_refl].
      set (c := getRootContainer ct).
      eapply steps_trans; [|apply (detach_steps options)].
      eapply steps_step; apply rtc_once || idtac; by apply step_listen.
    - eapply steps_step; [apply rtc_once, step_console|]. by apply step_resolve.
  Qed.

  (** [unmountApp] allocates its promise and records the call; what the
      executor does is a sequence of steps; if it throws, the promise is
      rejected. *)
Lemma unmountApp_steps appName options w :
    ok (length (promises w)) ->
    let q := length (promises w) in
    (unmountApp appName options w).1 = q /\
    exists w2,
      steps (record (Call_unmountApp appName q) (newPromise Pending w).2) w2 /\
      ((unmountApp appName options w).2 = w2 \/
       (unmountApp appName options w).2 = reject q w2).
  Proof.
    intros Hq q. unfold unmountApp. simpl.
    set (w1 := record _ _).
    pose proof (executor_steps appName options
                  (JsMap.get (formatAppName appName) (appInstanceMap w))
                  (length (promises w)) w1 Hq) as Hex.
    destruct (executor _ _ _ _ _) as [w2|w2]; simpl in *;
      (split; [done|]); exists w2; auto.
  Qed.

End PlainFacts.

(** * Later states *)

Lemma count_settled_app p l1 l2 :
  count_settled p (l1 ++ l2) = count_settled p l1 + count_settled p l2.
Proof. unfold count_settled. by rewrite List.filter_app, length_app. Qed.

Lemma evolves_refl w : evolves w w.
Proof.
  split_and!; [done|done|]. exists []. split; [by rewrite app_nil_r|].
  intros p. left. done.
Qed.

Lemma evolves_trans w1 w2 w3 : evolves w1 w2 -> evolves w2 w3 -> evolves w1 w3.
Proof.
  intros (Hl1 & Hs1 & d1 & Ht1 & Hc1) (Hl2 & Hs2 & d2 & Ht2 & Hc2).
  split_and!; [lia| |].
  { intros p pr Hp Hne. apply Hs2; [|done]. by apply Hs1. }
  exists (d1 ++ d2). split; [by rewrite Ht2, Ht1, app_assoc|].
  intros p. rewrite count_settled_app.
  destruct (Hc1 p) as [[Hz1 Hp1]|(Ho1 & Hu1 & s1 & Hs1ne & Hst1 & Hin1)];
    destruct (Hc2 p) as [[Hz2 Hp2]|(Ho2 & Hu2 & s2 & Hs2ne & Hst2 & Hin2)].
  - left. split; [lia|auto].
  - right. split_and!; [lia| |].
    + intros pr Hpr. destruct (decide (pstate pr = Pending)) as [|Hne]; [done|].
      apply Hu2. by apply Hs1.
    + exists s2. split_and!; [done|done|]. apply elem_of_app. by right.
  - right. split_and!; [lia|done|].
    exists s1. split_and!; [done| |apply elem_of_app; by left].
    unfold state_of in *. destruct (promises w2 !! p) as [pr|] eqn:Hpr; [|done].
    simpl in Hst1. injection Hst1 as Hst1.
    rewrite (Hs2 p pr Hpr) by congruence. simpl. by f_equal.
  - exfalso. unfold state_of in Hst1.
    destruct (promises w2 !! p) as [pr|] eqn:Hpr; [|done].
    simpl in Hst1. injection Hst1 as Hst1. specialize (Hu2 pr Hpr). congruence.
Qed.

(** A step that leaves promises and trace alone. *)
Lemma evolves_frame w w' :
  promises w' = promises w -> trace w' = trace w -> evolves w w'.
Proof.
  intros Hp Ht. split_and!.
  - by rewrite Hp.
  - intros p pr. by rewrite Hp.
  - exists []. split; [by rewrite Ht, app_nil_r|].
    intros p. left. split; [done|]. unfold state_of. by rewrite Hp.
Qed.

(** Recording anything but the settling of a promise. *)
Lemma evolves_record e w :
  (forall p, settles p e = false) -> evolves w (record e w).
Proof.
  intros He. split_and!; [done|done|].
  exists [e]. split; [done|]. intros p. left.
  unfold count_settled. simpl. rewrite (He p). done.
Qed.

Lemma evolves_newPromise s w : evolves w (newPromise s w).2.
Proof.
  split_and!; simpl.
  - rewrite length_app. lia.
  - intros p pr Hp _. by apply lookup_app_l_Some.
  - exists []. split; [by rewrite app_nil_r|]. intros p. left. split; [done|].
    unfold state_of. simpl. intros Hp.
    destruct (promises w !! p) as [pr|] eqn:Hpr; [|done].
    by rewrite (lookup_app_l_Some _ _ _ _ Hpr).
Qed.

Lemma evolves_settle p s w : evolves w (settle p s w).
Proof.
  destruct (decide (s = Pending)) as [->|Hs]; [apply evolves_refl|].
  assert (settle p s w =
          match promises w !! p with
          | Some pr =>
              match pstate pr with
              | Pending =>
                  record (Settled p s)
                    (with_microtasks
                       (microtasks w ++
                        map (fun r => PromiseReactionJob r s) (reactions pr))
                       (with_promises
                          (<[p := {| pstate := s; reactions := [] |}]> (promises w)) w))
              | _ => w
              end
          | None => w
          end) as ->.
  { unfold settle. by destruct s, (promises w !! p). }
  destruct (promises w !! p) as [pr|] eqn:Hpr; [|apply evolves_refl].
  destruct (pstate pr) eqn:Hst; try apply evolves_refl.
  pose proof (lookup_lt_Some _ _ _ Hpr) as Hlt.
  split_and!; simpl.
  - by rewrite length_insert.
  - intros p' pr' Hp' Hne. destruct (decide (p = p')) as [->|Hpp].
    + congruence.
    + by rewrite list_lookup_insert_ne.
  - exists [Settled p s]. split; [done|]. intros p'.
    unfold count_settled, state_of, unsettled. simpl.
    destruct (decide (p = p')) as [->|Hpp].
    + right. rewrite bool_decide_eq_true_2 by done. split_and!; [done| |].
      * intros pr'. rewrite Hpr. by intros [= <-].
      * exists s. rewrite list_lookup_insert_eq by done.
        split_and!; [done|done|]. apply list_elem_of_singleton. done.
    + left. rewrite bool_decide_eq_false_2 by done. split; [done|].
      by rewrite list_lookup_insert_ne.
Qed.

Lemma evolves_register p r w : evolves w (register p r w).
Proof.
  unfold register.
  destruct (promises w !! p) as [pr|] eqn:Hpr; [|apply evolves_refl].
  destruct (pstate pr) eqn:Hst; try (by apply evolves_frame).
  pose proof (lookup_lt_Some _ _ _ Hpr) as Hlt.
  split_and!; simpl.
  - by rewrite length_insert.
  - intros p' pr' Hp' Hne. destruct (decide (p = p')) as [->|Hpp].
    + congruence.
    + by rewrite list_lookup_insert_ne.
  - exists []. split; [by rewrite app_nil_r|]. intros p'. left. split; [done|].
    unfold state_of. simpl. destruct (decide (p = p')) as [->|Hpp].
    + by rewrite list_lookup_insert_eq.
    + by rewrite list_lookup_insert_ne.
Qed.

Lemma plain_evolves ok w w' : plain ok w w' -> evolves w w'.
Proof.
  intros []; try (by apply evolves_frame).
  - apply evolves_record. intros p. by destruct e.
  - apply evolves_settle.
Qed.

Lemma plains_evolves ok w w' : plains ok w w' -> evolves w w'.
Proof.
  induction 1 as [|w1 w2 w3 H12 _ IH]; [apply evolves_refl|].
  eapply evolves_trans; [by eapply plain_evolves | done].
Qed.

Section Evolution.
  Variable formatAppName : string -> string.
  Variable getRootContainer : Container -> nat.
  Variable disconnectedCallback : nat -> World -> list AdapterAct.

  Local Abbreviation unmountApp := (unmountApp formatAppName getRootContainer disconnectedCallback).
  Local Abbreviation run_job := (run_job formatAppName getRootContainer disconnectedCallback).
  Local Abbreviation env_act := (env_act formatAppName getRootContainer disconnectedCallback).
  Local Abbreviation run := (run formatAppName getRootContainer disconnectedCallback).

Lemma all_listeners_ok w : listeners_ok (fun _ => True) w.
  Proof. by intros c l _. Qed.

Lemma dispatchEvent_evolves c ev w : evolves w (dispatchEvent c ev w).
  Proof.
    eapply plains_evolves, dispatchEvent_plains, all_listeners_ok.
  Qed.

Lemma steps_evolves ok w w' : steps ok w w' -> evolves w w'.
  Proof.
    intros Hs. induction Hs as [|w1 w2 w3 H12 _ IH]; [apply evolves_refl|].
    eapply evolves_trans; [|exact IH]. clear IH.
    destruct H12; try (by apply evolves_frame).
    - apply evolves_record. intros p. by destruct e.
    - unfold addEventListener.
      eapply evolves_trans; [|by apply evolves_record]. by apply evolves_frame.
    - apply evolves_settle.
    - apply dispatchEvent_evolves.
  Qed.

Lemma unmountApp_evolves appName options w :
    evolves w (unmountApp appName options w).2.
  Proof.
    destruct (unmountApp_steps (fun _ => True) formatAppName getRootContainer
                disconnectedCallback appName options w I)
      as (_ & w2 & Hst & Hw2).
    eapply evolves_trans; [apply (evolves_newPromise Pending)|].
    eapply evolves_trans;
      [apply (evolves_record (Call_unmountApp appName (length (promises w)))); done|].
    eapply evolves_trans; [eapply steps_evolves, Hst|].
    destruct Hw2 as [->| ->]; [apply evolves_refl | apply evolves_settle].
  Qed.

Lemma run_job_evolves j w : evolves w (run_job j w).
  Proof.
    destruct j as [[next options d|d] s|d q]; simpl.
    - destruct s; try apply evolves_settle.
      pose proof (unmountApp_evolves next options w) as H.
      destruct (unmountApp next options w) as [q w1]. simpl in *.
      eapply evolves_trans; [exact H | by apply evolves_frame].
    - apply evolves_settle.
    - apply evolves_register.
  Qed.

Lemma env_act_evolves e w : evolves w (env_act e w).
  Proof.
    destruct e as [[c ev|k a|k]|]; simpl.
    - apply dispatchEvent_evolves.
    - by apply evolves_frame.
    - by apply evolves_frame.
    - unfold run_microtask. destruct (microtasks w) as [|j q]; [apply evolves_refl|].
      eapply evolves_trans; [|apply run_job_evolves]. by apply evolves_frame.
  Qed.

Lemma run_evolves schedule w : evolves w (run schedule w).
  Proof.
    unfold run. revert w. induction schedule as [|e l IH]; intros w; simpl.
    - apply evolves_refl.
    - eapply evolves_trans; [apply env_act_evolves | apply IH].
  Qed.

End Evolution.

(** * What a dispatch leaves alone *)

Lemma reacts_refl b w : reacts b w w.
Proof.
  split_and!; try done. exists []. split; [by rewrite app_nil_r | constructor].
Qed.

Lemma reacts_trans b w1 w2 w3 : reacts b w1 w2 -> reacts b w2 w3 -> reacts b w1 w3.
Proof.
  intros (Ha1 & Hs1 & Hc1 & Hl1 & Hd1 & n1 & Ht1 & Hn1)
         (Ha2 & Hs2 & Hc2 & Hl2 & Hd2 & n2 & Ht2 & Hn2).
  split_and!; try congruence.
  - intros Hb. rewrite Ha2, Ha1; done.
  - intros c. destruct (Hd1 c), (Hd2 c). split; congruence.
  - exists (n1 ++ n2). split; [by rewrite Ht2, Ht1, app_assoc|].
    by apply Forall_app.
Qed.

Lemma reacts_weaken w w' : reacts true w w' -> reacts false w w'.
Proof. intros (_ & H). split; [done | exact H]. Qed.

Lemma reacts_record e w : is_dispatch_event e = true -> reacts true w (record e w).
Proof.
  intros He. split_and!; try done. exists [e]. split; [done|].
  by constructor.
Qed.

Lemma reacts_settle p s w : reacts true w (settle p s w).
Proof.
  unfold settle. destruct s, (promises w !! p) as [pr|]; try apply reacts_refl;
    destruct (pstate pr); try apply reacts_refl;
    (split_and!; try done; eexists [_]; split; [done|]; by constructor).
Qed.

Lemma reacts_removeEventListener c ev h w :
  reacts true w (removeEventListener c ev h w).
Proof.
  unfold removeEventListener. split_and!; try done.
  - intros c'. simpl. destruct (decide (c = c')) as [->|Hne].
    + by rewrite fn_lookup_insert.
    + by rewrite fn_lookup_insert_ne.
  - eexists [_]. split; [done|]. by constructor.
Qed.

Lemma reacts_run_handler h w : reacts true w (run_handler h w).
Proof.
  destruct h; simpl;
    (eapply reacts_trans; [|apply reacts_settle]);
    (eapply reacts_trans; apply reacts_removeEventListener).
Qed.

Lemma reacts_dispatch_fold c ls w :
  reacts true w (fold_left (call_listener c) ls w).
Proof.
  revert w. induction ls as [|l ls IH]; intros w; simpl; [apply reacts_refl|].
  eapply reacts_trans; [|apply IH]. unfold call_listener.
  case_bool_decide; [apply reacts_run_handler | apply reacts_refl].
Qed.

Lemma reacts_dispatchEvent c ev w : reacts true w (dispatchEvent c ev w).
Proof.
  unfold dispatchEvent. eapply reacts_trans; [|apply reacts_dispatch_fold].
  by apply reacts_record.
Qed.

Lemma reacts_adapter_act a w : reacts false w (adapter_act a w).
Proof.
  destruct a; simpl.
  - apply reacts_weaken, reacts_dispatchEvent.
  - split_and!; try done. exists []. by rewrite app_nil_r.
  - split_and!; try done. exists []. by rewrite app_nil_r.
Qed.

Lemma reacts_adapter_acts l w : reacts false w (adapter_acts l w).
Proof.
  unfold adapter_acts. revert w. induction l as [|a l IH]; intros w; simpl.
  - apply reacts_refl.
  - eapply reacts_trans; [apply reacts_adapter_act | apply IH].
Qed.

(** * A dispatch and an executor never reject *)

Lemma alive_frame p w w' : promises w' = promises w -> alive p w -> alive p w'.
Proof. unfold alive, state_of. by intros ->. Qed.

Lemma alive_resolve p q w : alive p w -> alive p (resolve q w).
Proof.
  intros Hp. unfold resolve, settle.
  destruct (promises w !! q) as [pr|] eqn:Hq; [|done].
  destruct (pstate pr) eqn:Hst; try done.
  unfold alive, state_of in *. simpl.
  destruct (decide (q = p)) as [->|Hne].
  - right. rewrite list_lookup_insert_eq; [done|]. by eapply lookup_lt_Some.
  - by rewrite list_lookup_insert_ne.
Qed.

Lemma resolve_alive p w : alive p w -> state_of p (resolve p w) = Some Fulfilled.
Proof.
  unfold alive, state_of, resolve, settle.
  destruct (promises w !! p) as [pr|] eqn:Hp; simpl; [|by intros [|]].
  destruct (pstate pr) eqn:Hst; intros [[=]|[=]].
  - simpl. rewrite list_lookup_insert_eq; [done|]. by eapply lookup_lt_Some.
  - by rewrite Hp; simpl; rewrite Hst.
Qed.

Lemma plain_alive ok p w w' : plain ok w w' -> alive p w -> alive p w'.
Proof. intros []; try (by apply alive_frame). apply alive_resolve. Qed.

Lemma plains_alive ok p w w' : plains ok w w' -> alive p w -> alive p w'.
Proof. induction 1; eauto using plain_alive. Qed.

Lemma dispatchEvent_alive p c ev w : alive p w -> alive p (dispatchEvent c ev w).
Proof.
  apply (plains_alive (fun _ => True)), dispatchEvent_plains. by intros ? ? _.
Qed.

Lemma steps_alive ok p w w' : steps ok w w' -> alive p w -> alive p w'.
Proof.
  induction 1 as [|w1 w2 w3 H12 _ IH]; [done|]. intros Hp. apply IH. clear IH.
  destruct H12; try (by eapply alive_frame).
  - by apply alive_resolve.
  - by apply dispatchEvent_alive.
Qed.

(** * [unmountApp], branch by branch *)

Lemma settle_pending p s w pr :
  s <> Pending -> promises w !! p = Some pr -> pstate pr = Pending ->
  settle p s w =
  record (Settled p s)
    (with_microtasks
       (microtasks w ++ map (fun r => PromiseReactionJob r s) (reactions pr))
       (with_promises (<[p := {| pstate := s; reactions := [] |}]> (promises w)) w)).
Proof. intros Hs Hp Hst. unfold settle. rewrite Hp, Hst. by destruct s. Qed.

Lemma settle_settled p s w pr :
  promises w !! p = Some pr -> pstate pr <> Pending -> settle p s w = w.
Proof.
  intros Hp Hst. unfold settle. rewrite Hp.
  destruct s; [done| |]; by destruct (pstate pr).
Qed.

Lemma settle_absent p s w : promises w !! p = None -> settle p s w = w.
Proof. intros Hp. unfold settle. rewrite Hp. by destruct s. Qed.

(** A later state keeps the outcome of a settled promise. *)
Lemma evolves_state_of w w' p s :
  evolves w w' -> state_of p w = Some s -> s <> Pending -> state_of p w' = Some s.
Proof.
  intros (_ & Hs & _) Hp Hne. unfold state_of in *.
  destruct (promises w !! p) as [pr|] eqn:Hpr; [|done].
  simpl in Hp. injection Hp as <-. by rewrite (Hs p pr Hpr Hne).
Qed.

Section Unmount.
  Variable formatAppName : string -> string.
  Variable getRootContainer : Container -> nat.
  Variable disconnectedCallback : nat -> World -> list AdapterAct.

  Local Abbreviation unmountApp := (unmountApp formatAppName getRootContainer disconnectedCallback).
  Local Abbreviation executor := (executor formatAppName getRootContainer disconnectedCallback).
  Local Abbreviation run := (run formatAppName getRootContainer disconnectedCallback).

Lemma unmountApp_unfold appName options w :
    unmountApp appName options w =
    let p := length (promises w) in
    match executor appName options
            (JsMap.get (formatAppName appName) (appInstanceMap w)) p
            (entered appName w) with
    | Normal w2 => (p, w2)
    | Throw w2 => (p, reject p w2)
    end.
  Proof. reflexivity. Qed.

Lemma entered_fresh appName w :
    promises (entered appName w) !! length (promises w) =
    Some {| pstate := Pending; reactions := [] |}.
  Proof. simpl. by apply list_lookup_middle. Qed.

  (** C6.  For a name that, once formatted, is not in the registry,
      [unmountApp] returns a promise that is fulfilled at once and stays
      so whatever happens later; it logs one warning and changes nothing
      else: registry, sandboxes, channels, elements, older promises and
      the microtask queue are as before. *)
Theorem unmountApp_unknown_name (appName : string)
      (options : option unmountAppParams) (w : World) :
    JsMap.get (formatAppName appName) (appInstanceMap w) = None ->
    let p := (unmountApp appName options w).1 in
    let w' := (unmountApp appName options w).2 in
    p = length (promises w) /\
    state_of p w' = Some Fulfilled /\
    (forall schedule, state_of p (run schedule w') = Some Fulfilled) /\
    console w' = console w ++ [Warn ("app " +:+ appName +:+ " does not exist")] /\
    appInstanceMap w' = appInstanceMap w /\
    sandBoxes w' = sandBoxes w /\
    channels w' = channels w /\
    document w' = document w /\
    microtasks w' = microtasks w /\
    promises w' = promises w ++ [{| pstate := Fulfilled; reactions := [] |}] /\
    trace w' = trace w ++ [Call_unmountApp appName p; Settled p Fulfilled].
  Proof.
    intros Hget. unfold unmountApp, executor. rewrite Hget. simpl.
    set (w1 := logWarn _ _).
    assert (promises w1 !! length (promises w) =
            Some {| pstate := Pending; reactions := [] |}) as Hp
      by (simpl; by apply list_lookup_middle).
    unfold resolve. rewrite (settle_pending _ Fulfilled _ _ ltac:(done) Hp eq_refl).
    simpl. rewrite app_nil_r.
    assert (<[length (promises w):={| pstate := Fulfilled; reactions := [] |}]>
              (promises w ++ [{| pstate := Pending; reactions := [] |}]) =
            promises w ++ [{| pstate := Fulfilled; reactions := [] |}]) as Hins.
    { rewrite <- (Nat.add_0_r (length (promises w))) at 1. by rewrite insert_app_r. }
    rewrite Hins.
    assert (forall w2, promises w2 = promises w ++ [{| pstate := Fulfilled; reactions := [] |}] ->
                       state_of (length (promises w)) w2 = Some Fulfilled) as Hst.
    { intros w2 Hw2. unfold state_of. rewrite Hw2.
      by rewrite list_lookup_middle. }
    split_and!; try done.
    - by apply Hst.
    - intros schedule. eapply evolves_state_of; [apply run_evolves| |done].
      by apply Hst.
    - by rewrite <- app_assoc.
  Qed.

  (** The way into the first branch. *)
Lemma first_branch a :
    getAppState a = UNMOUNT \/ isPrefetch a = true ->
    bool_decide (getAppState a = UNMOUNT) || isPrefetch a = true.
  Proof.
    intros [->| ->]; [done|]. by rewrite orb_true_r.
  Qed.

Lemma later_branch a :
    getAppState a <> UNMOUNT -> isPrefetch a = false ->
    bool_decide (getAppState a = UNMOUNT) || isPrefetch a = false.
  Proof. intros Hs ->. by rewrite bool_decide_eq_false_2. Qed.

Lemma resolve_entered appName w :
    resolve (length (promises w)) (entered appName w) =
    record (Settled (length (promises w)) Fulfilled)
      (with_promises (promises w ++ [{| pstate := Fulfilled; reactions := [] |}])
         (entered appName w)).
  Proof.
    unfold resolve.
    rewrite (settle_pending _ Fulfilled _ _ ltac:(done) (entered_fresh appName w) eq_refl).
    simpl. rewrite app_nil_r. f_equal.
    unfold with_microtasks, with_promises; simpl. f_equal.
    rewrite <- (Nat.add_0_r (length (promises w))) at 1. by rewrite insert_app_r.
  Qed.

  (** C5.  An application that is already UNMOUNT, or is a prefetch:
      with [destroy] the call runs [actionsForCompletelyDestroy], which
      releases the sandbox, the channel and the registry entry, and then
      resolves; without it the call only resolves: registry, sandboxes,
      channels, elements, console and queue are as before. *)
Theorem unmountApp_unmounted_or_prefetch (appName : string)
      (options : option unmountAppParams) (w : World) (app : AppInterface) :
    JsMap.wf (appInstanceMap w) ->
    JsMap.get (formatAppName appName) (appInstanceMap w) = Some app ->
    getAppState app = UNMOUNT \/ isPrefetch app = true ->
    let key := formatAppName appName in
    let p := (unmountApp appName options w).1 in
    let w' := (unmountApp appName options w).2 in
    state_of p w' = Some Fulfilled /\
    document w' = document w /\
    console w' = console w /\
    microtasks w' = microtasks w /\
    (wants_destroy options = true ->
       trace w' = trace w ++ [Call_unmountApp appName p;
                              Call_actionsForCompletelyDestroy key;
                              Settled p Fulfilled] /\
       JsMap.get key (appInstanceMap w') = None /\
       (key ∉ getAllApps w') /\
       (key ∉ sandBoxes w') /\
       (key ∉ channels w') /\
       (forall k, k <> key ->
          JsMap.get k (appInstanceMap w') = JsMap.get k (appInstanceMap w) /\
          (k ∈ sandBoxes w' <-> k ∈ sandBoxes w) /\
          (k ∈ channels w' <-> k ∈ channels w))) /\
    (wants_destroy options = false ->
       trace w' = trace w ++ [Call_unmountApp appName p; Settled p Fulfilled] /\
       appInstanceMap w' = appInstanceMap w /\
       sandBoxes w' = sandBoxes w /\
       channels w' = channels w).
  Proof.
    intros Hwf Hget Hfirst. rewrite unmountApp_unfold. unfold executor.
    rewrite Hget. cbn zeta. rewrite (first_branch _ Hfirst).
    destruct (wants_destroy options) eqn:Hd; cbn [fst snd].
    - set (w1 := actionsForCompletelyDestroy _ _).
      assert (promises w1 !! length (promises w) =
              Some {| pstate := Pending; reactions := [] |}) as Hp
        by apply entered_fresh.
      unfold resolve.
      rewrite (settle_pending _ Fulfilled _ _ ltac:(done) Hp eq_refl). simpl.
      split_and!; try done.
      + unfold state_of. simpl.
        rewrite list_lookup_insert_eq; [done|]. rewrite length_app. simpl. lia.
      + by rewrite app_nil_r.
      + intros _. split_and!.
        * by rewrite <- !app_assoc.
        * by apply JsMapFacts.get_delete_eq.
        * unfold getAllApps. simpl. rewrite JsMapFacts.elem_of_keys_get.
          rewrite JsMapFacts.get_delete_eq by done. by intros [? ?].
        * set_solver.
        * set_solver.
        * intros k Hk. split_and!; [|set_solver|set_solver].
          by apply JsMapFacts.get_delete_ne.
    - rewrite resolve_entered. simpl. split_and!; try done.
      + unfold state_of. simpl. by rewrite list_lookup_middle.
      + intros _. split_and!; try done. by rewrite <- app_assoc.
  Qed.

  (** The application as [app.unmount] leaves it. *)
Lemma app_unmount_result key d p w app :
    JsMap.get key (appInstanceMap w) = Some app ->
    alive p w ->
    let app' := {| getAppState := UNMOUNT; getKeepAliveState := NONE;
                   isPrefetch := isPrefetch app; container := None |} in
    let w' := app_unmount getRootContainer key d (resolve p) w in
    state_of p w' = Some Fulfilled /\
    appInstanceMap w' =
      (if d then JsMap.delete key (JsMap.set key app' (appInstanceMap w))
       else JsMap.set key app' (appInstanceMap w)) /\
    sandBoxes w' = (if d then sandBoxes w ∖ {[key]} else sandBoxes w) /\
    channels w' = (if d then channels w ∖ {[key]} else channels w) /\
    console w' = console w /\
    (forall c, attributes (document w' c) = attributes (document w c) /\
               parentNode (document w' c) = parentNode (document w c)) /\
    exists new,
      trace w' = trace w ++ Call_unmount key d ::
                   (if d then [Call_actionsForCompletelyDestroy key] else []) ++ new /\
      Forall (fun e => is_dispatch_event e = true) new.
  Proof.
    intros Hget Hp app' w'. subst w'. unfold app_unmount.
    change (appInstanceMap (record (Call_unmount key d) w)) with (appInstanceMap w).
    rewrite Hget. fold app'.
    set (w2 := with_apps _ _).
    set (w3 := if d then actionsForCompletelyDestroy key w2 else w2).
    set (w4 := match container app with
               | Some ct => dispatchEvent (getRootContainer ct) "unmount" w3
               | None => w3
               end).
    assert (reacts true w3 (resolve p w4)) as Hr.
    { eapply reacts_trans; [|apply reacts_settle]. subst w4.
      destruct (container app); [apply reacts_dispatchEvent | apply reacts_refl]. }
    assert (alive p w3) as Hp3.
    { subst w3 w2. destruct d; by eapply alive_frame. }
    assert (alive p w4) as Hp4.
    { subst w4. destruct (container app); [by apply dispatchEvent_alive | done]. }
    destruct Hr as (Ha & Hs & Hc & Hl & Hd & new & Ht & Hn).
    split_and!.
    - by apply resolve_alive.
    - rewrite Ha by done. subst w3 w2. by destruct d.
    - rewrite Hs. subst w3 w2. by destruct d.
    - rewrite Hc. subst w3 w2. by destruct d.
    - rewrite Hl. subst w3 w2. by destruct d.
    - intros c. destruct (Hd c) as [-> ->]. subst w3 w2. by destruct d.
    - exists new. split; [|done]. rewrite Ht. subst w3 w2.
      destruct d; simpl; by rewrite <- !app_assoc.
  Qed.

Lemma alive_entered appName w : alive (length (promises w)) (entered appName w).
  Proof. left. unfold state_of. by rewrite entered_fresh. Qed.

  (** C1.  An application that is KEEP_ALIVE_HIDDEN.  With [destroy],
      whatever [clearAliveState] says, sandbox, channel and registry
      entry of the application are released and those of the others
      are kept.  With [clearAliveState] alone, an application that
      comes to the branch of the hidden applications, being neither
      UNMOUNT nor a prefetch, has its keep-alive state cleared by
      [app.unmount(false, resolve)] and keeps registry entry, sandbox
      and channel.  With neither option the call changes nothing.  The
      promise is fulfilled in all three cases. *)
Theorem unmountApp_keep_alive_hidden (appName : string)
      (options : option unmountAppParams) (w : World) (app : AppInterface) :
    JsMap.wf (appInstanceMap w) ->
    JsMap.get (formatAppName appName) (appInstanceMap w) = Some app ->
    getKeepAliveState app = KEEP_ALIVE_HIDDEN ->
    let key := formatAppName appName in
    let p := (unmountApp appName options w).1 in
    let w' := (unmountApp appName options w).2 in
    state_of p w' = Some Fulfilled /\
    (wants_destroy options = true ->
       JsMap.get key (appInstanceMap w') = None /\
       (key ∉ getAllApps w') /\
       (key ∉ sandBoxes w') /\
       (key ∉ channels w') /\
       (forall k, k <> key ->
          JsMap.get k (appInstanceMap w') = JsMap.get k (appInstanceMap w) /\
          (k ∈ sandBoxes w' <-> k ∈ sandBoxes w) /\
          (k ∈ channels w' <-> k ∈ channels w)) /\
       (exists new,
          trace w' = trace w ++ Call_unmountApp appName p :: new /\
          Call_actionsForCompletelyDestroy key ∈ new) /\
       (getAppState app <> UNMOUNT -> isPrefetch app = false ->
        exists new,
          trace w' = trace w ++ [Call_unmountApp appName p; Call_unmount key true;
                                 Call_actionsForCompletelyDestroy key] ++ new /\
          Forall (fun e => is_dispatch_event e = true) new)) /\
    (wants_destroy options = false -> wants_clearAliveState options = true ->
     getAppState app <> UNMOUNT -> isPrefetch app = false ->
       (exists app',
          JsMap.get key (appInstanceMap w') = Some app' /\
          getKeepAliveState app' = NONE /\
          getAppState app' = UNMOUNT /\
          container app' = None) /\
       getAllApps w' = getAllApps w /\
       sandBoxes w' = sandBoxes w /\
       channels w' = channels w /\
       exists new,
         trace w' = trace w ++ [Call_unmountApp appName p; Call_unmount key false]
                      ++ new /\
         Forall (fun e => is_dispatch_event e = true) new) /\
    (wants_destroy options = false -> wants_clearAliveState options = false ->
       trace w' = trace w ++ [Call_unmountApp appName p; Settled p Fulfilled] /\
       appInstanceMap w' = appInstanceMap w /\
       sandBoxes w' = sandBoxes w /\
       channels w' = channels w /\
       document w' = document w /\
       console w' = console w /\
       microtasks w' = microtasks w).
  Proof.
    intros Hwf Hget Hka. rewrite unmountApp_unfold. unfold executor.
    rewrite Hget. cbn zeta.
    destruct (bool_decide (getAppState app = UNMOUNT) || isPrefetch app) eqn:Hfirst.
    - (* the application is UNMOUNT or a prefetch as well *)
      assert (getAppState app <> UNMOUNT -> isPrefetch app = false -> False) as Hno.
      { intros Hst Hpf. by rewrite (later_branch _ Hst Hpf) in Hfirst. }
      destruct (wants_destroy options) eqn:Hd; cbn [fst snd].
      + set (w1 := actionsForCompletelyDestroy _ _).
        assert (promises w1 !! length (promises w) =
                Some {| pstate := Pending; reactions := [] |}) as Hp
          by apply entered_fresh.
        unfold resolve.
        rewrite (settle_pending _ Fulfilled _ _ ltac:(done) Hp eq_refl). simpl.
        split_and!; try done.
        * unfold state_of. simpl.
          rewrite list_lookup_insert_eq; [done|]. rewrite length_app. simpl. lia.
        * intros _. split_and!.
          -- by apply JsMapFacts.get_delete_eq.
          -- unfold getAllApps. simpl. rewrite JsMapFacts.elem_of_keys_get.
             rewrite JsMapFacts.get_delete_eq by done. by intros [? ?].
          -- set_solver.
          -- set_solver.
          -- intros k Hk. split_and!; [|set_solver|set_solver].
             by apply JsMapFacts.get_delete_ne.
          -- eexists. rewrite <- !app_assoc. split; [reflexivity|].
             apply list_elem_of_here.
          -- intros Hst Hpf. by destruct (Hno Hst Hpf).
      + rewrite resolve_entered. simpl. split_and!; try done.
        * unfold state_of. simpl. by rewrite list_lookup_middle.
        * intros _ _ Hst Hpf. by destruct (Hno Hst Hpf).
        * intros _ _. split_and!; try done. by rewrite <- app_assoc.
    - (* the branch of the hidden applications *)
      rewrite (bool_decide_eq_true_2 _ Hka).
      assert (JsMap.get (formatAppName appName) (appInstanceMap (entered appName w))
              = Some app) as Hget' by done.
      destruct (wants_destroy options) eqn:Hd; cbn [fst snd].
      + destruct (app_unmount_result (formatAppName appName) true
                    (length (promises w)) (entered appName w) app Hget'
                    (alive_entered appName w))
          as (Hp & Ha & Hs & Hc & _ & _ & new & Ht & Hn).
        split_and!; try done. intros _. rewrite Ha, Hs, Hc.
        assert (JsMap.wf (JsMap.set (formatAppName appName)
                  {| getAppState := UNMOUNT; getKeepAliveState := NONE;
                     isPrefetch := isPrefetch app; container := None |}
                  (appInstanceMap (entered appName w)))) as Hwf'
          by by apply JsMapFacts.wf_set.
        assert (trace (app_unmount getRootContainer (formatAppName appName) true
                         (resolve (length (promises w))) (entered appName w)) =
                trace w ++ [Call_unmountApp appName (length (promises w));
                            Call_unmount (formatAppName appName) true;
                            Call_actionsForCompletelyDestroy (formatAppName appName)]
                  ++ new) as Ht'.
        { rewrite Ht. unfold entered. simpl. by rewrite <- !app_assoc. }
        split_and!.
        * by apply JsMapFacts.get_delete_eq.
        * unfold getAllApps. rewrite Ha. rewrite JsMapFacts.elem_of_keys_get.
          rewrite JsMapFacts.get_delete_eq by done. by intros [? ?].
        * set_solver.
        * set_solver.
        * intros k Hk. split_and!; [|set_solver|set_solver].
          rewrite JsMapFacts.get_delete_ne by done.
          by rewrite JsMapFacts.get_set_ne by done.
        * eexists. split; [exact Ht'|].
          apply list_elem_of_further, list_elem_of_here.
        * intros _ _. by exists new.
      + destruct (wants_clearAliveState options) eqn:Hcl; cbn [fst snd].
        * destruct (app_unmount_result (formatAppName appName) false
                      (length (promises w)) (entered appName w) app Hget'
                      (alive_entered appName w))
            as (Hp & Ha & Hs & Hc & _ & _ & new & Ht & Hn).
          split_and!; try done. intros _ _ _ _. split_and!.
          -- eexists. rewrite Ha. split; [apply JsMapFacts.get_set_eq | done].
          -- unfold getAllApps. rewrite Ha. rewrite JsMapFacts.keys_set.
             rewrite decide_True; [done|].
             apply JsMapFacts.elem_of_keys_get. by eexists.
          -- by rewrite Hs.
          -- by rewrite Hc.
          -- exists new. split; [|done]. rewrite Ht. unfold entered. simpl.
             by rewrite <- !app_assoc.
        * rewrite resolve_entered. split_and!; try done.
          -- unfold state_of. simpl. by rewrite list_lookup_middle.
          -- intros _ _. split_and!; try done. unfold entered. simpl.
             by rewrite <- app_assoc.
  Qed.

  (** *** The visible branch *)

  Local Abbreviation detach := (detach disconnectedCallback).
  Local Abbreviation detach_destroy := (detach_destroy disconnectedCallback).
  Local Abbreviation removeChild := (removeChild disconnectedCallback).

Lemma unmountApp_visible appName options w app ct :
    JsMap.get (formatAppName appName) (appInstanceMap w) = Some app ->
    getAppState app <> UNMOUNT ->
    isPrefetch app = false ->
    getKeepAliveState app <> KEEP_ALIVE_HIDDEN ->
    container app = Some ct ->
    unmountApp appName options w =
    let p := length (promises w) in
    match detach options (getRootContainer ct)
            (listening appName (getRootContainer ct) w) with
    | Normal w2 => (p, w2)
    | Throw w2 => (p, reject p w2)
    end.
  Proof.
    intros Hget Hst Hpf Hka Hct. rewrite unmountApp_unfold. unfold executor.
    rewrite Hget. cbn zeta. rewrite (later_branch _ Hst Hpf).
    rewrite (bool_decide_eq_false_2 _ Hka), Hct. done.
  Qed.

Lemma listening_frame appName c w :
    let w2 := listening appName c w in
    trace w2 = trace w ++
      [Call_unmountApp appName (length (promises w));
       Call_addEventListener c "unmount" (unmountHandler c (length (promises w)));
       Call_addEventListener c "afterhidden" (afterhiddenHandler c (length (promises w)))] /\
    promises w2 = promises w ++ [{| pstate := Pending; reactions := [] |}] /\
    appInstanceMap w2 = appInstanceMap w /\
    sandBoxes w2 = sandBoxes w /\
    channels w2 = channels w /\
    console w2 = console w /\
    microtasks w2 = microtasks w /\
    (forall c', attributes (document w2 c') = attributes (document w c') /\
                parentNode (document w2 c') = parentNode (document w c')).
  Proof.
    cbn zeta. unfold listening. autorewrite with world. unfold entered.
    split_and!; try reflexivity.
    - simpl. by rewrite <- !app_assoc.
    - intros c'. by autorewrite with world.
  Qed.

  (** The destroy branch on a container that has a parent. *)
Lemma detach_destroy_result c w par :
    parentNode (document w c) = Some par ->
    exists w_mid new w',
      detach_destroy c w = Normal w' /\
      attributes (document w_mid c) = <["destroy" := "true"]> (attributes (document w c)) /\
      parentNode (document w_mid c) = None /\
      trace w_mid = trace w ++ [Call_setAttribute c "destroy" "true"; Call_removeChild c] /\
      Forall (fun e => is_dispatch_event e = true) new /\
      trace w' = trace w_mid ++ new ++
                 Call_removeAttribute c "destroy" ::
                 restore_calls c (attributes (document w c)) /\
      promises w' = promises (adapter_acts (disconnectedCallback c w_mid) w_mid) /\
      (forall c', attributes (document w' c') = attributes (document w c')) /\
      (forall c', parentNode (document w' c') =
                  if decide (c = c') then None else parentNode (document w c')) /\
      sandBoxes w' = sandBoxes w /\
      channels w' = channels w /\
      console w' = console w.
  Proof.
    intros Hpar. unfold detach_destroy, removeChild.
    set (w1 := setAttribute c "destroy" "true" w).
    assert (parentNode (document w1 c) = Some par) as Hpar1
      by (subst w1; by rewrite parentNode_setAttribute).
    rewrite Hpar1. cbn [bind].
    set (w_mid := record (Call_removeChild c) _).
    set (w3 := adapter_acts _ w_mid).
    destruct (reacts_adapter_acts (disconnectedCallback c w_mid) w_mid)
      as (_ & Hs & Hc & Hl & Hd & new & Ht & Hn). fold w3 in Hs, Hc, Hl, Hd, Ht.
    set (m := attributes (document w c)).
    assert (forall c', attributes (document w_mid c') =
              if decide (c = c') then <["destroy" := "true"]> m
              else attributes (document w c')) as Hattr_mid.
    { intros c'. subst w_mid. cbn [document record with_trace].
      rewrite element_update. subst w1.
      destruct (decide (c = c')) as [->|Hne]; cbn [attributes].
      - by rewrite attributes_setAttribute, decide_True.
      - by rewrite attributes_setAttribute, decide_False. }
    assert (forall c', parentNode (document w_mid c') =
              if decide (c = c') then None else parentNode (document w c')) as Hpar_mid.
    { intros c'. subst w_mid. cbn [document record with_trace].
      rewrite element_update. subst w1.
      destruct (decide (c = c')) as [->|Hne]; cbn [parentNode]; [done|].
      by rewrite parentNode_setAttribute. }
    set (w4 := removeAttribute c "destroy" w3).
    set (w5 := match getAttribute c "destroy" w with
               | Some v => setAttribute c "destroy" v w4
               | None => w4
               end).
    set (w6 := match getAttribute c "destory" w with
               | Some v => setAttribute c "destory" v w5
               | None => w5
               end).
    exists w_mid, new, w6. split; [reflexivity|].
    assert (trace w6 = trace w4 ++ restore_calls c m) as Ht6.
    { subst w6 w5. unfold restore_calls, getAttribute. fold m.
      destruct (m !! "destroy"), (m !! "destory"); autorewrite with world;
        by rewrite <- ?app_assoc, ?app_nil_r. }
    split_and!.
    - by rewrite Hattr_mid, decide_True.
    - by rewrite Hpar_mid, decide_True.
    - subst w_mid w1. cbn [trace record with_trace]. autorewrite with world.
      by rewrite <- app_assoc.
    - done.
    - rewrite Ht6. subst w4. autorewrite with world.
      rewrite Ht. by rewrite <- !app_assoc.
    - subst w6 w5 w4.
      by destruct (getAttribute c "destroy" w), (getAttribute c "destory" w).
    - intros c'. subst w6 w5 w4. unfold getAttribute. fold m.
      destruct (decide (c = c')) as [<-|Hne].
      + destruct (m !! "destroy") as [v|] eqn:Hv, (m !! "destory") as [v'|] eqn:Hv';
          rewrite ?attributes_setAttribute, ?attributes_removeAttribute, ?decide_True by done;
          destruct (Hd c) as [-> _]; rewrite Hattr_mid, decide_True by done;
          rewrite delete_insert_eq.
        * rewrite insert_delete_id by done. by rewrite insert_id.
        * by rewrite insert_delete_id.
        * rewrite delete_id by done. by rewrite insert_id.
        * by rewrite delete_id.
      + destruct (m !! "destroy") as [v|], (m !! "destory") as [v'|];
          rewrite ?attributes_setAttribute, ?attributes_removeAttribute, ?decide_False by done;
          destruct (Hd c') as [-> _]; by rewrite Hattr_mid, decide_False.
    - intros c'. rewrite <- Hpar_mid. destruct (Hd c') as [_ <-].
      subst w6 w5 w4.
      destruct (getAttribute c "destroy" w), (getAttribute c "destory" w);
        by rewrite ?parentNode_setAttribute, ?parentNode_removeAttribute.
    - subst w6 w5 w4.
      destruct (getAttribute c "destroy" w), (getAttribute c "destory" w);
        autorewrite with world; by rewrite Hs.
    - subst w6 w5 w4.
      destruct (getAttribute c "destroy" w), (getAttribute c "destory" w);
        autorewrite with world; by rewrite Hc.
    - subst w6 w5 w4.
      destruct (getAttribute c "destroy" w), (getAttribute c "destory" w);
        autorewrite with world; by rewrite Hl.
  Qed.

Lemma alive_listening appName c w :
    alive (length (promises w)) (listening appName c w).
  Proof.
    left. unfold state_of. destruct (listening_frame appName c w) as (_ & -> & _).
    by rewrite list_lookup_middle.
  Qed.

  (** A visible application whose container has a parent, destroyed. *)
Lemma unmountApp_visible_destroy appName options w app ct par :
    JsMap.get (formatAppName appName) (appInstanceMap w) = Some app ->
    getAppState app <> UNMOUNT ->
    isPrefetch app = false ->
    getKeepAliveState app <> KEEP_ALIVE_HIDDEN ->
    container app = Some ct ->
    parentNode (document w (getRootContainer ct)) = Some par ->
    wants_destroy options = true ->
    let c := getRootContainer ct in
    let p := length (promises w) in
    let w' := (unmountApp appName options w).2 in
    (unmountApp appName options w).1 = p /\
    alive p w' /\
    (forall c', attributes (document w' c') = attributes (document w c')) /\
    parentNode (document w' c) = None /\
    exists w_mid new,
      attributes (document w_mid c) = <["destroy" := "true"]> (attributes (document w c)) /\
      trace w_mid = trace w ++
        [Call_unmountApp appName p;
         Call_addEventListener c "unmount" (unmountHandler c p);
         Call_addEventListener c "afterhidden" (afterhiddenHandler c p);
         Call_setAttribute c "destroy" "true";
         Call_removeChild c] /\
      Forall (fun e => is_dispatch_event e = true) new /\
      trace w' = trace w_mid ++ new ++
                 Call_removeAttribute c "destroy" ::
                 restore_calls c (attributes (document w c)).
  Proof.
    intros Hget Hst Hpf Hka Hct Hpar Hd c p w'. subst w'.
    rewrite (unmountApp_visible _ _ _ _ _ Hget Hst Hpf Hka Hct). cbn zeta.
    fold c. fold p.
    pose proof (detach_steps (fun _ => True) disconnectedCallback options c
                  (listening appName c w)) as Hsteps.
    unfold detach in *. rewrite Hd in *.
    destruct (listening_frame appName c w) as (Ht & Hp & _ & _ & _ & _ & _ & Hel).
    assert (parentNode (document (listening appName c w) c) = Some par) as Hpar'
      by (destruct (Hel c) as [_ ->]; done).
    destruct (detach_destroy_result c _ par Hpar')
      as (w_mid & new & w3 & Hdet & Ha_mid & Hp_mid & Ht_mid & Hn & Ht3 & _ & Ha3 & Hp3 & _).
    rewrite Hdet in Hsteps. rewrite Hdet.
    cbn [fst snd completion_world] in *. split_and!.
    - done.
    - eapply steps_alive; [exact Hsteps | apply alive_listening].
    - intros c'. rewrite Ha3. by destruct (Hel c') as [-> _].
    - by rewrite Hp3, decide_True.
    - exists w_mid, new. split_and!; try done.
      + rewrite Ha_mid. by destruct (Hel c) as [-> _].
      + rewrite Ht_mid, Ht. by rewrite <- !app_assoc.
      + rewrite Ht3. by destruct (Hel c) as [-> _].
  Qed.

  (** C2.  Destroying a visible application whose container sits in the
      document: while the container is taken out its [destroy] attribute
      is ["true"]; when the call returns, [destroy] and [destory] have
      the values they had before, a marker that was absent is absent
      again, and no other attribute of any element has changed. *)
Theorem unmountApp_destroy_restores_markers (appName : string)
      (options : option unmountAppParams) (w : World) (app : AppInterface)
      (ct : Container) (par : nat) :
    JsMap.get (formatAppName appName) (appInstanceMap w) = Some app ->
    getAppState app <> UNMOUNT ->
    isPrefetch app = false ->
    getKeepAliveState app <> KEEP_ALIVE_HIDDEN ->
    container app = Some ct ->
    parentNode (document w (getRootContainer ct)) = Some par ->
    wants_destroy options = true ->
    let c := getRootContainer ct in
    let p := (unmountApp appName options w).1 in
    let w' := (unmountApp appName options w).2 in
    getAttribute c "destroy" w' = getAttribute c "destroy" w /\
    getAttribute c "destory" w' = getAttribute c "destory" w /\
    (getAttribute c "destroy" w = None -> hasAttribute c "destroy" w' = false) /\
    (forall c', attributes (document w' c') = attributes (document w c')) /\
    parentNode (document w' c) = None /\
    state_of p w' <> Some Rejected /\
    exists w_mid new,
      getAttribute c "destroy" w_mid = Some "true" /\
      trace w_mid = trace w ++
        [Call_unmountApp appName p;
         Call_addEventListener c "unmount" (unmountHandler c p);
         Call_addEventListener c "afterhidden" (afterhiddenHandler c p);
         Call_setAttribute c "destroy" "true";
         Call_removeChild c] /\
      Forall (fun e => is_dispatch_event e = true) new /\
      trace w' = trace w_mid ++ new ++
                 Call_removeAttribute c "destroy" ::
                 restore_calls c (attributes (document w c)).
  Proof.
    intros Hget Hst Hpf Hka Hct Hpar Hd c p w'.
    destruct (unmountApp_visible_destroy _ _ _ _ _ _ Hget Hst Hpf Hka Hct Hpar Hd)
      as (Hp & Halive & Hattr & Hparent & w_mid & new & Ha_mid & Ht_mid & Hn & Ht).
    fold c in Hattr, Hparent, Ha_mid, Ht_mid, Ht. fold w' in Halive, Hattr, Hparent, Ht.
    subst p. rewrite Hp in *. unfold getAttribute, hasAttribute.
    split_and!; try done.
    - by rewrite Hattr.
    - by rewrite Hattr.
    - intros Hnone. rewrite Hattr, Hnone. apply bool_decide_eq_false_2. by intros [? ?].
    - intros Hrej. destruct Halive as [H|H]; rewrite H in Hrej; done.
    - exists w_mid, new. split_and!; try done.
      rewrite Ha_mid. apply lookup_insert_eq.
  Qed.

  (** C10.  With [destroy] and [clearAliveState] both set on a visible
      application, the destroy branch runs: the [destroy] marker is set
      and removed again, no call touches the [keep-alive] attribute, and
      the attribute has the value it had before. *)
Theorem unmountApp_destroy_takes_precedence (appName : string)
      (options : option unmountAppParams) (w : World) (app : AppInterface)
      (ct : Container) (par : nat) :
    JsMap.get (formatAppName appName) (appInstanceMap w) = Some app ->
    getAppState app <> UNMOUNT ->
    isPrefetch app = false ->
    getKeepAliveState app <> KEEP_ALIVE_HIDDEN ->
    container app = Some ct ->
    parentNode (document w (getRootContainer ct)) = Some par ->
    wants_destroy options = true ->
    wants_clearAliveState options = true ->
    let c := getRootContainer ct in
    let w' := (unmountApp appName options w).2 in
    getAttribute c "keep-alive" w' = getAttribute c "keep-alive" w /\
    exists new,
      trace w' = trace w ++ new /\
      Call_setAttribute c "destroy" "true" ∈ new /\
      Call_removeChild c ∈ new /\
      Call_removeAttribute c "destroy" ∈ new /\
      (forall e, e ∈ new ->
         e <> Call_removeAttribute c "keep-alive" /\
         forall v, e <> Call_setAttribute c "keep-alive" v).
  Proof.
    intros Hget Hst Hpf Hka Hct Hpar Hd _ c w'.
    destruct (unmountApp_visible_destroy _ _ _ _ _ _ Hget Hst Hpf Hka Hct Hpar Hd)
      as (Hp & Halive & Hattr & Hparent & w_mid & new & Ha_mid & Ht_mid & Hn & Ht).
    fold c in Hattr, Hparent, Ha_mid, Ht_mid, Ht. fold w' in Halive, Hattr, Hparent, Ht.
    split; [unfold getAttribute; by rewrite Hattr|].
    eexists. split; [rewrite Ht, Ht_mid, <- app_assoc; reflexivity|].
    split_and!.
    - set_solver.
    - set_solver.
    - set_solver.
    - intros e. rewrite !elem_of_app, !elem_of_cons.
      intros [He|[He|[->|He]]].
      + repeat destruct He as [->|He]; try done. by apply elem_of_nil in He.
      + rewrite Forall_forall in Hn. apply list_elem_of_In, Hn in He.
        by destruct e.
      + done.
      + unfold restore_calls in He.
        destruct (attributes (document w c) !! "destroy"),
                 (attributes (document w c) !! "destory"); simpl in He;
          repeat (apply elem_of_cons in He as [->|He]; [done|]);
          by apply elem_of_nil in He.
  Qed.

End Unmount.

(** * The theorems on the example page *)

Lemma page_wf : JsMap.wf (appInstanceMap Example.page).
Proof. unfold JsMap.wf. apply (bool_decide_unpack _). vm_compute. exact I. Qed.

Lemma getActiveApps_exact_witness :
  NoDup (getActiveApps (Some true) Example.page) /\
  "hidden" ∉ getActiveApps (Some true) Example.page.
Proof.
  destruct (getActiveApps_exact (Some true) Example.page) as (Hnd & _ & Hin).
  - unfold JsMap.wf. apply (bool_decide_unpack _). vm_compute. exact I.
  - split; [exact Hnd|]. intros (a & Hget & _ & _ & Hk)%Hin.
    vm_compute in Hget. injection Hget as <-. by apply Hk.
Defined.

Lemma unmountApp_unknown_name_witness :
  state_of 0
    (unmountApp Example.formatAppName Example.getRootContainer Example.lazy
       "ghost" None Example.page).2 = Some Fulfilled.
Proof.
  destruct (unmountApp_unknown_name Example.formatAppName Example.getRootContainer
Example.lazy "ghost" None Example.page) as (Hp & Hst & _).
  - reflexivity.
  - rewrite Hp in Hst. exact Hst.
Defined.

Lemma unmountApp_unmounted_or_prefetch_witness :
  "early" ∉ getAllApps
    (unmountApp Example.formatAppName Example.getRootContainer Example.lazy
       "early" Example.only_destroy Example.page).2.
Proof.
  destruct (unmountApp_unmounted_or_prefetch Example.formatAppName
Example.getRootContainer Example.lazy
              "early" Example.only_destroy Example.page
              (Example.app LOADING NONE true None))
    as (_ & _ & _ & _ & Hd & _).
  - unfold JsMap.wf. apply (bool_decide_unpack _). vm_compute. exact I.
  - reflexivity.
  - right. reflexivity.
  - destruct Hd as (_ & _ & Hk & _); [reflexivity | exact Hk].
Defined.

Lemma unmountApp_keep_alive_hidden_witness :
  exists app',
    JsMap.get "hidden"
      (appInstanceMap
         (unmountApp Example.formatAppName Example.getRootContainer Example.lazy
            "hidden" Example.only_clear Example.page).2) = Some app' /\
    getKeepAliveState app' = NONE.
Proof.
  destruct (unmountApp_keep_alive_hidden Example.formatAppName
Example.getRootContainer Example.lazy
              "hidden" Example.only_clear Example.page
              (Example.app MOUNTED KEEP_ALIVE_HIDDEN false (Some (HTMLElement 2))))
    as (_ & _ & Hc & _).
  - unfold JsMap.wf. apply (bool_decide_unpack _). vm_compute. exact I.
  - reflexivity.
  - reflexivity.
  - destruct Hc as ((app' & Hget & Hk & _) & _);
      [reflexivity | reflexivity | discriminate | reflexivity |].
    exists app'. split; [exact Hget | exact Hk].
Defined.

Lemma unmountApp_destroy_restores_markers_witness :
  let w' :=
    (unmountApp Example.formatAppName Example.getRootContainer Example.prompt
       "shown" Example.only_destroy Example.page).2 in
  getAttribute 1 "destroy" w' = Some "later" /\
  getAttribute 1 "destory" w' = Some "".
Proof.
  destruct (unmountApp_destroy_restores_markers Example.formatAppName
Example.getRootContainer Example.prompt
              "shown" Example.only_destroy Example.page
              (Example.app MOUNTED KEEP_ALIVE_SHOWN false (Some (HTMLElement 1)))
              (HTMLElement 1) 0)
    as (H1 & H2 & _).
  - reflexivity.
  - discriminate.
  - reflexivity.
  - discriminate.
  - reflexivity.
  - reflexivity.
  - reflexivity.
  - split; [exact H1 | exact H2].
Defined.

Lemma unmountApp_destroy_takes_precedence_witness :
  getAttribute 1 "keep-alive"
    (unmountApp Example.formatAppName Example.getRootContainer Example.prompt
       "shown" Example.destroy_and_clear Example.page).2 = Some "true".
Proof.
  destruct (unmountApp_destroy_takes_precedence Example.formatAppName
Example.getRootContainer Example.prompt
              "shown" Example.destroy_and_clear Example.page
              (Example.app MOUNTED KEEP_ALIVE_SHOWN false (Some (HTMLElement 1)))
              (HTMLElement 1) 0)
    as (H1 & _).
  - reflexivity.
  - discriminate.
  - reflexivity.
  - discriminate.
  - reflexivity.
  - reflexivity.
  - reflexivity.
  - reflexivity.
  - exact H1.
Defined.

Lemma page_wf_refs : wf_refs Example.page.
Proof.
  split_and!.
  - intros c l Hin. exfalso. unfold Example.page in Hin. simpl in Hin.
    unfold insert, fn_insert in Hin.
    repeat case_decide; simpl in Hin; by apply elem_of_nil in Hin.
  - intros j Hin. by apply elem_of_nil in Hin.
  - intros p pr r Hp. done.
Qed.

(** * The promise of a visible application waits for the container *)

Lemma count_settled_none q tr :
  Forall (fun e => settles q e = false) tr -> count_settled q tr = 0.
Proof.
  unfold count_settled. induction 1 as [|e tr He _ IH]; [done|].
  simpl. by rewrite He.
Qed.

Lemma emitted_app c tr1 tr2 :
  Forall (fun e => is_dispatched e = false) tr2 ->
  emitted c (tr1 ++ tr2) <-> emitted c tr1.
Proof.
  intros Hn. unfold emitted. split.
  - intros (ev & Hev & [Hin|Hin]%elem_of_app); [by exists ev|].
    rewrite Forall_forall in Hn. apply list_elem_of_In, Hn in Hin. done.
  - intros (ev & Hev & Hin). exists ev. split; [done|]. apply elem_of_app. by left.
Qed.

Lemma emitted_mono c tr1 tr2 : emitted c tr1 -> emitted c (tr1 ++ tr2).
Proof.
  intros (ev & Hev & Hin). exists ev. split; [done|]. apply elem_of_app. by left.
Qed.

(** A step that neither settles [q], nor touches its listeners, nor
    dispatches an event keeps [q] in the state it is in. *)
Lemma neutral_core c q rest w w' new :
  trace w' = trace w ++ new ->
  Forall (fun e => settles q e = false) new ->
  state_of q w' = state_of q w ->
  (forall c' l, target l.2 = q ->
     (l ∈ listeners (document w' c') <-> l ∈ listeners (document w c'))) ->
  (own_listeners c q w -> own_listeners c q w') /\
  (waiting c q rest w -> waiting c q (rest ++ new) w') /\
  (resolved q rest w -> resolved q (rest ++ new) w').
Proof.
  intros Ht Hn Hst Hl. split_and!.
  - intros Hown c' l Hin Htg. apply Hown; [|done]. by apply Hl.
  - intros (Hp & H1 & H2 & Hc). split_and!.
    + by rewrite Hst.
    + by apply Hl.
    + by apply Hl.
    + rewrite count_settled_app, Hc, count_settled_none; done.
  - intros (Hp & Hno & Hc). split_and!.
    + by rewrite Hst.
    + intros c' l Hin Htg. eapply Hno; [|exact Htg]. by apply Hl.
    + rewrite count_settled_app, Hc, count_settled_none; done.
Qed.

Lemma neutral_awaits base c q w w' new :
  trace w' = trace w ++ new ->
  Forall (fun e => settles q e = false) new ->
  Forall (fun e => is_dispatched e = false) new ->
  state_of q w' = state_of q w ->
  (forall c' l, target l.2 = q ->
     (l ∈ listeners (document w' c') <-> l ∈ listeners (document w c'))) ->
  untargeted q w' ->
  awaits base c q w -> awaits base c q w'.
Proof.
  intros Ht Hn Hd Hst Hl Hun (rest & Htr & _ & Hown & Hcase).
  destruct (neutral_core c q rest w w' new Ht Hn Hst Hl) as (Ho & Hw & Hr).
  exists (rest ++ new). split_and!; [by rewrite Ht, Htr, app_assoc|done|auto|].
  rewrite (emitted_app c rest new Hd).
  destruct Hcase as [[? ?]|[? ?]]; [left|right]; auto.
Qed.

(** When only registry, sandboxes, channels or console change. *)
Lemma awaits_frame base c q w w' :
  trace w' = trace w -> promises w' = promises w ->
  microtasks w' = microtasks w -> document w' = document w ->
  awaits base c q w -> awaits base c q w'.
Proof.
  intros Ht Hp Hm Hd Haw.
  apply (neutral_awaits base c q w w' []); try done.
  - by rewrite app_nil_r.
  - unfold state_of. by rewrite Hp.
  - intros c' l _. by rewrite Hd.
  - destruct Haw as (_ & _ & [H1 H2] & _). split.
    + by rewrite Hm.
    + by rewrite Hp.
Qed.

Lemma awaits_record base c q e w :
  settles q e = false -> is_dispatched e = false ->
  awaits base c q w -> awaits base c q (record e w).
Proof.
  intros He Hd Haw. apply (neutral_awaits base c q w _ [e]); try done.
  - by repeat constructor.
  - by repeat constructor.
  - by destruct Haw as (_ & _ & H & _).
Qed.

Lemma awaits_update_element base c q c0 f w :
  (forall l, target l.2 = q ->
     (l ∈ listeners (f (document w c0)) <-> l ∈ listeners (document w c0))) ->
  awaits base c q w -> awaits base c q (update_element c0 f w).
Proof.
  intros Hf Haw. apply (neutral_awaits base c q w _ []); try done.
  - by rewrite app_nil_r.
  - intros c' l Htg. rewrite element_update.
    destruct (decide (c0 = c')) as [<-|]; [by apply Hf | done].
  - by destruct Haw as (_ & _ & H & _).
Qed.

Lemma untargeted_settle q p s w :
  untargeted q w -> untargeted q (settle p s w).
Proof.
  intros [Hj Hr]. unfold settle.
  destruct s; try done;
    (destruct (promises w !! p) as [pr|] eqn:Hp; [|done]);
    (destruct (pstate pr) eqn:Hst; try done); split; simpl.
  all: try (intros j [Hin|Hin]%elem_of_app; [by apply Hj|];
            apply list_elem_of_fmap in Hin as (r & -> & Hin); simpl;
            by eapply Hr).
  all: intros p' pr' r Hp' Hin;
       destruct (decide (p = p')) as [<-|Hne];
       [ rewrite list_lookup_insert_eq in Hp' by (by eapply lookup_lt_Some);
         injection Hp' as <-; by apply elem_of_nil in Hin
       | rewrite list_lookup_insert_ne in Hp' by done; by eapply Hr ].
Qed.

Lemma state_of_settle_other q p s w :
  p <> q -> state_of q (settle p s w) = state_of q w.
Proof.
  intros Hne. unfold settle, state_of.
  destruct s; try done;
    (destruct (promises w !! p) as [pr|] eqn:Hp; [|done]);
    (destruct (pstate pr) eqn:Hst; try done); simpl;
    by rewrite list_lookup_insert_ne.
Qed.

Lemma settle_trace p s w :
  exists new, trace (settle p s w) = trace w ++ new /\
              (new = [] \/ new = [Settled p s]) /\
              document (settle p s w) = document w.
Proof.
  unfold settle.
  destruct s; try (exists []; by rewrite app_nil_r; auto);
    (destruct (promises w !! p) as [pr|] eqn:Hp;
       [|exists []; by rewrite app_nil_r; auto]);
    (destruct (pstate pr) eqn:Hst;
       try (exists []; by rewrite app_nil_r; auto));
    eexists [_]; simpl; auto.
Qed.

Lemma awaits_settle_other base c q p s w :
  p <> q -> awaits base c q w -> awaits base c q (settle p s w).
Proof.
  intros Hne Haw.
  destruct (settle_trace p s w) as (new & Ht & Hnew & Hd).
  apply (neutral_awaits base c q w _ new); try done.
  - destruct Hnew as [->| ->]; repeat constructor.
    simpl. by apply bool_decide_eq_false_2.
  - destruct Hnew as [->| ->]; by repeat constructor.
  - by apply state_of_settle_other.
  - intros c' l _. by rewrite Hd.
  - apply untargeted_settle. by destruct Haw as (_ & _ & H & _).
Qed.

Lemma awaits_register base c q p r w :
  reaction_target r <> q -> awaits base c q w -> awaits base c q (register p r w).
Proof.
  intros Hr Haw. pose proof Haw as (_ & _ & [Hj Hrs] & _).
  unfold register. destruct (promises w !! p) as [pr|] eqn:Hp; [|done].
  destruct (pstate pr) eqn:Hst.
  - apply (neutral_awaits base c q w _ []); try done.
    + by rewrite app_nil_r.
    + unfold state_of. simpl. destruct (decide (p = q)) as [->|Hne].
      * rewrite list_lookup_insert_eq by (by eapply lookup_lt_Some).
        by rewrite Hp; simpl; rewrite Hst.
      * by rewrite list_lookup_insert_ne.
    + split; [done|]. simpl. intros p' pr' r' Hp' Hin.
      destruct (decide (p = p')) as [<-|Hne].
      * rewrite list_lookup_insert_eq in Hp' by (by eapply lookup_lt_Some).
        injection Hp' as <-. simpl in Hin.
        apply elem_of_app in Hin as [Hin|Hin%list_elem_of_singleton];
          [by eapply Hrs | by subst].
      * rewrite list_lookup_insert_ne in Hp' by done. by eapply Hrs.
  - apply (neutral_awaits base c q w _ []); try done.
    + by rewrite app_nil_r.
    + split; [|done]. simpl.
      intros j [Hin|Hin%list_elem_of_singleton]%elem_of_app; [by apply Hj | by subst].
  - apply (neutral_awaits base c q w _ []); try done.
    + by rewrite app_nil_r.
    + split; [|done]. simpl.
      intros j [Hin|Hin%list_elem_of_singleton]%elem_of_app; [by apply Hj | by subst].
Qed.

Lemma awaits_enqueue base c q j w :
  job_target j <> q -> awaits base c q w -> awaits base c q (enqueue j w).
Proof.
  intros Hj Haw. pose proof Haw as (_ & _ & [Hjs Hrs] & _).
  apply (neutral_awaits base c q w _ []); try done.
  - by rewrite app_nil_r.
  - split; [|done]. simpl.
    intros j' [Hin|Hin%list_elem_of_singleton]%elem_of_app; [by apply Hjs | by subst].
Qed.

Lemma awaits_dequeue base c q j rest w :
  microtasks w = j :: rest ->
  awaits base c q w -> awaits base c q (with_microtasks rest w) /\ job_target j <> q.
Proof.
  intros Hm Haw. pose proof Haw as (_ & _ & [Hjs Hrs] & _). split.
  - apply (neutral_awaits base c q w _ []); try done.
    + by rewrite app_nil_r.
    + split; [|done]. simpl. intros j' Hin. apply Hjs. rewrite Hm. by right.
  - apply Hjs. rewrite Hm. by left.
Qed.

(** A promise that awaits exists. *)
Lemma awaits_exists base c q w : awaits base c q w -> q < length (promises w).
Proof.
  intros (rest & _ & _ & _ & [[(Hp & _) _]|[(Hp & _) _]]);
    unfold state_of in Hp;
    (destruct (promises w !! q) as [pr|] eqn:Hq; [|done]);
    by eapply lookup_lt_Some.
Qed.

Lemma awaits_newPromise base c q s w :
  awaits base c q w -> awaits base c q (newPromise s w).2.
Proof.
  intros Haw. pose proof (awaits_exists _ _ _ _ Haw) as Hlt.
  pose proof Haw as (_ & _ & [Hjs Hrs] & _).
  apply (neutral_awaits base c q w _ []); try done.
  - by rewrite app_nil_r.
  - unfold state_of. simpl. by rewrite lookup_app_l.
  - split; [done|]. simpl. intros p pr r Hp Hin.
    apply lookup_app_Some in Hp as [Hp|[_ Hp]]; [by eapply Hrs|].
    destruct (p - length (promises w)) as [|n]; simpl in Hp; [|done].
    injection Hp as <-. by apply elem_of_nil in Hin.
Qed.

Lemma neutral_tracks base c q rest w w' new :
  trace w' = trace w ++ new ->
  Forall (fun e => settles q e = false) new ->
  state_of q w' = state_of q w ->
  (forall c' l, target l.2 = q ->
     (l ∈ listeners (document w' c') <-> l ∈ listeners (document w c'))) ->
  untargeted q w' ->
  tracks base c q rest w ->
  tracks base c q (rest ++ new) w' /\
  (waiting c q rest w -> waiting c q (rest ++ new) w') /\
  (resolved q rest w -> resolved q (rest ++ new) w').
Proof.
  intros Ht Hn Hst Hl Hun (Htr & _ & Hown).
  destruct (neutral_core c q rest w w' new Ht Hn Hst Hl) as (Ho & Hw & Hr).
  split_and!; try done. split_and!; [by rewrite Ht, Htr, app_assoc|done|auto].
Qed.

Lemma removeEventListener_tracks base c q rest c0 ev h w :
  target h <> q ->
  tracks base c q rest w ->
  let new := [Call_removeEventListener c0 ev h] in
  let w' := removeEventListener c0 ev h w in
  tracks base c q (rest ++ new) w' /\
  (waiting c q rest w -> waiting c q (rest ++ new) w') /\
  (resolved q rest w -> resolved q (rest ++ new) w').
Proof.
  intros Hne Htr. cbn zeta.
  apply (neutral_tracks base c q rest w); try done.
  - by repeat constructor.
  - intros c' l Htg. rewrite elem_of_listeners_removeEventListener.
    split; [by intros [? _]|]. intros Hin. split; [done|].
    intros _ ->. simpl in Htg. done.
  - by destruct Htr as (_ & H & _).
Qed.

Lemma settle_tracks base c q rest p s w :
  p <> q ->
  tracks base c q rest w ->
  exists new,
    Forall (fun e => is_dispatched e = false) new /\
    tracks base c q (rest ++ new) (settle p s w) /\
    (waiting c q rest w -> waiting c q (rest ++ new) (settle p s w)) /\
    (resolved q rest w -> resolved q (rest ++ new) (settle p s w)).
Proof.
  intros Hne Htr. destruct (settle_trace p s w) as (new & Ht & Hnew & Hd).
  exists new. split; [destruct Hnew as [->| ->]; by repeat constructor|].
  apply (neutral_tracks base c q rest w); try done.
  - destruct Hnew as [->| ->]; repeat constructor.
    simpl. by apply bool_decide_eq_false_2.
  - by apply state_of_settle_other.
  - intros c' l _. by rewrite Hd.
  - apply untargeted_settle. by destruct Htr as (_ & H & _).
Qed.

(** A listener of another promise runs: nothing changes for [q]. *)
Lemma run_handler_other base c q rest h w :
  target h <> q ->
  tracks base c q rest w ->
  exists new,
    Forall (fun e => is_dispatched e = false) new /\
    tracks base c q (rest ++ new) (run_handler h w) /\
    (waiting c q rest w -> waiting c q (rest ++ new) (run_handler h w)) /\
    (resolved q rest w -> resolved q (rest ++ new) (run_handler h w)).
Proof.
  intros Hne Htr.
  assert (exists c0 p, p <> q /\
            run_handler h w =
            resolve p (removeEventListener c0 "afterhidden" (afterhiddenHandler c0 p)
                         (removeEventListener c0 "unmount" (unmountHandler c0 p) w)))
    as (c0 & p & Hp & ->) by (destruct h as [c0 p|c0 p]; by exists c0, p).
  destruct (removeEventListener_tracks base c q rest c0 "unmount"
              (unmountHandler c0 p) w Hp Htr) as (Htr1 & Hw1 & Hr1).
  destruct (removeEventListener_tracks base c q _ c0 "afterhidden"
              (afterhiddenHandler c0 p) _ Hp Htr1) as (Htr2 & Hw2 & Hr2).
  destruct (settle_tracks base c q _ p Fulfilled _ Hp Htr2)
    as (new & Hn & Htr3 & Hw3 & Hr3).
  exists ([Call_removeEventListener c0 "unmount" (unmountHandler c0 p)] ++
          [Call_removeEventListener c0 "afterhidden" (afterhiddenHandler c0 p)] ++ new).
  rewrite (app_assoc rest), (app_assoc (rest ++ _)).
  split_and!; try done; auto.
  apply Forall_app. split; [by repeat constructor|].
  apply Forall_app. split; [by repeat constructor | done].
Qed.

(** One of the two listeners of [q] runs while [q] waits: both listeners
    go and [q] is fulfilled. *)
Lemma run_handler_own base c q rest h w :
  h = unmountHandler c q \/ h = afterhiddenHandler c q ->
  tracks base c q rest w ->
  waiting c q rest w ->
  exists new,
    Forall (fun e => is_dispatched e = false) new /\
    tracks base c q (rest ++ new) (run_handler h w) /\
    resolved q (rest ++ new) (run_handler h w).
Proof.
  intros Hh (Htr & Hun & Hown) (Hp & Hin1 & Hin2 & Hc).
  assert (run_handler h w =
          resolve q (removeEventListener c "afterhidden" (afterhiddenHandler c q)
                       (removeEventListener c "unmount" (unmountHandler c q) w)))
    as -> by (by destruct Hh as [->| ->]).
  set (w1 := removeEventListener c "unmount" (unmountHandler c q) w).
  set (w2 := removeEventListener c "afterhidden" (afterhiddenHandler c q) w1).
  assert (forall c' l, l ∈ listeners (document w2 c') -> target l.2 <> q) as Hnone.
  { intros c' l Hin Htg. subst w2 w1.
    apply elem_of_listeners_removeEventListener in Hin as [Hin Hn2].
    apply elem_of_listeners_removeEventListener in Hin as [Hin Hn1].
    destruct (Hown c' l Hin Htg) as [-> [->| ->]]; [by apply Hn1 | by apply Hn2]. }
  assert (promises w2 = promises w) as Hps by reflexivity.
  unfold state_of in Hp.
  destruct (promises w !! q) as [pr|] eqn:Hq; [|done].
  simpl in Hp. injection Hp as Hp.
  assert (promises w2 !! q = Some pr) as Hq2 by (by rewrite Hps).
  unfold resolve. rewrite (settle_pending q Fulfilled w2 pr ltac:(done) Hq2 Hp).
  exists [Call_removeEventListener c "unmount" (unmountHandler c q);
          Call_removeEventListener c "afterhidden" (afterhiddenHandler c q);
          Settled q Fulfilled].
  split_and!.
  - by repeat constructor.
  - split_and!.
    + simpl. subst w2 w1. autorewrite with world. rewrite Htr.
      by rewrite <- !app_assoc.
    + pose proof (untargeted_settle q q Fulfilled w2) as Hs.
      rewrite (settle_pending q Fulfilled w2 pr ltac:(done) Hq2 Hp) in Hs.
      apply Hs. destruct Hun as [Hj Hr]. split; [done|]. by rewrite Hps.
    + intros c' l Hin Htg. exfalso. by eapply Hnone.
  - split_and!.
    + unfold state_of. simpl. rewrite list_lookup_insert_eq; [done|].
      by eapply lookup_lt_Some.
    + exact Hnone.
    + rewrite count_settled_app, Hc. unfold count_settled. simpl.
      by rewrite bool_decide_eq_true_2.
Qed.

Lemma waiting_not_resolved c q rest rest' w :
  waiting c q rest w -> resolved q rest' w -> False.
Proof. intros (Hp & _) (Hf & _). congruence. Qed.

Lemma dispatch_fold_tracks base c q c' ls : forall rest w,
  (forall l, l ∈ ls -> target l.2 = q ->
     c' = c /\ (l = ("unmount", unmountHandler c q) \/
                l = ("afterhidden", afterhiddenHandler c q))) ->
  tracks base c q rest w ->
  waiting c q rest w \/ resolved q rest w ->
  exists new,
    Forall (fun e => is_dispatched e = false) new /\
    tracks base c q (rest ++ new) (fold_left (call_listener c') ls w) /\
    (resolved q rest w ->
       resolved q (rest ++ new) (fold_left (call_listener c') ls w)) /\
    (waiting c q rest w ->
       (Exists (fun l => target l.2 = q) ls ->
          resolved q (rest ++ new) (fold_left (call_listener c') ls w)) /\
       (Forall (fun l => target l.2 <> q) ls ->
          waiting c q (rest ++ new) (fold_left (call_listener c') ls w))).
Proof.
  induction ls as [|l ls IH]; intros rest w Hls Htr Hcase.
  - exists []. rewrite app_nil_r. simpl. split_and!; try done.
    intros Hw. split; [by intros ?%List.Exists_nil | done].
  - simpl.
    assert (forall l0, l0 ∈ ls -> target l0.2 = q ->
              c' = c /\ (l0 = ("unmount", unmountHandler c q) \/
                         l0 = ("afterhidden", afterhiddenHandler c q)))
      as Hls' by (intros l0 Hin; apply Hls; by right).
    destruct (decide (target l.2 = q)) as [Hq|Hq].
    + destruct (Hls l ltac:(by left) Hq) as [-> Hown].
      destruct Hcase as [Hw|Hr].
      * assert (l ∈ listeners (document w c)) as Hin
          by (destruct Hw as (_ & H1 & H2 & _); by destruct Hown as [->| ->]).
        unfold call_listener at 2 4 6. rewrite bool_decide_eq_true_2 by done.
        destruct (run_handler_own base c q rest l.2 w) as (new1 & Hn1 & Htr1 & Hr1);
          [by destruct Hown as [->| ->]; auto | done | done |].
        destruct (IH _ _ Hls' Htr1 (or_intror Hr1)) as (new2 & Hn2 & Htr2 & Hr2 & _).
        exists (new1 ++ new2). rewrite app_assoc. split_and!.
        -- by apply Forall_app.
        -- done.
        -- intros Hr. exfalso. by eapply waiting_not_resolved.
        -- intros _. split; [auto|].
           intros [Hne _]%list.Forall_cons. done.
      * assert (l ∉ listeners (document w c)) as Hnin.
        { intros Hin. destruct Hr as (_ & Hno & _). by eapply Hno. }
        unfold call_listener at 2 4 6. rewrite bool_decide_eq_false_2 by done.
        destruct (IH _ _ Hls' Htr (or_intror Hr)) as (new2 & Hn2 & Htr2 & Hr2 & _).
        exists new2. split_and!; try done.
        intros Hw. exfalso. by eapply waiting_not_resolved.
    + assert (exists new1,
                Forall (fun e => is_dispatched e = false) new1 /\
                tracks base c q (rest ++ new1) (call_listener c' w l) /\
                (waiting c q rest w -> waiting c q (rest ++ new1) (call_listener c' w l)) /\
                (resolved q rest w -> resolved q (rest ++ new1) (call_listener c' w l)))
        as (new1 & Hn1 & Htr1 & Hw1 & Hr1).
      { unfold call_listener. case_bool_decide.
        - by apply run_handler_other.
        - exists []. by rewrite app_nil_r. }
      assert (waiting c q (rest ++ new1) (call_listener c' w l) \/
              resolved q (rest ++ new1) (call_listener c' w l)) as Hcase1
        by (destruct Hcase; auto).
      destruct (IH _ _ Hls' Htr1 Hcase1) as (new2 & Hn2 & Htr2 & Hr2 & Hw2).
      exists (new1 ++ new2). rewrite app_assoc. split_and!.
      * by apply Forall_app.
      * done.
      * auto.
      * intros Hw. destruct (Hw2 (Hw1 Hw)) as [HE HF]. split.
        -- intros [Hl|Hex]%List.Exists_cons; [done | auto].
        -- intros [_ Hall]%list.Forall_cons. auto.
Qed.

(** A dispatch on any element keeps the invariant: it fulfils [q]
    exactly when it is [unmount] or [afterhidden] on [c] and [q] was
    waiting. *)
Lemma awaits_dispatchEvent base c q c' ev w :
  awaits base c q w -> awaits base c q (dispatchEvent c' ev w).
Proof.
  intros (rest & Htr & Hun & Hown & Hcase). unfold dispatchEvent.
  set (w0 := record (Dispatched c' ev) w).
  set (ls := List.filter (fun l => bool_decide (l.1 = ev)) (listeners (document w c'))).
  assert (tracks base c q (rest ++ [Dispatched c' ev]) w0 /\
          (waiting c q rest w -> waiting c q (rest ++ [Dispatched c' ev]) w0) /\
          (resolved q rest w -> resolved q (rest ++ [Dispatched c' ev]) w0))
    as (Htr0 & Hw0 & Hr0).
  { apply (neutral_tracks base c q rest w); try done. by repeat constructor. }
  assert (forall l, l ∈ ls -> target l.2 = q ->
            c' = c /\ (l = ("unmount", unmountHandler c q) \/
                       l = ("afterhidden", afterhiddenHandler c q))) as Hls.
  { intros l [Hin _]%elem_of_List_filter Htg. by apply Hown. }
  assert (waiting c q (rest ++ [Dispatched c' ev]) w0 \/
          resolved q (rest ++ [Dispatched c' ev]) w0) as Hcase0
    by (destruct Hcase as [[? _]|[? _]]; auto).
  destruct (dispatch_fold_tracks base c q c' ls _ _ Hls Htr0 Hcase0)
    as (new & Hn & (Htr' & Hun' & Hown') & Hr' & Hw').
  exists ((rest ++ [Dispatched c' ev]) ++ new). split_and!; try done.
  rewrite (emitted_app c _ new Hn).
  destruct Hcase as [[Hw Hne]|[Hr He]].
  - destruct (Hw' (Hw0 Hw)) as [HE HF].
    destruct (decide (Exists (fun l => target l.2 = q) ls)) as [Hex|Hnex].
    + right. split; [auto|].
      apply list.Exists_exists in Hex as (l & Hin & Htg).
      destruct (Hls l Hin Htg) as [-> Hl].
      apply elem_of_List_filter in Hin as [_ Hev%bool_decide_eq_true].
      exists ev. split; [|apply elem_of_app; right; by left].
      destruct Hl as [->| ->]; simpl in Hev; subst; auto.
    + left. split.
      * apply HF. apply list.Forall_forall. intros l Hin Htg. apply Hnex.
        apply list.Exists_exists. by exists l.
      * intros (ev' & Hev' & [Hin|Hin%list_elem_of_singleton]%elem_of_app);
          [apply Hne; by exists ev'|].
        injection Hin as <- <-. apply Hnex.
        destruct Hw as (_ & H1 & H2 & _).
        destruct Hev' as [->| ->].
        -- apply list.Exists_exists. exists ("unmount", unmountHandler c q).
           split; [|done]. apply elem_of_List_filter. split; [done|].
           by apply bool_decide_eq_true.
        -- apply list.Exists_exists. exists ("afterhidden", afterhiddenHandler c q).
           split; [|done]. apply elem_of_List_filter. split; [done|].
           by apply bool_decide_eq_true.
  - right. split; [auto|]. by apply emitted_mono.
Qed.

Section Waiting.
Variable formatAppName : string -> string.
Variable getRootContainer : Container -> nat.
Variable disconnectedCallback : nat -> World -> list AdapterAct.

Local Abbreviation unmountApp := (unmountApp formatAppName getRootContainer disconnectedCallback).
Local Abbreviation run_job := (run_job formatAppName getRootContainer disconnectedCallback).
Local Abbreviation env_act := (env_act formatAppName getRootContainer disconnectedCallback).
Local Abbreviation run := (run formatAppName getRootContainer disconnectedCallback).
Local Abbreviation detach := (detach disconnectedCallback).
Local Abbreviation removeChild := (removeChild disconnectedCallback).

Lemma awaits_addEventListener base c q c0 ev h w :
  target h <> q ->
  awaits base c q w -> awaits base c q (addEventListener c0 ev h w).
Proof.
  intros Hne Haw. unfold addEventListener. apply awaits_record; [done|done|].
  apply awaits_update_element; [|done]. simpl. intros l Htg.
  case_bool_decide; [done|]. rewrite elem_of_app, list_elem_of_singleton.
  split; [|auto]. intros [?|Heq]; [done|]. subst l. simpl in Htg. done.
Qed.

Lemma awaits_step base c q w w' :
  step (fun p => p <> q) w w' -> awaits base c q w -> awaits base c q w'.
Proof.
  intros Hs Haw. revert Haw.
  destruct Hs as [m w0|s w0|s w0|l w0|e w0 He|c0 f w0 Heq|c0 ev h w0 Hh|p w0 Hp|c0 ev w0];
    intros Haw.
  - by apply (awaits_frame base c q w0).
  - by apply (awaits_frame base c q w0).
  - by apply (awaits_frame base c q w0).
  - by apply (awaits_frame base c q w0).
  - apply awaits_record; [by destruct e | by destruct e | done].
  - apply awaits_update_element; [|done]. intros l _. by rewrite Heq.
  - by apply awaits_addEventListener.
  - by apply awaits_settle_other.
  - by apply awaits_dispatchEvent.
Qed.

Lemma awaits_steps base c q w w' :
  steps (fun p => p <> q) w w' -> awaits base c q w -> awaits base c q w'.
Proof. induction 1; eauto using awaits_step. Qed.

(** A later call of [unmountApp], for whatever application, leaves the
    promise of this one alone. *)
Lemma awaits_unmountApp base c q appName options w :
  awaits base c q w -> awaits base c q (unmountApp appName options w).2.
Proof.
  intros Haw. pose proof (awaits_exists _ _ _ _ Haw) as Hlt.
  assert (length (promises w) <> q) as Hfresh by lia.
  destruct (unmountApp_steps (fun p => p <> q) formatAppName getRootContainer
              disconnectedCallback appName options w Hfresh)
    as (_ & w2 & Hst & Hw2).
  assert (awaits base c q w2) as Haw2.
  { eapply awaits_steps; [exact Hst|].
    apply awaits_record; [done|done|]. by apply awaits_newPromise. }
  destruct Hw2 as [->| ->]; [done|].
  apply awaits_settle_other; [lia | done].
Qed.

Lemma awaits_run_job base c q j w :
  job_target j <> q -> awaits base c q w -> awaits base c q (run_job j w).
Proof.
  intros Hj Haw. destruct j as [[next options d|d] s|d q']; simpl in *.
  - destruct s; try by apply awaits_settle_other.
    pose proof (awaits_unmountApp base c q next options w Haw) as H1.
    destruct (unmountApp next options w) as [q' w1]. simpl in *.
    by apply awaits_enqueue.
  - by apply awaits_settle_other.
  - by apply awaits_register.
Qed.

Lemma awaits_env_act base c q e w :
  awaits base c q w -> awaits base c q (env_act e w).
Proof.
  intros Haw. destruct e as [[c' ev|k a|k]|]; simpl.
  - by apply awaits_dispatchEvent.
  - by apply (awaits_frame base c q w).
  - by apply (awaits_frame base c q w).
  - unfold run_microtask. destruct (microtasks w) as [|j rest] eqn:Hm; [done|].
    destruct (awaits_dequeue base c q j rest w Hm Haw) as [Haw' Hj].
    by apply awaits_run_job.
Qed.

Lemma awaits_run base c q schedule w :
  awaits base c q w -> awaits base c q (run schedule w).
Proof.
  unfold run. revert w. induction schedule as [|e l IH]; intros w Haw; simpl.
  - done.
  - apply IH. by apply awaits_env_act.
Qed.

(** With its listeners attached, the promise starts out waiting. *)
Lemma awaits_listening appName c w :
  wf_refs w ->
  let q := length (promises w) in
  awaits (trace (listening appName c w)) c q (listening appName c w).
Proof.
  intros (Hl & Hj & Hr) q.
  destruct (listening_frame appName c w) as (Ht & Hp & _ & _ & _ & _ & Hm & _).
  assert (forall c' l, l ∈ listeners (document (listening appName c w) c') ->
            l ∈ listeners (document w c') \/
            (c' = c /\ (l = ("unmount", unmountHandler c q) \/
                        l = ("afterhidden", afterhiddenHandler c q)))) as Hls.
  { intros c' l. unfold listening.
    rewrite !elem_of_listeners_addEventListener. fold q.
    change (document (entered appName w)) with (document w). naive_solver. }
  exists []. split_and!.
  - by rewrite app_nil_r.
  - split.
    + rewrite Hm. intros j Hin. specialize (Hj j Hin). subst q. lia.
    + rewrite Hp. intros p pr r Hpr Hin.
      apply lookup_app_Some in Hpr as [Hpr|[_ Hpr]].
      * specialize (Hr p pr r Hpr Hin). subst q. lia.
      * destruct (p - length (promises w)) as [|n]; simpl in Hpr; [|done].
        injection Hpr as <-. by apply elem_of_nil in Hin.
  - intros c' l Hin Htg. destruct (Hls c' l Hin) as [Hold|?]; [|done].
    specialize (Hl c' l Hold). subst q. lia.
  - left. split; [|by intros (ev & _ & ?%elem_of_nil)]. split_and!.
    + unfold state_of. rewrite Hp. by rewrite list_lookup_middle.
    + unfold listening. rewrite !elem_of_listeners_addEventListener. auto.
    + unfold listening. rewrite !elem_of_listeners_addEventListener. auto.
    + done.
Qed.

(** On a container that has a parent every way of detaching asks for
    the removal and returns normally. *)
Lemma detach_normal options c w par :
  parentNode (document w c) = Some par ->
  exists w' new,
    detach options c w = Normal w' /\
    trace w' = trace w ++ new /\
    Call_removeChild c ∈ new.
Proof.
  intros Hpar. unfold detach.
  destruct (wants_destroy options).
  { destruct (detach_destroy_result disconnectedCallback c w par Hpar)
      as (w_mid & new & w' & Hd & _ & _ & Ht_mid & _ & Ht & _).
    exists w'. eexists. split; [exact Hd|]. split.
    - rewrite Ht, Ht_mid, <- app_assoc. reflexivity.
    - set_solver. }
  assert (forall w0, parentNode (document w0 c) = Some par ->
            exists w' new, removeChild c w0 = Normal w' /\
              trace w' = trace w0 ++ Call_removeChild c :: new) as Hrem.
  { intros w0 Hp0. unfold removeChild. rewrite Hp0.
    set (w1 := record (Call_removeChild c) _).
    destruct (reacts_adapter_acts (disconnectedCallback c w1) w1)
      as (_ & _ & _ & _ & _ & new & Ht & _).
    eexists. exists new. split; [reflexivity|]. rewrite Ht. subst w1. simpl.
    by rewrite <- app_assoc. }
  destruct (wants_clearAliveState options && hasAttribute c "keep-alive" w).
  - unfold detach_clearAliveState.
    destruct (Hrem (removeAttribute c "keep-alive" w)) as (w1 & new & Hn & Ht);
      [by rewrite parentNode_removeAttribute|].
    rewrite Hn. simpl. eexists. eexists. split; [reflexivity|].
    autorewrite with world. rewrite Ht. autorewrite with world.
    rewrite <- !app_assoc. split; [reflexivity|]. set_solver.
  - destruct (Hrem w Hpar) as (w1 & new & Hn & Ht).
    exists w1. eexists. split; [exact Hn|]. split; [exact Ht|]. set_solver.
Qed.

(** X3 (the part of C7 that the code has).  For a visible application
    whose container sits in the document, [unmountApp] attaches its two
    listeners and only then asks for the removal.  From then on,
    whatever happens
    (events, registry updates, microtasks), the promise is pending with
    both listeners in place as long as the container has emitted
    neither [unmount] nor [afterhidden], and once it has emitted one the
    promise is fulfilled, it has been settled exactly once, and no
    listener for it is left on any element. *)
Theorem unmountApp_visible_waits (appName : string)
    (options : option unmountAppParams) (w : World) (app : AppInterface)
    (ct : Container) (par : nat) :
  wf_refs w ->
  JsMap.get (formatAppName appName) (appInstanceMap w) = Some app ->
  getAppState app <> UNMOUNT ->
  isPrefetch app = false ->
  getKeepAliveState app <> KEEP_ALIVE_HIDDEN ->
  container app = Some ct ->
  parentNode (document w (getRootContainer ct)) = Some par ->
  let c := getRootContainer ct in
  let q := (unmountApp appName options w).1 in
  let w' := (unmountApp appName options w).2 in
  forall schedule, exists rest,
    trace (run schedule w') =
      trace w ++ Call_unmountApp appName q ::
                 Call_addEventListener c "unmount" (unmountHandler c q) ::
                 Call_addEventListener c "afterhidden" (afterhiddenHandler c q) ::
                 rest /\
    Call_removeChild c ∈ rest /\
    ((~ emitted c rest /\
      state_of q (run schedule w') = Some Pending /\
      ("unmount", unmountHandler c q) ∈ listeners (document (run schedule w') c) /\
      ("afterhidden", afterhiddenHandler c q) ∈ listeners (document (run schedule w') c) /\
      count_settled q rest = 0) \/
     (emitted c rest /\
      state_of q (run schedule w') = Some Fulfilled /\
      (forall c' l, l ∈ listeners (document (run schedule w') c') -> target l.2 <> q) /\
      count_settled q rest = 1)).
Proof.
  intros Hwf Hget Hst Hpf Hka Hct Hpar c q w' schedule. subst q w'.
  rewrite (unmountApp_visible formatAppName getRootContainer disconnectedCallback
             _ _ _ _ _ Hget Hst Hpf Hka Hct).
  cbn zeta. fold c.
  destruct (listening_frame appName c w) as (Ht & _ & _ & _ & _ & _ & _ & Hel).
  assert (parentNode (document (listening appName c w) c) = Some par) as Hpar'
    by (destruct (Hel c) as [_ ->]; done).
  destruct (detach_normal options c _ par Hpar') as (w' & new & Hd & Htw' & Hrm).
  pose proof (detach_steps (fun p => p <> length (promises w)) disconnectedCallback
                options c (listening appName c w)) as Hsteps.
  rewrite Hd in Hsteps. rewrite Hd. cbn [fst snd completion_world] in *.
  pose proof (awaits_listening appName c w Hwf) as Haw. cbn zeta in Haw.
  apply (awaits_steps _ _ _ _ _ Hsteps) in Haw.
  apply (awaits_run _ _ _ schedule) in Haw.
  destruct Haw as (rest & Htr & _ & _ & Hcase).
  exists rest. split_and!.
  - rewrite Htr, Ht. by rewrite <- app_assoc.
  - destruct (run_evolves formatAppName getRootContainer disconnectedCallback
                schedule w') as (_ & _ & more & Hmore & _).
    rewrite Htw', Htr, <- app_assoc in Hmore.
    apply app_inv_head in Hmore. subst rest. apply elem_of_app. by left.
  - destruct Hcase as [[(Hp & H1 & H2 & Hc) Hne]|[(Hp & Hno & Hc) He]]; [left|right];
      split_and!; done.
Qed.

End Waiting.

Lemma unmountApp_visible_waits_witness :
  exists rest,
    trace
      (run Example.formatAppName Example.getRootContainer Example.lazy
         [Adapter (Emit 1 "afterhidden")]
         (unmountApp Example.formatAppName Example.getRootContainer Example.lazy
            "shown" None Example.page).2) =
    trace Example.page ++
      Call_unmountApp "shown" 0 ::
      Call_addEventListener 1 "unmount" (unmountHandler 1 0) ::
      Call_addEventListener 1 "afterhidden" (afterhiddenHandler 1 0) :: rest /\
    Call_removeChild 1 ∈ rest.
Proof.
  destruct (unmountApp_visible_waits Example.formatAppName Example.getRootContainer
Example.lazy "shown" None Example.page
              (Example.app MOUNTED KEEP_ALIVE_SHOWN false (Some (HTMLElement 1)))
              (HTMLElement 1) 0 page_wf_refs)
    with (schedule := [Adapter (Emit 1 "afterhidden")]) as (rest & Ht & Hr & _).
  - reflexivity.
  - discriminate.
  - reflexivity.
  - discriminate.
  - reflexivity.
  - reflexivity.
  - exists rest. split; [exact Ht | exact Hr].
Defined.

(** C7, as the specification states it, fails on the paths that do not
    go through the container: for an application that is already
    UNMOUNT the promise is fulfilled when [unmountApp] returns, no
    element having emitted any event. *)
Lemma resolves_without_any_event :
  let w' :=
    (unmountApp Example.formatAppName Example.getRootContainer Example.lazy
       "done" None Example.page).2 in
  state_of 0 w' = Some Fulfilled /\
  trace w' = [Call_unmountApp "done" 0; Settled 0 Fulfilled] /\
  forall c ev, Dispatched c ev ∉ trace w'.
Proof.
  assert (trace (unmountApp Example.formatAppName Example.getRootContainer
Example.lazy "done" None Example.page).2
          = [Call_unmountApp "done" 0; Settled 0 Fulfilled]) as Ht
    by (vm_compute; reflexivity).
  cbn zeta. split_and!.
  - vm_compute. reflexivity.
  - exact Ht.
  - intros c ev Hin. rewrite Ht in Hin.
    apply elem_of_cons in Hin as [?|Hin]; [done|].
    apply elem_of_cons in Hin as [?|Hin]; [done|].
    by apply elem_of_nil in Hin.
Qed.

(** * [unmountAllApps]: one application after the other *)

Lemma gate_from_app g tr1 tr2 :
  gate_from g (tr1 ++ tr2) = gate_from (gate_from g tr1) tr2.
Proof. apply fold_left_app. Qed.

Lemma gate_from_Broken tr : gate_from Broken tr = Broken.
Proof. induction tr as [|e tr IH]; [done|]. simpl. by destruct e as [| | | | | | | | |? []]. Qed.

Lemma gate_step_note g e : is_note e = true -> gate_step g e = g.
Proof. by destruct e, g. Qed.

(** The check is sound: a trace it accepts is sequential. *)
Lemma gate_from_sound tr : forall g,
  gate_from g tr <> Broken ->
  (forall tr1 n q tr2 n' q' tr3,
     tr = tr1 ++ Call_unmountApp n q :: tr2 ++ Call_unmountApp n' q' :: tr3 ->
     Settled q Fulfilled ∈ tr2) /\
  (forall q0 tr2 n' q' tr3,
     g = Busy q0 -> tr = tr2 ++ Call_unmountApp n' q' :: tr3 ->
     Settled q0 Fulfilled ∈ tr2).
Proof.
  induction tr as [|e tr IH]; intros g Hg.
  - split.
    + intros [|? ?] ? ? ? ? ? ? ?; done.
    + intros ? [|? ?] ? ? ? ? ?; done.
  - simpl in Hg. destruct (IH _ Hg) as [IH1 IH2]. split.
    + intros [|e1 tr1] n q tr2 n' q' tr3 Heq; simpl in Heq.
      * injection Heq as -> ->. eapply (IH2 q); [|done].
        destruct g; simpl in *; [done| |]; by rewrite gate_from_Broken in Hg.
      * injection Heq as -> ->. by eapply IH1.
    + intros q0 [|e2 tr2] n' q' tr3 -> Heq; simpl in Heq.
      * injection Heq as -> ->. simpl in Hg. by rewrite gate_from_Broken in Hg.
      * injection Heq as -> ->.
        destruct (decide (e2 = Settled q0 Fulfilled)) as [->|Hne]; [by left|].
        right. eapply (IH2 q0); [|done].
        destruct e2 as [| | | | | | | | |p s]; simpl in *; try done.
        -- by rewrite gate_from_Broken in Hg.
        -- destruct s; try done. case_decide; [congruence | done].
Qed.

Lemma gate_sequential tr : gate_from Open tr <> Broken -> sequential tr.
Proof. intros Hg. by destruct (gate_from_sound tr Open Hg) as [H _]. Qed.

Lemma calls_of_app tr1 tr2 : calls_of (tr1 ++ tr2) = calls_of tr1 ++ calls_of tr2.
Proof. apply omap_app. Qed.

(** What one small step does to promises, queue and trace: nothing but
    notes in the trace, or the fulfilment of one pending promise. *)
Lemma plain_effect ok w w' :
  plain ok w w' ->
  (promises w' = promises w /\ microtasks w' = microtasks w /\
   exists new, trace w' = trace w ++ new /\
               Forall (fun e => is_note e = true) new) \/
  (exists p pr,
     ok p /\ promises w !! p = Some pr /\ pstate pr = Pending /\
     promises w' = <[p := {| pstate := Fulfilled; reactions := [] |}]> (promises w) /\
     microtasks w' =
       microtasks w ++ map (fun r => PromiseReactionJob r Fulfilled) (reactions pr) /\
     trace w' = trace w ++ [Settled p Fulfilled]).
Proof.
  intros [m w0|s w0|s w0|l w0|e w0 He|c f w0 Hf|p w0 Hp].
  1-4,6: left; split_and!; try done; exists []; by rewrite app_nil_r.
  - left. split_and!; try done. exists [e]. split; [done|]. by constructor.
  - unfold resolve.
    destruct (promises w0 !! p) as [pr|] eqn:Hpr.
    + destruct (decide (pstate pr = Pending)) as [Hst|Hst].
      * right. exists p, pr.
        rewrite (settle_pending p Fulfilled w0 pr ltac:(done) Hpr Hst).
        split_and!; done.
      * left. rewrite (settle_settled p Fulfilled w0 pr Hpr Hst).
        split_and!; try done; exists []; by rewrite app_nil_r.
    + left. rewrite (settle_absent p Fulfilled w0 Hpr).
      split_and!; try done; exists []; by rewrite app_nil_r.
Qed.

Lemma gate_from_notes g new :
  Forall (fun e => is_note e = true) new -> gate_from g new = g.
Proof.
  intros Hn. revert g. induction Hn as [|e new He _ IH]; intros g; [done|].
  simpl. rewrite gate_step_note by done. apply IH.
Qed.

Lemma calls_of_notes new :
  Forall (fun e => is_note e = true) new -> calls_of new = [].
Proof.
  induction 1 as [|e new He _ IH]; [done|].
  change (e :: new) with ([e] ++ new). rewrite calls_of_app, IH.
  by destruct e.
Qed.

Section ChainFacts.
Variable L : nat.
Variable names : list string.
Variable options : option unmountAppParams.

Local Abbreviation free := (free L names).
Local Abbreviation chain_from := (chain_from L names options).
Local Abbreviation chain_state := (chain_state L names options).
Local Abbreviation chain_reactions := (chain_reactions L names options).
Local Abbreviation stage := (stage L names options).
Local Abbreviation called := (called L names options).

Lemma chain_state_frame k jobs loud w w' :
  promises w' = promises w -> microtasks w' = microtasks w ->
  listeners_ok free w' ->
  chain_state k jobs loud w -> chain_state k jobs loud w'.
Proof.
  intros Hp Hm Hl (Hj & Hlen & _ & Hch & Hq & Hloud).
  unfold chain_state, chain_from in *. rewrite Hp, Hm. done.
Qed.

(** A promise outside the chain that is not the loud one is settled. *)
Lemma chain_state_settle_quiet k jobs loud w w' p pr s :
  chain_state k jobs loud w ->
  free p -> promises w !! p = Some pr -> Some p <> (fst <$> loud) ->
  promises w' = <[p := {| pstate := s; reactions := [] |}]> (promises w) ->
  microtasks w' = microtasks w ++ map (fun r => PromiseReactionJob r s) (reactions pr) ->
  listeners_ok free w' ->
  chain_state k jobs loud w'.
Proof.
  intros (Hj & Hlen & _ & Hch & Hq & Hloud) Hfree Hpr Hne Hp Hm Hl.
  assert (reactions pr = []) as Hnil.
  { eapply Hq; [done| |done]. unfold free in Hfree. lia. }
  unfold chain_state, chain_from. rewrite Hm, Hnil, app_nil_r, Hp, length_insert.
  split_and!; try done.
  - intros i Hi. rewrite list_lookup_insert_ne; [by apply Hch|].
    unfold free in Hfree. lia.
  - intros p' pr' Hp' Hrange Hne'.
    destruct (decide (p = p')) as [<-|Hpp].
    + rewrite list_lookup_insert_eq in Hp' by (by eapply lookup_lt_Some).
      by injection Hp' as <-.
    + rewrite list_lookup_insert_ne in Hp' by done. by eapply Hq.
  - destruct loud as [[q rs]|]; [|done]. destruct Hloud as [Hfq Hpq].
    split; [done|]. rewrite list_lookup_insert_ne; [done|].
    intros ->. by apply Hne.
Qed.

(** The loud promise is settled: its reactions are queued. *)
Lemma chain_state_settle_loud k jobs q rs w w' s :
  chain_state k jobs (Some (q, rs)) w ->
  promises w' = <[q := {| pstate := s; reactions := [] |}]> (promises w) ->
  microtasks w' = microtasks w ++ map (fun r => PromiseReactionJob r s) rs ->
  listeners_ok free w' ->
  chain_state k (jobs ++ map (fun r => PromiseReactionJob r s) rs) None w'.
Proof.
  intros (Hj & Hlen & _ & Hch & Hq & [Hfq Hpq]) Hp Hm Hl.
  unfold chain_state, chain_from. rewrite Hm, Hj, Hp, length_insert.
  split_and!; try done.
  - intros i Hi. rewrite list_lookup_insert_ne; [by apply Hch|].
    unfold free in Hfq. lia.
  - intros p' pr' Hp' Hrange _.
    destruct (decide (q = p')) as [<-|Hpp].
    + rewrite list_lookup_insert_eq in Hp' by (by eapply lookup_lt_Some).
      by injection Hp' as <-.
    + rewrite list_lookup_insert_ne in Hp' by done. eapply Hq; [done|done|].
      simpl. congruence.
Qed.

Lemma gate_of_frame q w w' :
  promises w' !! q = promises w !! q -> gate_of q w' = gate_of q w.
Proof. intros Hp. unfold gate_of, state_of. by rewrite Hp. Qed.

Lemma chain_state_listeners k jobs loud w :
  chain_state k jobs loud w -> listeners_ok free w.
Proof. by intros (_ & _ & H & _). Qed.

(** One small step keeps the stage, or takes [at_wait] to [at_adopt]. *)
Lemma stage_plain base new w w' :
  plain free w w' ->
  trace w = base ++ new -> stage new w ->
  exists new', trace w' = base ++ new' /\ stage new' w' /\
    (forall k q, called k q new w -> called k q new' w').
Proof.
  intros Hstep Htr Hst.
  assert (forall k jobs loud, chain_state k jobs loud w -> listeners_ok free w')
    as Hlok.
  { intros k jobs loud Hcs. eapply plain_listeners_ok; [done|].
    by eapply chain_state_listeners. }
  destruct (plain_effect _ _ _ Hstep)
    as [(Hp & Hm & add & Ht & Hn)|(p & pr & Hfp & Hpr & Hpend & Hp & Hm & Ht)].
  - (* nothing but notes *)
    exists (new ++ add). split; [by rewrite Ht, Htr, app_assoc|].
    assert ((calls_of (new ++ add)).*1 = (calls_of new).*1) as Hcalls
      by (by rewrite calls_of_app, (calls_of_notes add Hn), app_nil_r).
    assert (gate_from Open (new ++ add) = gate_from Open new) as Hgate
      by (by rewrite gate_from_app, (gate_from_notes _ add Hn)).
    split.
    + destruct Hst as [k n Hn0 Hcs Hc Hg|k q jobs Hk Hjobs Hcs Hfq Hq Hc Hg
                      |k q Hk Hcs Hc Hg|k Hk Hcs Hc Hg|k jobs Hjobs Hcs Hc Hg Hnf
                      |Hcs Hc Hg Hfin].
      * eapply at_react; eauto using chain_state_frame; congruence.
      * eapply at_called; eauto using chain_state_frame; try congruence.
        rewrite Hgate, Hg. symmetry. apply gate_of_frame. by rewrite Hp.
      * eapply at_wait; eauto using chain_state_frame; congruence.
      * eapply at_adopt; eauto using chain_state_frame; congruence.
      * eapply at_dead; eauto using chain_state_frame; try congruence.
        unfold state_of. by rewrite Hp.
      * eapply at_done; eauto using chain_state_frame; try congruence.
        unfold state_of. by rewrite Hp.
    + intros k q (Hcs & Hfq & Hq & Hc & Hg). split_and!.
      * eauto using chain_state_frame.
      * done.
      * by rewrite Hp.
      * congruence.
      * rewrite Hgate, Hg. symmetry. apply gate_of_frame. by rewrite Hp.
  - (* a pending free promise is fulfilled *)
    exists (new ++ [Settled p Fulfilled]). split; [by rewrite Ht, Htr, app_assoc|].
    assert ((calls_of (new ++ [Settled p Fulfilled])).*1 = (calls_of new).*1) as Hcalls
      by (by rewrite calls_of_app, app_nil_r).
    assert (forall g, gate_from g (new ++ [Settled p Fulfilled]) =
                      gate_step (gate_from g new) (Settled p Fulfilled)) as Hgate
      by (intros g; by rewrite gate_from_app).
    assert (forall q, gate_step (gate_of q w) (Settled p Fulfilled) = gate_of q w')
      as Hgof.
    { intros q. unfold gate_of, state_of. rewrite Hp.
      destruct (decide (p = q)) as [<-|Hne].
      - rewrite list_lookup_insert_eq by (by eapply lookup_lt_Some).
        rewrite Hpr. simpl. rewrite Hpend. simpl. by rewrite decide_True.
      - rewrite list_lookup_insert_ne by done.
        case_bool_decide; simpl; [done|]. by rewrite decide_False. }
    assert (length (promises w') = length (promises w)) as Hlen
      by (by rewrite Hp, length_insert).
    assert (forall k jobs, chain_state k jobs None w -> chain_state k jobs None w')
      as Hquiet.
    { intros k jobs Hcs.
      eapply chain_state_settle_quiet;
        [exact Hcs|exact Hfp|exact Hpr|done|exact Hp|exact Hm|by eapply Hlok]. }
    assert (state_of (L + length names) w' = state_of (L + length names) w)
      as Hlast.
    { unfold state_of. rewrite Hp, list_lookup_insert_ne; [done|].
      unfold free in Hfp. lia. }
    split.
    + destruct Hst as [k n Hn0 Hcs Hc Hg|k q jobs Hk Hjobs Hcs Hfq Hq Hc Hg
                      |k q Hk Hcs Hc Hg|k Hk Hcs Hc Hg|k jobs Hjobs Hcs Hc Hg Hnf
                      |Hcs Hc Hg Hfin].
      * eapply at_react; [exact Hn0|by apply Hquiet|congruence|].
        by rewrite Hgate, Hg.
      * eapply at_called; [exact Hk|exact Hjobs|by apply Hquiet|exact Hfq|lia
                          |congruence|].
        by rewrite Hgate, Hg.
      * destruct (decide (p = q)) as [->|Hne].
        -- eapply at_adopt; [exact Hk| |congruence|].
           ++ pose proof (chain_state_settle_loud _ _ _ _ _ w' Fulfilled Hcs) as H.
              pose proof (Hlok _ _ _ Hcs) as Hl'.
              destruct Hcs as (_ & _ & _ & _ & _ & [_ Hq]).
              rewrite Hpr in Hq. injection Hq as ->. simpl in *.
              apply H; [exact Hp|exact Hm|exact Hl'].
           ++ rewrite Hgate, Hg. simpl. by rewrite decide_True.
        -- eapply at_wait; [exact Hk| |congruence|].
           ++ eapply chain_state_settle_quiet;
                [exact Hcs|exact Hfp|exact Hpr| |exact Hp|exact Hm|by eapply Hlok].
              simpl. congruence.
           ++ rewrite Hgate, Hg. simpl. by rewrite decide_False.
      * eapply at_adopt; [exact Hk|by apply Hquiet|congruence|].
        by rewrite Hgate, Hg.
      * eapply at_dead; [exact Hjobs|by apply Hquiet|congruence| |by rewrite Hlast].
        rewrite Hgate. destruct (gate_from Open new); simpl; try done.
        by case_decide.
      * eapply at_done; [by apply Hquiet|congruence| |by rewrite Hlast].
        by rewrite Hgate, Hg.
    + intros k q (Hcs & Hfq & Hq & Hc & Hg). split_and!.
      * by apply Hquiet.
      * done.
      * lia.
      * congruence.
      * by rewrite Hgate, Hg.
Qed.

Lemma stage_plains base w w' :
  plains free w w' ->
  forall new, trace w = base ++ new -> stage new w ->
  exists new', trace w' = base ++ new' /\ stage new' w' /\
    (forall k q, called k q new w -> called k q new' w').
Proof.
  induction 1 as [w|w w1 w' Hstep _ IH]; intros new Htr Hst.
  - exists new. done.
  - destruct (stage_plain base new w w1 Hstep Htr Hst) as (new1 & Htr1 & Hst1 & Hc1).
    destruct (IH new1 Htr1 Hst1) as (new' & Htr' & Hst' & Hc').
    exists new'. split_and!; [done|done|]. intros k q Hc. by apply Hc', Hc1.
Qed.

(** The stage [at_called] is [called] with the queue as it is. *)
Lemma called_stage k q new w :
  k < length names -> called k q new w -> stage new w.
Proof.
  intros Hk (Hcs & Hfq & Hq & Hc & Hg).
  eapply at_called; [exact Hk|by left|exact Hcs|exact Hfq|exact Hq|exact Hc|exact Hg].
Qed.

(** [unmountApp] allocates its promise and records the call. *)
Lemma called_entered k n new w :
  names !! k = Some n ->
  chain_state (k + 1) [] None w ->
  (calls_of new).*1 = take k names ->
  gate_from Open new = Open ->
  called k (length (promises w)) (new ++ [Call_unmountApp n (length (promises w))])
    (entered n w).
Proof.
  intros Hn (Hj & Hlen & Hl & Hch & Hq & _) Hc Hg.
  unfold called, chain_state, chain_from, entered. simpl.
  rewrite length_app. simpl. split_and!; try done.
  - lia.
  - intros i Hi. rewrite lookup_app_l by lia. by apply Hch.
  - intros p pr Hp Hrange _.
    destruct (decide (p < length (promises w))) as [Hlt|Hge].
    + rewrite lookup_app_l in Hp by done. by eapply Hq.
    + apply lookup_lt_Some in Hp as Hp'. rewrite length_app in Hp'. simpl in Hp'.
      replace p with (length (promises w) + 0) in Hp by lia.
      rewrite lookup_app_r, Nat.add_comm, Nat.add_sub in Hp by lia.
      by injection Hp as <-.
  - right. lia.
  - lia.
  - rewrite calls_of_app, fmap_app, Hc. simpl.
    rewrite Nat.add_1_r. symmetry. by apply take_S_r.
  - rewrite gate_from_app, Hg. simpl.
    unfold gate_of, state_of. simpl.
    rewrite lookup_app_r by lia. by rewrite Nat.sub_diag.
Qed.

(** Rejecting the promise of the call that runs. *)
Lemma called_reject k q new w :
  called k q new w ->
  exists add, trace (reject q w) = trace w ++ add /\
              called k q (new ++ add) (reject q w).
Proof.
  intros (Hcs & Hfq & Hq & Hc & Hg). unfold reject.
  destruct (lookup_lt_is_Some_2 _ _ Hq) as [pr Hpr].
  destruct (decide (pstate pr = Pending)) as [Hst|Hst].
  - exists [Settled q Rejected].
    rewrite (settle_pending q Rejected w pr ltac:(done) Hpr Hst).
    split; [done|]. unfold called. split_and!.
    + eapply chain_state_settle_quiet;
        [exact Hcs|exact Hfq|exact Hpr|done|done|done|].
      exact (chain_state_listeners _ _ _ _ Hcs).
    + done.
    + simpl. by rewrite length_insert.
    + by rewrite calls_of_app, app_nil_r.
    + rewrite gate_from_app, Hg. unfold gate_of, state_of. simpl.
      rewrite list_lookup_insert_eq by done. rewrite Hpr. simpl. rewrite Hst.
      by rewrite !bool_decide_eq_false_2.
  - exists []. rewrite (settle_settled q Rejected w pr Hpr Hst), !app_nil_r.
    done.
Qed.

Lemma chain_state_pop k j jobs loud w :
  chain_state k (j :: jobs) loud w ->
  chain_state k jobs loud (with_microtasks jobs w).
Proof. intros (Hj & Hrest). by split. Qed.

(** The chain promise [L + k] is settled: the reaction registered on
    it, if there is one, is queued. *)
Lemma chain_state_settle_head k s w :
  k <= length names -> s <> Pending ->
  chain_state k [] None w ->
  trace (settle (L + k) s w) = trace w ++ [Settled (L + k) s] /\
  state_of (L + k) (settle (L + k) s w) = Some s /\
  chain_state (k + 1) (map (fun r => PromiseReactionJob r s) (chain_reactions k))
    None (settle (L + k) s w).
Proof.
  intros Hk Hs (Hj & Hlen & Hl & Hch & Hq & _).
  pose proof (Hch k ltac:(lia)) as Hpr.
  rewrite (settle_pending (L + k) s w _ Hs Hpr eq_refl). split; [done|].
  split.
  { unfold state_of. simpl. by rewrite list_lookup_insert_eq by lia. }
  unfold chain_state, chain_from. simpl. rewrite Hj, length_insert.
  split_and!; try done.
  - intros i Hi. rewrite list_lookup_insert_ne by lia. apply Hch. lia.
  - intros p pr Hp Hrange _.
    destruct (decide (p = L + k)) as [->|Hne].
    + rewrite list_lookup_insert_eq in Hp by lia. by injection Hp as <-.
    + rewrite list_lookup_insert_ne in Hp by done.
      eapply Hq; [done|lia|done].
Qed.

Lemma called_enqueue k q new w :
  k < length names -> called k q new w ->
  stage new (enqueue (PromiseResolveThenableJob (L + k + 1) q) w).
Proof.
  intros Hk ((Hj & Hcs) & Hfq & Hq & Hc & Hg).
  eapply at_called; [exact Hk|by right| |exact Hfq|exact Hq|exact Hc|exact Hg].
  split; [|exact Hcs]. simpl. by rewrite Hj.
Qed.

(** The job that follows the promise [q] of the call registers the
    adoption on it. *)
Lemma called_register k q new w :
  k < length names -> called k q new w ->
  stage new (register q (Adopt (L + k + 1)) w).
Proof.
  intros Hk (Hcs & Hfq & Hq & Hc & Hg).
  destruct (lookup_lt_is_Some_2 _ _ Hq) as [pr Hpr].
  pose proof Hcs as (Hj & Hlen & Hl & Hch & Hquiet & _).
  assert (reactions pr = []) as Hnil.
  { eapply Hquiet; [done| |done]. unfold free in Hfq. lia. }
  assert (state_of q w = Some (pstate pr)) as Hstate
    by (unfold state_of; by rewrite Hpr).
  unfold register. rewrite Hpr.
  destruct (pstate pr) eqn:Hst.
  - eapply at_wait; [exact Hk| |exact Hc|].
    + unfold chain_state, chain_from. simpl. rewrite length_insert, Hnil.
      split_and!; try done.
      * intros i Hi. rewrite list_lookup_insert_ne; [by apply Hch|].
        unfold free in Hfq. lia.
      * intros p pr' Hp Hrange Hne.
        rewrite list_lookup_insert_ne in Hp by (simpl in Hne; congruence).
        by eapply Hquiet.
      * by rewrite list_lookup_insert_eq.
    + rewrite Hg. unfold gate_of. rewrite Hstate.
      by rewrite bool_decide_eq_false_2.
  - eapply at_adopt; [exact Hk| |exact Hc|].
    + destruct Hcs as (_ & Hcs). split; [|exact Hcs]. simpl. by rewrite Hj.
    + rewrite Hg. unfold gate_of. rewrite Hstate.
      by rewrite bool_decide_eq_true_2.
  - eapply (at_dead _ _ _ _ _ (k + 1)).
    + right. exists (Adopt (L + k + 1)). split; [done|]. simpl. lia.
    + destruct Hcs as (_ & Hcs). split; [|exact Hcs]. simpl. by rewrite Hj.
    + rewrite Hc. apply prefix_take.
    + rewrite Hg. unfold gate_of. by case_bool_decide.
    + unfold state_of. simpl. by rewrite (Hch (length names)) by lia.
Qed.

(** The promise of the call was fulfilled: the chain promise that
    follows it is fulfilled and the next name, if any, gets its turn. *)
Lemma stage_adopt k base new w :
  k < length names ->
  chain_state (k + 1) [] None w ->
  trace w = base ++ new ->
  (calls_of new).*1 = take (k + 1) names ->
  gate_from Open new = Open ->
  exists new', trace (settle (L + k + 1) Fulfilled w) = base ++ new' /\
               stage new' (settle (L + k + 1) Fulfilled w).
Proof.
  intros Hk Hcs Htr Hc Hg.
  destruct (chain_state_settle_head (k + 1) Fulfilled w ltac:(lia) ltac:(done) Hcs)
    as (Ht & Hful & Hcs').
  replace (L + k + 1) with (L + (k + 1)) by lia.
  exists (new ++ [Settled (L + (k + 1)) Fulfilled]).
  split; [by rewrite Ht, Htr, app_assoc|].
  unfold chain_reactions in Hcs'.
  destruct (names !! (k + 1)) as [n'|] eqn:Hn'.
  - eapply (at_react _ _ _ _ _ (k + 1) n'); [exact Hn'| | |].
    + exact Hcs'.
    + by rewrite calls_of_app, app_nil_r.
    + by rewrite gate_from_app, Hg.
  - apply lookup_ge_None in Hn'.
    assert (length names = k + 1) as Hlast by lia.
    eapply at_done.
    + rewrite Hlast. exact Hcs'.
    + rewrite calls_of_app, app_nil_r, Hc. apply take_ge. lia.
    + by rewrite gate_from_app, Hg.
    + rewrite Hlast. exact Hful.
Qed.

(** A rejection runs down the chain without a call. *)
Lemma stage_dead k base new w :
  1 <= k <= length names ->
  chain_state k [] None w ->
  trace w = base ++ new ->
  (calls_of new).*1 `prefix_of` names ->
  gate_from Open new <> Broken ->
  exists new', trace (settle (L + k) Rejected w) = base ++ new' /\
               stage new' (settle (L + k) Rejected w).
Proof.
  intros Hk Hcs Htr Hc Hg.
  destruct (chain_state_settle_head k Rejected w ltac:(lia) ltac:(done) Hcs)
    as (Ht & Hrej & Hcs').
  exists (new ++ [Settled (L + k) Rejected]).
  split; [by rewrite Ht, Htr, app_assoc|].
  unfold chain_reactions in Hcs'.
  destruct (names !! k) as [n'|] eqn:Hn'.
  - apply lookup_lt_Some in Hn' as Hlt.
    eapply (at_dead _ _ _ _ _ (k + 1)).
    + right. exists (ThenUnmount n' options (L + k + 1)).
      split; [done|]. simpl. lia.
    + exact Hcs'.
    + by rewrite calls_of_app, app_nil_r.
    + rewrite gate_from_app. simpl. by destruct (gate_from Open new).
    + destruct Hcs' as (_ & _ & _ & Hch' & _). unfold state_of.
      by rewrite (Hch' (length names)) by lia.
  - apply lookup_ge_None in Hn'.
    assert (k = length names) as Hlast by lia.
    eapply (at_dead _ _ _ _ _ (k + 1) []).
    + left. split; [done|lia].
    + exact Hcs'.
    + by rewrite calls_of_app, app_nil_r.
    + rewrite gate_from_app. simpl. by destruct (gate_from Open new).
    + rewrite <- Hlast, Hrej. done.
Qed.

(** *** The chain that [unmountAllApps] builds *)

Lemma built_start w0 :
  L = length (promises w0) -> built L names options w0 0 (newPromise Fulfilled w0).2.
Proof.
  intros HL. unfold built, newPromise. simpl.
  rewrite length_app, <- HL. simpl. split_and!; try done.
  - lia.
  - intros p Hp. rewrite lookup_app_l by lia. done.
  - rewrite lookup_app_r by lia. by rewrite HL, Nat.sub_diag.
  - intros j Hj. lia.
  - by rewrite app_nil_r.
Qed.

Lemma built_then w0 i w next :
  names !! i = Some next ->
  built L names options w0 i w ->
  (promise_then (L + i) next options w).1 = L + (i + 1) /\
  built L names options w0 (i + 1) (promise_then (L + i) next options w).2.
Proof.
  intros Hn (Hlen & Hold & HL & Hch & Hm & Hd & Ht & Ha & Hs & Hc & Hco).
  unfold promise_then, newPromise. simpl. split; [lia|].
  assert (promises w !! (L + i) =
          Some {| pstate := if decide (i = 0) then Fulfilled else Pending;
                  reactions := [] |}) as Hpre.
  { destruct (decide (i = 0)) as [->|Hi].
    - by rewrite Nat.add_0_r.
    - rewrite Hch by lia. by rewrite decide_False by lia. }
  unfold register. simpl. rewrite lookup_app_l by lia. rewrite Hpre. simpl.
  destruct (decide (i = 0)) as [->|Hi]; simpl.
  - unfold built. simpl. rewrite length_app, Hlen. simpl.
    split_and!; try done.
    + lia.
    + intros p Hp. rewrite lookup_app_l by lia. by apply Hold.
    + rewrite lookup_app_l by lia. done.
    + intros j Hj. assert (j = 1) as -> by lia.
      rewrite lookup_app_r by lia.
      by replace (L + 1 - length (promises w)) with 0 by lia.
    + rewrite Hm. simpl. unfold chain_reactions. rewrite Hn. simpl.
      by rewrite app_nil_r.
  - unfold built. simpl. rewrite length_insert, length_app, Hlen. simpl.
    split_and!; try done.
    + lia.
    + intros p Hp. rewrite list_lookup_insert_ne by lia.
      rewrite lookup_app_l by lia. by apply Hold.
    + rewrite list_lookup_insert_ne by lia. rewrite lookup_app_l by lia. done.
    + intros j Hj. destruct (decide (j = i)) as [->|Hji].
      * rewrite list_lookup_insert_eq by (rewrite length_app; simpl; lia).
        rewrite decide_True by lia.
        unfold chain_reactions. by rewrite Hn.
      * rewrite list_lookup_insert_ne by lia.
        destruct (decide (j < i)) as [Hlt|Hge].
        -- rewrite lookup_app_l by lia. rewrite Hch by lia.
           by rewrite !decide_True by lia.
        -- assert (j = i + 1) as -> by lia.
           rewrite lookup_app_r by lia.
           replace (L + (i + 1) - length (promises w)) with 0 by lia.
           by rewrite decide_False by lia.
    + rewrite Hm. by rewrite decide_False by lia.
Qed.

Lemma built_fold w0 : forall rest i d w,
  drop i names = rest -> i <= length names -> d = L + i ->
  built L names options w0 i w ->
  let r := fold_left (fun pre next => promise_then pre.1 next options pre.2)
             rest (d, w) in
  r.1 = L + length names /\ built L names options w0 (length names) r.2.
Proof.
  induction rest as [|next rest IH]; intros i d w Hdrop Hi -> Hb; simpl.
  - apply (f_equal length) in Hdrop. rewrite length_drop in Hdrop. simpl in Hdrop.
    by replace (length names) with i by lia.
  - assert (names !! i = Some next) as Hn.
    { rewrite <- (Nat.add_0_r i), <- lookup_drop, Hdrop. done. }
    destruct (built_then w0 i w next Hn Hb) as [Hd Hb'].
    destruct (promise_then (L + i) next options w) as [d' w'] eqn:Hpt.
    simpl in *. subst d'.
    apply (IH (i + 1)); [|by apply lookup_lt_Some in Hn; lia|done|done].
    rewrite Nat.add_1_r. erewrite drop_S in Hdrop by done. congruence.
Qed.

(** The chain as [unmountAllApps] leaves it. *)
Lemma built_stage w0 w :
  quiescent w0 -> L = length (promises w0) ->
  built L names options w0 (length names) w ->
  stage [] w.
Proof.
  intros (Hq0 & Hr0 & Hl0) HL (Hlen & Hold & HLf & Hch & Hm & Hd & Ht & _).
  assert (forall jobs, microtasks w = jobs -> chain_state 1 jobs None w) as Hcs.
  { intros jobs Hj. unfold chain_state, chain_from. split_and!; try done.
    - lia.
    - intros c l Hin. rewrite Hd in Hin. apply Hl0 in Hin. left. lia.
    - intros i Hi. rewrite Hch by lia.
      destruct (decide (i < length names)) as [Hlt|Hge]; [done|].
      unfold chain_reactions.
      by rewrite (proj2 (lookup_ge_None names i)) by lia.
    - intros p pr Hp Hrange _.
      apply lookup_lt_Some in Hp as Hlt.
      destruct (decide (p = L)) as [->|Hne].
      + rewrite HLf in Hp. by injection Hp as <-.
      + rewrite Hold in Hp by lia. by eapply Hr0. }
  rewrite Hq0 in Hm. simpl in Hm.
  destruct names as [|n0 rest] eqn:Hnames.
  - eapply at_done.
    + by apply Hcs.
    + done.
    + done.
    + unfold state_of. simpl. by rewrite Nat.add_0_r, HLf.
  - eapply (at_react _ _ _ _ _ 0 n0).
    + done.
    + by apply Hcs.
    + done.
    + done.
Qed.


Lemma unmountAllApps_stage w0 :
  quiescent w0 -> L = length (promises w0) -> names = getAllApps w0 ->
  trace (unmountAllApps options w0).2 = trace w0 /\
  stage [] (unmountAllApps options w0).2.
Proof.
  intros Hq HL Hnames. unfold unmountAllApps. rewrite <- Hnames.
  pose proof (built_fold w0 names 0 (newPromise Fulfilled w0).1
                (newPromise Fulfilled w0).2 (drop_0 names) ltac:(lia)) as Hb.
  rewrite <- surjective_pairing in Hb.
  specialize (Hb ltac:(simpl; lia) (built_start w0 HL)) as [_ Hb].
  split.
  - by destruct Hb as (_ & _ & _ & _ & _ & _ & Ht & _).
  - by apply (built_stage w0).
Qed.

Variable formatAppName : string -> string.
Variable getRootContainer : Container -> nat.
Variable disconnectedCallback : nat -> World -> list AdapterAct.

Local Abbreviation unmountApp := (unmountApp formatAppName getRootContainer disconnectedCallback).
Local Abbreviation run_job := (run_job formatAppName getRootContainer disconnectedCallback).
Local Abbreviation run_microtask := (run_microtask formatAppName getRootContainer disconnectedCallback).
Local Abbreviation env_act := (env_act formatAppName getRootContainer disconnectedCallback).
Local Abbreviation run := (run formatAppName getRootContainer disconnectedCallback).

(** The job that calls [unmountApp] for name [k]. *)
Lemma stage_react k n base new w :
  names !! k = Some n ->
  chain_state (k + 1) [] None w ->
  trace w = base ++ new ->
  (calls_of new).*1 = take k names ->
  gate_from Open new = Open ->
  let j := PromiseReactionJob (ThenUnmount n options (L + k + 1)) Fulfilled in
  exists new', trace (run_job j w) = base ++ new' /\ stage new' (run_job j w).
Proof.
  intros Hn Hcs Htr Hc Hg j.
  apply lookup_lt_Some in Hn as Hk.
  pose proof (called_entered k n new w Hn Hcs Hc Hg) as Hcalled.
  assert (free (length (promises w))) as Hfq by (by destruct Hcalled as (_ & H & _)).
  destruct (unmountApp_steps free formatAppName getRootContainer
              disconnectedCallback n options w Hfq) as (Hq & w2 & Hsteps & Hres).
  change (record _ _) with (entered n w) in Hsteps.
  apply steps_plains in Hsteps;
    [|destruct Hcalled as (H & _); by eapply chain_state_listeners].
  destruct (stage_plains base _ _ Hsteps
              (new ++ [Call_unmountApp n (length (promises w))]))
    as (new2 & Htr2 & _ & Hc2).
  { unfold entered. simpl. by rewrite Htr, app_assoc. }
  { by apply (called_stage k (length (promises w))). }
  specialize (Hc2 _ _ Hcalled).
  unfold j. simpl.
  destruct (unmountApp n options w) as [q w1]. simpl in Hq, Hres. subst q.
  destruct Hres as [->| ->].
  - exists new2. split; [done|]. by apply (called_enqueue k).
  - destruct (called_reject _ _ _ _ Hc2) as (add & Ht & Hc3).
    exists (new2 ++ add). split.
    + simpl. by rewrite Ht, Htr2, app_assoc.
    + by apply (called_enqueue k).
Qed.

(** One microtask takes the chain from a stage to a stage. *)
Lemma stage_run_microtask base new w :
  trace w = base ++ new -> stage new w ->
  exists new', trace (run_microtask w) = base ++ new' /\
               stage new' (run_microtask w).
Proof.
  intros Htr Hst. unfold run_microtask.
  destruct Hst as [k n Hn0 Hcs Hc Hg|k q jobs Hk Hjobs Hcs Hfq Hq Hc Hg
                  |k q Hk Hcs Hc Hg|k Hk Hcs Hc Hg|k jobs Hjobs Hcs Hc Hg Hnf
                  |Hcs Hc Hg Hfin].
  - pose proof Hcs as (Hj & _). rewrite Hj.
    apply (stage_react k n base new); [done|by apply (chain_state_pop _ _ _ _ _ Hcs)|done..].
  - pose proof Hcs as (Hj & _). rewrite Hj.
    destruct Hjobs as [->| ->].
    + exists new. split; [done|].
      eapply (at_called _ _ _ _ _ k q []);
        [exact Hk|by left|exact Hcs|exact Hfq|exact Hq|exact Hc|exact Hg].
    + exists new. simpl. split.
      { rewrite <- Htr. unfold register. simpl.
        destruct (promises w !! q) as [pr|]; [|done]. by destruct (pstate pr). }
      apply called_register; [done|].
      split_and!; try done. by apply (chain_state_pop _ _ _ _ _ Hcs).
  - pose proof Hcs as (Hj & _). rewrite Hj.
    exists new. split; [done|].
    eapply at_wait; [exact Hk|exact Hcs|exact Hc|exact Hg].
  - pose proof Hcs as (Hj & _). rewrite Hj.
    change (run_job _ _) with (settle (L + k + 1) Fulfilled (with_microtasks [] w)).
    apply (stage_adopt k base new); [done|by apply (chain_state_pop _ _ _ _ _ Hcs)|done..].
  - pose proof Hcs as (Hj & _). rewrite Hj.
    destruct Hjobs as [[-> ->]|(r & -> & Hr & Hk)].
    + exists new. split; [done|].
      eapply (at_dead _ _ _ _ _ _ []);
        [by left|exact Hcs|exact Hc|exact Hg|exact Hnf].
    + assert (run_job (PromiseReactionJob r Rejected) (with_microtasks [] w) =
              settle (L + k) Rejected (with_microtasks [] w)) as ->
        by (destruct r; simpl in *; by subst).
      apply (stage_dead k base new); [done|by apply (chain_state_pop _ _ _ _ _ Hcs)|done..].
  - pose proof Hcs as (Hj & _). rewrite Hj.
    exists new. split; [done|].
    eapply at_done; [exact Hcs|exact Hc|exact Hg|exact Hfin].
Qed.

Lemma stage_env_act base new e w :
  trace w = base ++ new -> stage new w ->
  exists new', trace (env_act e w) = base ++ new' /\ stage new' (env_act e w).
Proof.
  intros Htr Hst. destruct e as [a|]; simpl.
  - assert (listeners_ok free w) as Hl.
    { destruct Hst; by eapply chain_state_listeners. }
    destruct (stage_plains base _ _ (adapter_act_plains free a w Hl) new Htr Hst)
      as (new' & Htr' & Hst' & _).
    by exists new'.
  - by apply (stage_run_microtask base new).
Qed.

Lemma stage_run base schedule : forall new w,
  trace w = base ++ new -> stage new w ->
  exists new', trace (run schedule w) = base ++ new' /\ stage new' (run schedule w).
Proof.
  unfold run.
  induction schedule as [|e l IH]; intros new w Htr Hst; simpl.
  - by exists new.
  - destruct (stage_env_act base new e w Htr Hst) as (new1 & Htr1 & Hst1).
    by apply (IH new1).
Qed.

(** At every stage the calls are a prefix of the names and the gate
    is not broken. *)
Lemma stage_sequential new w :
  stage new w -> (calls_of new).*1 `prefix_of` names /\ sequential new.
Proof.
  intros Hst. split.
  - destruct Hst as [k n Hn0 Hcs Hc Hg|k q jobs Hk Hjobs Hcs Hfq Hq Hc Hg
                    |k q Hk Hcs Hc Hg|k Hk Hcs Hc Hg|k jobs Hjobs Hcs Hc Hg Hnf
                    |Hcs Hc Hg Hfin];
      try (rewrite Hc; apply prefix_take); try done.
    by rewrite Hc.
  - apply gate_sequential.
    destruct Hst as [k n Hn0 Hcs Hc Hg|k q jobs Hk Hjobs Hcs Hfq Hq Hc Hg
                    |k q Hk Hcs Hc Hg|k Hk Hcs Hc Hg|k jobs Hjobs Hcs Hc Hg Hnf
                    |Hcs Hc Hg Hfin];
      try (rewrite Hg); try done.
    unfold gate_of. by case_bool_decide.
Qed.

End ChainFacts.

(** X2.  [unmountAllApps] itself unmounts nothing: it allocates one
    promise for [Promise.resolve()] and one for each registered name
    and returns the last of them; the only job it queues is the
    reaction for the first name.  Registry, elements, console and
    older promises are as before and no call of [unmountApp] has been
    made when it returns.  With an empty registry the promise returned
    is already fulfilled; otherwise it is pending. *)
Theorem unmountAllApps_defers (options : option unmountAppParams) (w0 : World) :
  let r := unmountAllApps options w0 in
  let L := length (promises w0) in
  let names := getAllApps w0 in
  r.1 = L + length names /\
  length (promises r.2) = L + length names + 1 /\
  (forall p, p < L -> promises r.2 !! p = promises w0 !! p) /\
  state_of r.1 r.2 = Some (if decide (names = []) then Fulfilled else Pending) /\
  microtasks r.2 =
    microtasks w0 ++
    match names with
    | [] => []
    | n :: _ => [PromiseReactionJob (ThenUnmount n options (L + 1)) Fulfilled]
    end /\
  trace r.2 = trace w0 /\
  document r.2 = document w0 /\
  appInstanceMap r.2 = appInstanceMap w0 /\
  sandBoxes r.2 = sandBoxes w0 /\
  channels r.2 = channels w0 /\
  console r.2 = console w0.
Proof.
  cbn zeta. unfold unmountAllApps.
  pose proof (built_fold (length (promises w0)) (getAllApps w0) options w0
                (getAllApps w0) 0 (newPromise Fulfilled w0).1
                (newPromise Fulfilled w0).2 (drop_0 _) ltac:(lia)) as Hb.
  rewrite <- surjective_pairing in Hb.
  specialize (Hb ltac:(simpl; lia) (built_start _ _ _ w0 eq_refl))
    as (H1 & Hlen & Hold & HL & Hch & Hm & Hd & Ht & Ha & Hs & Hc & Hco).
  split_and!; try done.
  - unfold state_of. rewrite H1.
    destruct (getAllApps w0) as [|n rest] eqn:Hnames.
    + replace (length (promises w0) + length (@nil string))
        with (length (promises w0)) by (simpl; lia).
      by rewrite HL.
    + by rewrite Hch by (simpl; lia).
  - rewrite Hm. unfold chain_reactions.
    destruct (getAllApps w0) as [|n rest] eqn:Hnames; simpl; [done|].
    by rewrite Nat.add_0_r.
Qed.

Section Batch.
Variable formatAppName : string -> string.
Variable getRootContainer : Container -> nat.
Variable disconnectedCallback : nat -> World -> list AdapterAct.

Local Abbreviation run := (run formatAppName getRootContainer disconnectedCallback).




(** The trace of a batch under any schedule. *)
Lemma batch_trace options w0 schedule :
  quiescent w0 ->
  exists new,
    trace (run schedule (unmountAllApps options w0).2) = trace w0 ++ new /\
    (calls_of new).*1 `prefix_of` getAllApps w0 /\
    sequential new /\
    forall p, count_settled p new <= 1.
Proof.
  intros Hq.
  destruct (unmountAllApps_stage (length (promises w0)) (getAllApps w0) options
              w0 Hq eq_refl eq_refl) as [Ht Hst].
  destruct (stage_run (length (promises w0)) (getAllApps w0) options
              formatAppName getRootContainer
              disconnectedCallback (trace w0) schedule []
              (unmountAllApps options w0).2) as (new & Htr & Hst').
  { by rewrite Ht, app_nil_r. }
  { exact Hst. }
  exists new. split; [exact Htr|].
  destruct (stage_sequential _ _ _ _ _ Hst') as [Hpre Hseq].
  split_and!; [done|done|].
  destruct (run_evolves formatAppName getRootContainer disconnectedCallback
              schedule (unmountAllApps options w0).2) as (_ & _ & new' & Htr' & Hc).
  rewrite Ht, Htr in Htr'. apply app_inv_head in Htr' as <-.
  intros p. destruct (Hc p) as [[-> _]|[-> _]]; lia.
Qed.



(** X1 (the part of C3 that the code has).  [unmountAllApps] is called
    in a state where nothing is in flight.  Whatever the adapters do
    and whenever the microtasks run afterwards, [unmountApp] is called
    for a prefix of the names that were registered at the time of the
    call, in the order of the registry, and no call is made before the
    promise of the call before it has been fulfilled. *)
Theorem unmountAllApps_sequential (options : option unmountAppParams)
    (w0 : World) (schedule : list EnvAct) :
  quiescent w0 ->
  let w := run schedule (unmountAllApps options w0).2 in
  exists new,
    trace w = trace w0 ++ new /\
    (calls_of new).*1 `prefix_of` getAllApps w0 /\
    sequential new.
Proof.
  intros Hq w.
  destruct (batch_trace options w0 schedule Hq) as (new & Htr & Hpre & Hseq & _).
  by exists new.
Qed.



End Batch.

Lemma page_quiescent : quiescent Example.page.
Proof.
  split_and!.
  - done.
  - intros p pr Hp. done.
  - intros c l Hin. exfalso. unfold Example.page in Hin. simpl in Hin.
    unfold insert, fn_insert in Hin.
    repeat case_decide; simpl in Hin; by apply elem_of_nil in Hin.
Qed.

Lemma unmountAllApps_sequential_witness :
  quiescent Example.page /\
  exists new,
    trace (run Example.formatAppName Example.getRootContainer Example.prompt
             (repeat Microtask 15) (unmountAllApps None Example.page).2)
      = trace Example.page ++ new /\
    (calls_of new).*1 `prefix_of` getAllApps Example.page /\
    sequential new.
Proof.
  split; [exact page_quiescent|].
  exact (unmountAllApps_sequential Example.formatAppName Example.getRootContainer
Example.prompt None Example.page (repeat Microtask 15) page_quiescent).
Defined.

(** On the example page the batch gets through: fifteen microtasks,
    three for each application, and all five have been called. *)
Lemma unmountAllApps_page_calls :
  let w := run Example.formatAppName Example.getRootContainer Example.prompt
             (repeat Microtask 15) (unmountAllApps None Example.page).2 in
  (calls_of (trace w)).*1 = getAllApps Example.page /\
  state_of (unmountAllApps None Example.page).1 w = Some Fulfilled.
Proof. vm_compute. done. Qed.



(** * [unmountAllApps]: a batch that gets through *)

Section Progress.
Variable formatAppName : string -> string.
Variable getRootContainer : Container -> nat.
Variable disconnectedCallback : nat -> World -> list AdapterAct.

Local Abbreviation unmountApp := (unmountApp formatAppName getRootContainer disconnectedCallback).
Local Abbreviation executor := (executor formatAppName getRootContainer disconnectedCallback).
Local Abbreviation run_job := (run_job formatAppName getRootContainer disconnectedCallback).
Local Abbreviation run_microtask := (run_microtask formatAppName getRootContainer disconnectedCallback).
Local Abbreviation run := (run formatAppName getRootContainer disconnectedCallback).

(** Resolving the promise that was allocated last. *)
Lemma resolve_last (w1 : World) (old : list Promise) :
  promises w1 = old ++ [{| pstate := Pending; reactions := [] |}] ->
  resolve (length old) w1 =
  record (Settled (length old) Fulfilled)
    (with_promises (old ++ [{| pstate := Fulfilled; reactions := [] |}]) w1).
Proof.
  intros Hp. unfold resolve.
  assert (promises w1 !! length old = Some {| pstate := Pending; reactions := [] |})
    as Hq by (rewrite Hp; by apply list_lookup_middle).
  rewrite (settle_pending _ Fulfilled _ _ ltac:(done) Hq eq_refl).
  simpl. rewrite app_nil_r. f_equal.
  unfold with_microtasks, with_promises; simpl. f_equal.
  rewrite Hp. rewrite <- (Nat.add_0_r (length old)) at 1. by rewrite insert_app_r.
Qed.

(** On these ways [unmountApp] returns a promise that is fulfilled
    already and has touched neither registry nor elements nor queue. *)
Lemma unmountApp_at_once appName options w :
  settles_at_once options
    (JsMap.get (formatAppName appName) (appInstanceMap w)) = true ->
  let q := length (promises w) in
  let r := unmountApp appName options w in
  r.1 = q /\
  promises r.2 = promises w ++ [{| pstate := Fulfilled; reactions := [] |}] /\
  microtasks r.2 = microtasks w /\
  trace r.2 = trace w ++ [Call_unmountApp appName q; Settled q Fulfilled] /\
  appInstanceMap r.2 = appInstanceMap w /\
  document r.2 = document w /\
  sandBoxes r.2 = sandBoxes w /\
  channels r.2 = channels w.
Proof.
  intros Hat q r. subst r. rewrite unmountApp_unfold. cbn zeta. fold q.
  unfold executor.
  assert (forall w1,
            promises w1 = promises w ++ [{| pstate := Pending; reactions := [] |}] ->
            microtasks w1 = microtasks w ->
            trace w1 = trace w ++ [Call_unmountApp appName q] ->
            appInstanceMap w1 = appInstanceMap w ->
            document w1 = document w ->
            sandBoxes w1 = sandBoxes w ->
            channels w1 = channels w ->
            promises (resolve q w1)
              = promises w ++ [{| pstate := Fulfilled; reactions := [] |}] /\
            microtasks (resolve q w1) = microtasks w /\
            trace (resolve q w1)
              = trace w ++ [Call_unmountApp appName q; Settled q Fulfilled] /\
            appInstanceMap (resolve q w1) = appInstanceMap w /\
            document (resolve q w1) = document w /\
            sandBoxes (resolve q w1) = sandBoxes w /\
            channels (resolve q w1) = channels w) as Hres.
  { intros w1 Hp Hm Ht Ha Hd Hs Hc. subst q. rewrite (resolve_last w1 _ Hp).
    simpl. rewrite Ht, <- app_assoc. done. }
  destruct (JsMap.get (formatAppName appName) (appInstanceMap w)) as [a|];
    simpl in Hat.
  - destruct (bool_decide (getAppState a = UNMOUNT) || isPrefetch a).
    + apply negb_true_iff in Hat. rewrite Hat. simpl. split; [done|].
      by apply Hres.
    + destruct (bool_decide (getKeepAliveState a = KEEP_ALIVE_HIDDEN)); [|done].
      apply andb_true_iff in Hat as [Hd Hc].
      apply negb_true_iff in Hd, Hc. rewrite Hd, Hc. simpl. split; [done|].
      by apply Hres.
  - simpl. split; [done|]. by apply Hres.
Qed.

Section Advance.
Variable w0 : World.
Variable options : option unmountAppParams.

Local Abbreviation L := (length (promises w0)).
Local Abbreviation names := (getAllApps w0).
Local Abbreviation advanced := (advanced L names options w0).
Local Abbreviation chain_reactions := (chain_reactions L names options).

Hypothesis Hat : forall n, n ∈ names ->
  settles_at_once options
    (JsMap.get (formatAppName n) (appInstanceMap w0)) = true.

Lemma advanced_start :
  microtasks w0 = [] ->
  (unmountAllApps options w0).1 = L + length names /\
  advanced 0 [] (unmountAllApps options w0).2.
Proof.
  intros Hm0.
  pose proof (built_fold L names options w0
                names 0 (newPromise Fulfilled w0).1
                (newPromise Fulfilled w0).2 (drop_0 _) ltac:(lia)) as Hb.
  rewrite <- surjective_pairing in Hb.
  specialize (Hb ltac:(simpl; lia) (built_start _ _ _ w0 eq_refl))
    as (H1 & Hlen & Hold & HL & Hch & Hm & Hd & Ht & Ha & Hs & Hc & Hco).
  fold (unmountAllApps options w0) in *. split; [done|].
  unfold advanced. split_and!; try done.
  - rewrite Hm, Hm0. simpl.
    destruct (decide (length names = 0)) as [H0|H0]; [|done].
    unfold chain_reactions.
    by rewrite (proj2 (lookup_ge_None names 0)) by lia.
  - lia.
  - intros i Hi. assert (i = 0) as -> by lia. by rewrite Nat.add_0_r.
  - intros i Hi. rewrite Hch by lia.
    destruct (decide (i < length names)) as [Hlt|Hge]; [done|].
    unfold chain_reactions.
    by rewrite (proj2 (lookup_ge_None names i)) by lia.
  - by rewrite app_nil_r.
  - intros c ev Hin. by apply elem_of_nil in Hin.
Qed.

(** Three microtasks take the batch from one application to the next:
    the call, the adoption of its promise, the chain promise. *)
Lemma advanced_step k new w :
  k < length names ->
  advanced k new w ->
  exists new',
    advanced (k + 1) new' (run [Microtask; Microtask; Microtask] w).
Proof.
  intros Hk (Hm & Hlen & Hful & Hpend & Ha & Hd & Hs & Hc & Ht & Hcalls & Hnd).
  destruct (lookup_lt_is_Some_2 names k Hk) as [n Hn].
  unfold run. simpl.
  (* the job that calls [unmountApp] *)
  unfold run_microtask at 3. rewrite Hm.
  unfold chain_reactions at 1. rewrite Hn. cbn [map].
  cbn [run_job].
  set (w1 := with_microtasks [] w).
  destruct (unmountApp_at_once n options w1) as (Hq & Hp1 & Hm1 & Ht1 & Ha1 & Hd1 & Hs1 & Hc1).
  { change (appInstanceMap w1) with (appInstanceMap w). rewrite Ha.
    apply Hat. by eapply list_elem_of_lookup_2. }
  destruct (unmountApp n options w1) as [q w2]. cbn [fst snd] in *.
  change (promises w1) with (promises w) in *.
  change (microtasks w1) with (@nil Job) in *.
  change (trace w1) with (trace w) in *.
  change (appInstanceMap w1) with (appInstanceMap w) in *.
  change (document w1) with (document w) in *.
  change (sandBoxes w1) with (sandBoxes w) in *.
  change (channels w1) with (channels w) in *.
  clearbody w1.
  (* the job that follows its promise *)
  unfold run_microtask at 2. unfold enqueue at 1.
  cbn [microtasks with_microtasks]. rewrite Hm1. cbn [app].
  cbn [run_job].
  set (w3 := with_microtasks [] _).
  assert (promises w3 !! q = Some {| pstate := Fulfilled; reactions := [] |}) as Hq3.
  { subst w3. cbn [promises with_microtasks enqueue]. rewrite Hp1, Hq.
    by apply list_lookup_middle. }
  unfold register at 1. rewrite Hq3. cbn [pstate].
  (* the job that fulfils the chain promise *)
  unfold run_microtask at 1. unfold enqueue at 1.
  cbn [microtasks with_microtasks]. subst w3. cbn [microtasks with_microtasks app].
  cbn [run_job].
  set (w4 := with_microtasks [] _).
  assert (promises w4 = promises w ++ [{| pstate := Fulfilled; reactions := [] |}])
    as Hp4 by (subst w4; cbn [promises with_microtasks enqueue]; exact Hp1).
  assert (promises w4 !! (L + k + 1) =
          Some {| pstate := Pending; reactions := chain_reactions (k + 1) |}) as Hd4.
  { rewrite Hp4, lookup_app_l by lia.
    replace (L + k + 1) with (L + (k + 1)) by lia. apply Hpend. lia. }
  rewrite (settle_pending _ Fulfilled _ _ ltac:(done) Hd4 eq_refl).
  exists (new ++ [Call_unmountApp n q; Settled q Fulfilled;
                  Settled (L + k + 1) Fulfilled]).
  unfold advanced.
  cbn [microtasks promises appInstanceMap document sandBoxes channels trace
       record with_trace with_microtasks with_promises].
  subst w4. cbn [microtasks promises appInstanceMap document sandBoxes channels
                 trace with_microtasks enqueue].
  rewrite Hp1, length_insert, length_app. cbn [length app reactions].
  split_and!.
  - done.
  - lia.
  - intros i Hi. destruct (decide (i = k + 1)) as [->|Hne].
    + replace (L + (k + 1)) with (L + k + 1) by lia.
      rewrite list_lookup_insert_eq; [done|]. rewrite length_app. simpl. lia.
    + rewrite list_lookup_insert_ne by lia. rewrite lookup_app_l by lia.
      apply Hful. lia.
  - intros i Hi. rewrite list_lookup_insert_ne by lia.
    rewrite lookup_app_l by lia. apply Hpend. lia.
  - by rewrite Ha1.
  - by rewrite Hd1.
  - by rewrite Hs1.
  - by rewrite Hc1.
  - rewrite Ht1, Ht, Hq. by rewrite <- !app_assoc.
  - rewrite calls_of_app, fmap_app, Hcalls. simpl.
    rewrite Nat.add_1_r. symmetry. by apply take_S_r.
  - intros c ev. rewrite elem_of_app. intros [Hin|Hin]; [by apply (Hnd c ev)|].
    repeat (apply elem_of_cons in Hin as [?|Hin]; [done|]).
    by apply elem_of_nil in Hin.
Qed.

Lemma run_app l1 l2 w : run (l1 ++ l2) w = run l2 (run l1 w).
Proof. unfold run. apply fold_left_app. Qed.

Lemma advanced_run j : forall k new w,
  k + j = length names ->
  advanced k new w ->
  exists new',
    advanced (length names) new' (run (repeat Microtask (3 * j)) w).
Proof.
  induction j as [|j IH]; intros k new w Hkj Hadv.
  - simpl. exists new. by replace (length names) with k by lia.
  - replace (3 * S j) with (3 + 3 * j) by lia.
    rewrite repeat_app, run_app. simpl repeat.
    destruct (advanced_step k new w ltac:(lia) Hadv) as (new1 & Hadv1).
    apply (IH (k + 1) new1); [lia|done].
Qed.

End Advance.

(** X14.  A batch over applications that [unmountApp] settles at once
    (each is unmounted or a prefetch and [destroy] is not asked for,
    or hidden by keep-alive with no option set, or its name formats to
    one that is not registered) gets through in three microtasks for
    each name: [unmountApp] has then been called for every name, in
    the order of the registry, the promise that [unmountAllApps]
    returned is fulfilled, no event was dispatched, the queue is empty
    again, and registry and elements are as they were. *)
Theorem unmountAllApps_completes (options : option unmountAppParams) (w0 : World) :
  microtasks w0 = [] ->
  (forall n, n ∈ getAllApps w0 ->
     settles_at_once options
       (JsMap.get (formatAppName n) (appInstanceMap w0)) = true) ->
  let r := unmountAllApps options w0 in
  let w := run (repeat Microtask (3 * length (getAllApps w0))) r.2 in
  state_of r.1 w = Some Fulfilled /\
  microtasks w = [] /\
  appInstanceMap w = appInstanceMap w0 /\
  document w = document w0 /\
  exists new,
    trace w = trace w0 ++ new /\
    (calls_of new).*1 = getAllApps w0 /\
    (forall c ev, Dispatched c ev ∉ new).
Proof.
  intros Hm0 Hat r w.
  destruct (advanced_start w0 options Hm0) as [H1 Hadv0].
  destruct (advanced_run w0 options Hat (length (getAllApps w0)) 0 []
              (unmountAllApps options w0).2 ltac:(lia) Hadv0)
    as (new & Hm & Hlen & Hful & Hpend & Ha & Hd & Hs & Hc & Ht & Hcalls & Hnd).
  fold r in Hm, Hlen, Hful, Hpend, Ha, Hd, Hs, Hc, Ht. fold w in Hm, Hlen, Hful, Ha, Hd, Ht.
  fold r in H1. split_and!.
  - unfold state_of. rewrite H1, Hful by lia. done.
  - rewrite Hm. unfold chain_reactions.
    by rewrite (proj2 (lookup_ge_None (getAllApps w0) _)) by lia.
  - done.
  - done.
  - exists new. split_and!; [done| |done].
    by rewrite Hcalls, firstn_all.
Qed.

End Progress.

Lemma unmountAllApps_completes_witness :
  let r := unmountAllApps None Example.idle in
  let w := run Example.formatAppName Example.getRootContainer Example.lazy
             (repeat Microtask 12) r.2 in
  state_of r.1 w = Some Fulfilled /\
  appInstanceMap w = appInstanceMap Example.idle.
Proof.
  destruct (unmountAllApps_completes Example.formatAppName
Example.getRootContainer Example.lazy None Example.idle)
    as (H1 & _ & H2 & _).
  - reflexivity.
  - assert (Forall (fun n =>
              settles_at_once None
                (JsMap.get (Example.formatAppName n)
                   (appInstanceMap Example.idle)) = true)
              (getAllApps Example.idle)) as HF
      by (repeat constructor).
    intros n Hn. exact (proj1 (list.Forall_forall _ _) HF n Hn).
  - split; [exact H1 | exact H2].
Defined.

(** * [MicroApp.start] *)

Section StartFacts.
  Variable formatAppName : string -> string.

  Local Abbreviation start := (MicroApp.start formatAppName).

Lemma literal_prefix lit s :
    match MicroApp.literal lit s with Some _ => true | None => false end
    = String.prefix lit s.
  Proof.
    revert s. induction lit as [|a lit IH]; intros [|b s]; simpl; try done.
    rewrite <- IH. destruct (Ascii.eqb_spec a b) as [->|Hne].
    - by destruct (Ascii.ascii_dec b b).
    - by destruct (Ascii.ascii_dec a b).
  Qed.

  (** The pattern has no end anchor and its group is optional: it
      accepts exactly the names that begin with [micro-app]. *)
Lemma test_tagName_prefix s :
    MicroApp.test_tagName s = String.prefix "micro-app" s.
  Proof.
    unfold MicroApp.test_tagName. rewrite <- literal_prefix.
    destruct (MicroApp.literal "micro-app" s) as [rest|]; [|done].
    by destruct (MicroApp.dash_word rest).
  Qed.

Lemma init_options_frame options st :
    MicroApp.log (MicroApp.init_options formatAppName options st) = MicroApp.log st /\
    MicroApp.window (MicroApp.init_options formatAppName options st) = MicroApp.window st /\
    MicroApp.tagName (MicroApp.this (MicroApp.init_options formatAppName options st))
      = MicroApp.tagName (MicroApp.this st) /\
    exists mid,
      MicroApp.calls (MicroApp.init_options formatAppName options st)
        = MicroApp.calls st ++ mid /\
      Forall (fun c => is_prefetch_call c = true) mid.
  Proof.
    destruct options as [o|]; simpl.
    - destruct (MicroApp.opt_isPlainObject o);
        [|split_and!; try done; exists []; by rewrite app_nil_r].
      destruct (MicroApp.opt_preFetchApps o), (MicroApp.opt_globalAssets o); simpl;
        split_and!; try done; eexists; (split; [|shelve]);
        rewrite <- ?app_assoc; try reflexivity; by rewrite app_nil_r.
      Unshelve. all: repeat constructor.
    - split_and!; try done. exists []. by rewrite app_nil_r.
  Qed.

  (** C8, as the code has it.  [start] returns early in three cases,
      each reported with one log entry and none making a call:
      unsupported environment (an error), a given tag name that the
      pattern rejects (an error), and an element already defined under
      the tag name (a warning, the given tag name being stored by
      then).  In every other case nothing is logged, the global
      environment is initialised and the element is defined. *)
Theorem start_cases (options : option MicroApp.OptionsType) (st : MicroApp.State) :
    let st' := start options st in
    let tag := effective_tagName options st in
    (supported st = None ->
       st' = MicroApp.say (Error "micro-app is not supported in this environment") st /\
       start_aborted st st') /\
    (forall defined t,
       supported st = Some defined ->
       MicroApp.given_tagName options = Some t ->
       MicroApp.test_tagName t = false ->
       st' = MicroApp.say (Error (t +:+ " is invalid tagName")) st /\
       start_aborted st st') /\
    (forall defined,
       supported st = Some defined ->
       MicroApp.test_tagName tag = true \/ MicroApp.given_tagName options = None ->
       tag ∈ defined ->
       MicroApp.log st' =
         MicroApp.log st ++ [Warn ("element " +:+ tag +:+ " is already defined")] /\
       MicroApp.tagName (MicroApp.this st') = tag /\
       start_aborted st st') /\
    (forall defined,
       supported st = Some defined ->
       MicroApp.test_tagName tag = true \/ MicroApp.given_tagName options = None ->
       tag ∉ defined ->
       MicroApp.log st' = MicroApp.log st /\
       MicroApp.tagName (MicroApp.this st') = tag /\
       supported st' = Some (defined ++ [tag]) /\
       exists mid,
         MicroApp.calls st' =
           MicroApp.calls st ++ MicroApp.Call_initGlobalEnv :: mid ++
             [MicroApp.Call_defineElement tag] /\
         Forall (fun c => is_prefetch_call c = true) mid).
  Proof.
    cbn zeta. unfold supported, effective_tagName, start_aborted, MicroApp.start.
    destruct (MicroApp.window st) as [win|] eqn:Hwin; simpl;
      [destruct (MicroApp.customElements win) as [defined|] eqn:Hdef; simpl|].
    2,3: split_and!; try done; by rewrite ?Hwin.
    split_and!; [done| | |].
    - intros ? t [= <-] Ht Htest. rewrite Ht, Htest. simpl. by rewrite Hwin.
    - intros ? [= <-] Hvalid Hin.
      destruct (MicroApp.given_tagName options) as [t|] eqn:Ht.
      + destruct Hvalid as [Hv|]; [|done]. rewrite Hv. simpl.
        rewrite bool_decide_eq_true_2 by done. simpl. by rewrite Hwin.
      + rewrite bool_decide_eq_true_2 by done. simpl. by rewrite Hwin.
    - intros ? [= <-] Hvalid Hnin.
      assert (forall st0,
                MicroApp.window st0 = Some win ->
                MicroApp.log st0 = MicroApp.log st ->
                MicroApp.calls st0 = MicroApp.calls st ->
                let tag := MicroApp.tagName (MicroApp.this st0) in
                let st1 := MicroApp.call MicroApp.Call_initGlobalEnv st0 in
                let st2 := MicroApp.init_options formatAppName options st1 in
                let st' := MicroApp.defineElement (MicroApp.tagName (MicroApp.this st2)) st2 in
                MicroApp.log st' = MicroApp.log st /\
                MicroApp.tagName (MicroApp.this st') = tag /\
                MicroApp.window st' ≫= MicroApp.customElements = Some (defined ++ [tag]) /\
                exists mid,
                  MicroApp.calls st' =
                    MicroApp.calls st ++ MicroApp.Call_initGlobalEnv :: mid ++
                      [MicroApp.Call_defineElement tag] /\
                  Forall (fun c => is_prefetch_call c = true) mid) as Hrun.
      { intros st0 Hw0 Hl0 Hc0. cbn zeta.
        destruct (init_options_frame options
                    (MicroApp.call MicroApp.Call_initGlobalEnv st0))
          as (Hl & Hw & Htag & mid & Hc & Hmid).
        simpl. rewrite Hl, Hw, Htag, Hc. simpl. rewrite Hw0, Hl0, Hc0. simpl.
        rewrite Hdef. simpl. split_and!; try done.
        exists mid. split; [|done]. by rewrite <- !app_assoc. }
      destruct (MicroApp.given_tagName options) as [t|] eqn:Ht.
      + destruct Hvalid as [Hv|]; [|done]. rewrite Hv. simpl.
        rewrite bool_decide_eq_false_2 by done. by apply Hrun.
      + rewrite bool_decide_eq_false_2 by done. by apply Hrun.
  Qed.

End StartFacts.

Lemma start_cases_witness :
  MicroApp.log
    (MicroApp.start Example.formatAppName (StartExample.named "micro-app-demo")
       (StartExample.browser ["micro-app-demo"]))
  = [Warn "element micro-app-demo is already defined"].
Proof.
  destruct (start_cases Example.formatAppName (StartExample.named "micro-app-demo")
              (StartExample.browser ["micro-app-demo"])) as (_ & _ & H & _).
  destruct (H ["micro-app-demo"]) as (Hlog & _).
  - reflexivity.
  - left. reflexivity.
  - apply (bool_decide_unpack _). vm_compute. exact I.
  - exact Hlog.
Defined.

(** C8, as the specification states it, fails: in a supported
    environment a tag name that the pattern rejects aborts start-up just
    as an unsupported environment does.  One error is logged and
    nothing is initialised or defined. *)
Lemma start_aborted_though_supported :
  let st := StartExample.browser [] in
  let st' := MicroApp.start Example.formatAppName (StartExample.named "my-app") st in
  supported st = Some [] /\
  start_aborted st st' /\
  st' = MicroApp.say (Error "my-app is invalid tagName") st /\
  ~ (start_aborted st st' -> supported st = None).
Proof.
  vm_compute. split_and!; try done. intros H. by specialize (H (conj eq_refl eq_refl)).
Qed.
(** * [unmountApp]: the other ways out of the visible branch *)

Section UnmountMore.
Variable formatAppName : string -> string.
Variable getRootContainer : Container -> nat.
Variable disconnectedCallback : nat -> World -> list AdapterAct.

Local Abbreviation unmountApp := (unmountApp formatAppName getRootContainer disconnectedCallback).
Local Abbreviation detach := (detach disconnectedCallback).
Local Abbreviation detach_clearAliveState := (detach_clearAliveState disconnectedCallback).
Local Abbreviation detach_destroy := (detach_destroy disconnectedCallback).
Local Abbreviation removeChild := (removeChild disconnectedCallback).

(** The removal of a container that has a parent: the adapter reacts
    in the state [w_mid], in which the container is detached. *)
Lemma removeChild_result c w par :
  parentNode (document w c) = Some par ->
  exists w_mid new w',
    removeChild c w = Normal w' /\
    (forall c', attributes (document w_mid c') = attributes (document w c')) /\
    trace w_mid = trace w ++ [Call_removeChild c] /\
    w' = adapter_acts (disconnectedCallback c w_mid) w_mid /\
    Forall (fun e => is_dispatch_event e = true) new /\
    trace w' = trace w_mid ++ new /\
    (forall c', attributes (document w' c') = attributes (document w c')) /\
    (forall c', parentNode (document w' c') =
                if decide (c = c') then None else parentNode (document w c')).
Proof.
  intros Hpar. unfold removeChild. rewrite Hpar.
  set (w_mid := record (Call_removeChild c) _).
  destruct (reacts_adapter_acts (disconnectedCallback c w_mid) w_mid)
    as (_ & _ & _ & _ & Hd & new & Ht & Hn).
  assert (forall c', attributes (document w_mid c') = attributes (document w c'))
    as Hattr.
  { intros c'. subst w_mid. cbn [document record with_trace].
    rewrite element_update. by destruct (decide (c = c')) as [->|]. }
  assert (forall c', parentNode (document w_mid c') =
            if decide (c = c') then None else parentNode (document w c')) as Hp.
  { intros c'. subst w_mid. cbn [document record with_trace].
    rewrite element_update. by destruct (decide (c = c')) as [->|]. }
  exists w_mid, new, (adapter_acts (disconnectedCallback c w_mid) w_mid).
  split_and!; try done.
  - intros c'. destruct (Hd c') as [-> _]. apply Hattr.
  - intros c'. destruct (Hd c') as [_ ->]. apply Hp.
Qed.

Lemma not_rejected p w : alive p w -> state_of p w <> Some Rejected.
Proof. intros [H|H] Hr; rewrite H in Hr; done. Qed.

(** What the visible branch has done when it comes to the removal. *)
Lemma unmountApp_visible_normal appName options w app ct par :
  JsMap.get (formatAppName appName) (appInstanceMap w) = Some app ->
  getAppState app <> UNMOUNT ->
  isPrefetch app = false ->
  getKeepAliveState app <> KEEP_ALIVE_HIDDEN ->
  container app = Some ct ->
  parentNode (document w (getRootContainer ct)) = Some par ->
  let c := getRootContainer ct in
  exists w',
    detach options c (listening appName c w) = Normal w' /\
    unmountApp appName options w = (length (promises w), w') /\
    alive (length (promises w)) w'.
Proof.
  intros Hget Hst Hpf Hka Hct Hpar c.
  rewrite (unmountApp_visible _ _ _ _ _ _ _ _ Hget Hst Hpf Hka Hct). cbn zeta.
  fold c.
  destruct (listening_frame appName c w) as (_ & _ & _ & _ & _ & _ & _ & Hel).
  assert (parentNode (document (listening appName c w) c) = Some par) as Hpar'
    by (destruct (Hel c) as [_ ->]; done).
  destruct (detach_normal disconnectedCallback options c _ par Hpar')
    as (w' & new & Hd & _).
  pose proof (detach_steps (fun _ => True) disconnectedCallback options c
                (listening appName c w)) as Hsteps.
  rewrite Hd in *. exists w'. split_and!; try done.
  eapply steps_alive; [exact Hsteps | apply alive_listening].
Qed.

(** X4.  A visible application whose container sits in the document
    and carries [keep-alive], unmounted with [clearAliveState] and
    without [destroy]: the attribute is taken off before the removal
    is requested, so the adapter finds the container without it, and
    it is written back with its old value afterwards.  When the call
    returns no attribute of any element differs from before, the
    container is detached and the promise is not rejected. *)
Theorem unmountApp_clearAliveState_restores_keep_alive (appName : string)
    (options : option unmountAppParams) (w : World) (app : AppInterface)
    (ct : Container) (par : nat) (v : string) :
  JsMap.get (formatAppName appName) (appInstanceMap w) = Some app ->
  getAppState app <> UNMOUNT ->
  isPrefetch app = false ->
  getKeepAliveState app <> KEEP_ALIVE_HIDDEN ->
  container app = Some ct ->
  parentNode (document w (getRootContainer ct)) = Some par ->
  wants_destroy options = false ->
  wants_clearAliveState options = true ->
  getAttribute (getRootContainer ct) "keep-alive" w = Some v ->
  let c := getRootContainer ct in
  let p := (unmountApp appName options w).1 in
  let w' := (unmountApp appName options w).2 in
  getAttribute c "keep-alive" w' = Some v /\
  (forall c', attributes (document w' c') = attributes (document w c')) /\
  parentNode (document w' c) = None /\
  state_of p w' <> Some Rejected /\
  exists w_mid new,
    hasAttribute c "keep-alive" w_mid = false /\
    trace w_mid = trace w ++
      [Call_unmountApp appName p;
       Call_addEventListener c "unmount" (unmountHandler c p);
       Call_addEventListener c "afterhidden" (afterhiddenHandler c p);
       Call_removeAttribute c "keep-alive";
       Call_removeChild c] /\
    Forall (fun e => is_dispatch_event e = true) new /\
    trace w' = trace w_mid ++ new ++ [Call_setAttribute c "keep-alive" v].
Proof.
  intros Hget Hst Hpf Hka Hct Hpar Hd Hc Hv c p w'.
  destruct (unmountApp_visible_normal appName options w app ct par
              Hget Hst Hpf Hka Hct Hpar) as (w2 & Hdet & Hres & Halive).
  fold c in Hdet. subst p w'. rewrite Hres. cbn [fst snd].
  destruct (listening_frame appName c w) as (Ht & _ & _ & _ & _ & _ & _ & Hel).
  set (w1 := listening appName c w) in *.
  assert (getAttribute c "keep-alive" w1 = Some v) as Hv1.
  { unfold getAttribute. destruct (Hel c) as [-> _]. exact Hv. }
  assert (hasAttribute c "keep-alive" w1 = true) as Hhas.
  { unfold hasAttribute. apply bool_decide_eq_true_2.
    unfold getAttribute in Hv1. by rewrite Hv1. }
  unfold detach in Hdet. rewrite Hd, Hc, Hhas in Hdet. simpl in Hdet.
  unfold detach_clearAliveState in Hdet. rewrite Hv1 in Hdet.
  simpl in Hdet.
  destruct (removeChild_result c (removeAttribute c "keep-alive" w1) par)
    as (w_mid & new & w3 & Hrem & Ha_mid & Ht_mid & _ & Hn & Ht3 & Ha3 & Hp3).
  { rewrite parentNode_removeAttribute. by destruct (Hel c) as [_ ->]. }
  rewrite Hrem in Hdet. simpl in Hdet. injection Hdet as <-.
  assert (attributes (document w3 c) =
          delete "keep-alive" (attributes (document w c))) as Hdel.
  { rewrite Ha3, attributes_removeAttribute, decide_True by done.
    by destruct (Hel c) as [-> _]. }
  split_and!.
  - unfold getAttribute. rewrite attributes_setAttribute, decide_True by done.
    apply lookup_insert_eq.
  - intros c'. rewrite attributes_setAttribute.
    destruct (decide (c = c')) as [<-|Hne].
    + rewrite Hdel, insert_delete_id; [done|]. exact Hv.
    + rewrite Ha3, attributes_removeAttribute, decide_False by done.
      by destruct (Hel c') as [-> _].
  - rewrite parentNode_setAttribute, Hp3. by rewrite decide_True.
  - by apply not_rejected.
  - exists w_mid, new. split_and!.
    + unfold hasAttribute. apply bool_decide_eq_false_2.
      rewrite Ha_mid, attributes_removeAttribute, decide_True by done.
      rewrite lookup_delete_eq. by intros [? ?].
    + rewrite Ht_mid. autorewrite with world. fold w1. rewrite Ht.
      by rewrite <- !app_assoc.
    + exact Hn.
    + autorewrite with world. rewrite Ht3. by rewrite <- app_assoc.
Qed.

(** X5.  A visible application whose container sits in the document,
    unmounted without [destroy], and either without [clearAliveState]
    or with a container that carries no [keep-alive]: after attaching
    its listeners [unmountApp] asks for the removal and does nothing
    else.  No attribute is set or removed; all that follows the removal
    in the trace is what the adapter's events bring about. *)
Theorem unmountApp_plain_removal (appName : string)
    (options : option unmountAppParams) (w : World) (app : AppInterface)
    (ct : Container) (par : nat) :
  JsMap.get (formatAppName appName) (appInstanceMap w) = Some app ->
  getAppState app <> UNMOUNT ->
  isPrefetch app = false ->
  getKeepAliveState app <> KEEP_ALIVE_HIDDEN ->
  container app = Some ct ->
  parentNode (document w (getRootContainer ct)) = Some par ->
  wants_destroy options = false ->
  wants_clearAliveState options = false \/
    hasAttribute (getRootContainer ct) "keep-alive" w = false ->
  let c := getRootContainer ct in
  let p := (unmountApp appName options w).1 in
  let w' := (unmountApp appName options w).2 in
  (forall c', attributes (document w' c') = attributes (document w c')) /\
  parentNode (document w' c) = None /\
  state_of p w' <> Some Rejected /\
  exists new,
    Forall (fun e => is_dispatch_event e = true) new /\
    trace w' = trace w ++
      [Call_unmountApp appName p;
       Call_addEventListener c "unmount" (unmountHandler c p);
       Call_addEventListener c "afterhidden" (afterhiddenHandler c p);
       Call_removeChild c] ++ new.
Proof.
  intros Hget Hst Hpf Hka Hct Hpar Hd Hc c p w'.
  destruct (unmountApp_visible_normal appName options w app ct par
              Hget Hst Hpf Hka Hct Hpar) as (w2 & Hdet & Hres & Halive).
  fold c in Hdet. subst p w'. rewrite Hres. cbn [fst snd].
  destruct (listening_frame appName c w) as (Ht & _ & _ & _ & _ & _ & _ & Hel).
  set (w1 := listening appName c w) in *.
  assert ((wants_clearAliveState options && hasAttribute c "keep-alive" w1) = false)
    as Hno.
  { destruct Hc as [->|Hc]; [done|]. apply andb_false_intro2.
    unfold hasAttribute in *. destruct (Hel c) as [-> _]. exact Hc. }
  unfold detach in Hdet. rewrite Hd, Hno in Hdet.
  destruct (removeChild_result c w1 par)
    as (w_mid & new & w3 & Hrem & _ & Ht_mid & _ & Hn & Ht3 & Ha3 & Hp3).
  { by destruct (Hel c) as [_ ->]. }
  rewrite Hrem in Hdet. injection Hdet as <-.
  split_and!.
  - intros c'. rewrite Ha3. by destruct (Hel c') as [-> _].
  - rewrite Hp3. by rewrite decide_True.
  - by apply not_rejected.
  - exists new. split; [exact Hn|].
    rewrite Ht3, Ht_mid, Ht. by rewrite <- !app_assoc.
Qed.

(** On a container without a parent the removal throws; what was done
    to the attributes before stays done. *)
Lemma detach_detached options c w :
  parentNode (document w c) = None ->
  detach options c w =
  Throw (if wants_destroy options then setAttribute c "destroy" "true" w
         else if wants_clearAliveState options && hasAttribute c "keep-alive" w
              then removeAttribute c "keep-alive" w
              else w).
Proof.
  intros Hpar. unfold detach.
  destruct (wants_destroy options).
  - unfold detach_destroy, removeChild.
    by rewrite parentNode_setAttribute, Hpar.
  - destruct (wants_clearAliveState options && hasAttribute c "keep-alive" w).
    + unfold detach_clearAliveState, removeChild.
      by rewrite parentNode_removeAttribute, Hpar.
    + unfold removeChild. by rewrite Hpar.
Qed.

(** The removal throws inside the executor: the promise is rejected. *)
Lemma detached_rejected appName options w app ct :
  JsMap.get (formatAppName appName) (appInstanceMap w) = Some app ->
  getAppState app <> UNMOUNT ->
  isPrefetch app = false ->
  getKeepAliveState app <> KEEP_ALIVE_HIDDEN ->
  container app = Some ct ->
  parentNode (document w (getRootContainer ct)) = None ->
  state_of (unmountApp appName options w).1 (unmountApp appName options w).2
  = Some Rejected.
Proof.
  intros Hget Hst Hpf Hka Hct Hpar.
  rewrite (unmountApp_visible _ _ _ _ _ _ _ _ Hget Hst Hpf Hka Hct). cbn zeta.
  set (c := getRootContainer ct) in *.
  destruct (listening_frame appName c w) as (_ & Hp & _ & _ & _ & _ & _ & Hel).
  assert (parentNode (document (listening appName c w) c) = None) as Hpar1
    by (destruct (Hel c) as [_ ->]; done).
  rewrite (detach_detached options c _ Hpar1). cbn [fst snd].
  set (w2 := if wants_destroy options then _ else _).
  assert (promises w2 !! length (promises w)
          = Some {| pstate := Pending; reactions := [] |}) as Hq.
  { assert (promises w2 = promises (listening appName c w)) as ->.
    { subst w2. destruct (wants_destroy options); [by autorewrite with world|].
      destruct (_ && _); by autorewrite with world. }
    rewrite Hp. by apply list_lookup_middle. }
  unfold reject. rewrite (settle_pending _ Rejected w2 _ ltac:(done) Hq eq_refl).
  unfold state_of. cbn [promises record with_trace with_microtasks with_promises].
  rewrite list_lookup_insert_eq by (by eapply lookup_lt_Some). done.
Qed.

(** X7.  A visible application whose container has no parent: the
    removal throws inside the executor, so the promise is rejected.
    What was done before the removal is not undone: both listeners
    stay on the container; with [destroy] the container keeps
    [destroy="true"]; with [clearAliveState] it has lost [keep-alive];
    otherwise its attributes are as before.  No removal was recorded
    and nothing but the promise was settled. *)
Theorem unmountApp_detached_container (appName : string)
    (options : option unmountAppParams) (w : World) (app : AppInterface)
    (ct : Container) :
  JsMap.get (formatAppName appName) (appInstanceMap w) = Some app ->
  getAppState app <> UNMOUNT ->
  isPrefetch app = false ->
  getKeepAliveState app <> KEEP_ALIVE_HIDDEN ->
  container app = Some ct ->
  parentNode (document w (getRootContainer ct)) = None ->
  let c := getRootContainer ct in
  let p := (unmountApp appName options w).1 in
  let w' := (unmountApp appName options w).2 in
  state_of p w' = Some Rejected /\
  ("unmount", unmountHandler c p) ∈ listeners (document w' c) /\
  ("afterhidden", afterhiddenHandler c p) ∈ listeners (document w' c) /\
  attributes (document w' c) =
    (if wants_destroy options
     then <["destroy" := "true"]> (attributes (document w c))
     else if wants_clearAliveState options
          then delete "keep-alive" (attributes (document w c))
          else attributes (document w c)) /\
  (forall c', c' <> c -> attributes (document w' c') = attributes (document w c')) /\
  exists new,
    trace w' = trace w ++ new ++ [Settled p Rejected] /\
    (Call_removeChild c ∉ new) /\
    (forall q s, Settled q s ∉ new).
Proof.
  intros Hget Hst Hpf Hka Hct Hpar c p w'. subst p w'.
  rewrite (unmountApp_visible _ _ _ _ _ _ _ _ Hget Hst Hpf Hka Hct). cbn zeta.
  fold c.
  destruct (listening_frame appName c w) as (Ht & Hp & _ & _ & _ & _ & _ & Hel).
  set (q := length (promises w)) in *.
  set (w1 := listening appName c w) in *.
  assert (parentNode (document w1 c) = None) as Hpar1
    by (destruct (Hel c) as [_ ->]; done).
  rewrite (detach_detached options c w1 Hpar1). cbn [fst snd].
  set (w2 := if wants_destroy options then _ else _).
  assert (promises w2 = promises w1) as Hp2.
  { subst w2. destruct (wants_destroy options); [by autorewrite with world|].
    destruct (_ && _); by autorewrite with world. }
  assert (forall c', listeners (document w2 c') = listeners (document w1 c')) as Hl2.
  { intros c'. subst w2. destruct (wants_destroy options);
      [by autorewrite with world|].
    destruct (_ && _); by autorewrite with world. }
  assert (promises w2 !! q = Some {| pstate := Pending; reactions := [] |}) as Hq.
  { rewrite Hp2, Hp. by apply list_lookup_middle. }
  unfold reject. rewrite (settle_pending q Rejected w2 _ ltac:(done) Hq eq_refl).
  cbn [document trace record with_trace with_microtasks with_promises promises].
  assert (forall l, l ∈ listeners (document w1 c) <->
            l ∈ listeners (document w c) \/
            l = ("unmount", unmountHandler c q) \/
            l = ("afterhidden", afterhiddenHandler c q)) as Hin.
  { intros l. subst w1. unfold listening. fold q.
    rewrite !elem_of_listeners_addEventListener. unfold entered. simpl.
    naive_solver. }
  split_and!.
  - unfold state_of. cbn [promises record with_trace with_microtasks with_promises].
    rewrite list_lookup_insert_eq by (by eapply lookup_lt_Some). done.
  - rewrite Hl2. apply Hin. auto.
  - rewrite Hl2. apply Hin. auto.
  - subst w2. destruct (wants_destroy options).
    + rewrite attributes_setAttribute, decide_True by done.
      by destruct (Hel c) as [-> _].
    + destruct (wants_clearAliveState options); cbn [andb].
      * destruct (hasAttribute c "keep-alive" w1) eqn:Hhas.
        -- rewrite attributes_removeAttribute, decide_True by done.
           by destruct (Hel c) as [-> _].
        -- destruct (Hel c) as [<- _]. symmetry. apply delete_id.
           unfold hasAttribute in Hhas. apply bool_decide_eq_false in Hhas.
           destruct (attributes (document w1 c) !! "keep-alive") eqn:E; [|done].
           exfalso. apply Hhas. by eexists.
      * by destruct (Hel c) as [-> _].
  - intros c' Hne. subst w2. destruct (wants_destroy options).
    + rewrite attributes_setAttribute, decide_False by done.
      by destruct (Hel c') as [-> _].
    + destruct (_ && _).
      * rewrite attributes_removeAttribute, decide_False by done.
        by destruct (Hel c') as [-> _].
      * by destruct (Hel c') as [-> _].
  - assert (exists mid, trace w2 = trace w1 ++ mid /\
              (Call_removeChild c ∉ mid) /\ forall q' s, Settled q' s ∉ mid)
      as (mid & Ht2 & Hm1 & Hm2).
    { subst w2. destruct (wants_destroy options).
      - exists [Call_setAttribute c "destroy" "true"]. autorewrite with world.
        split_and!; [done| |intros q' s]; intros H;
          apply list_elem_of_singleton in H; done.
      - destruct (_ && _).
        + exists [Call_removeAttribute c "keep-alive"]. autorewrite with world.
          split_and!; [done| |intros q' s]; intros H;
            apply list_elem_of_singleton in H; done.
        + exists []. rewrite app_nil_r.
          split_and!; [done| |intros q' s]; intros H;
            by apply elem_of_nil in H. }
    exists ([Call_unmountApp appName q;
             Call_addEventListener c "unmount" (unmountHandler c q);
             Call_addEventListener c "afterhidden" (afterhiddenHandler c q)]
            ++ mid).
    split_and!.
    + rewrite Ht2, Ht. by rewrite <- !app_assoc.
    + rewrite elem_of_app. intros [H|H]; [|by apply Hm1].
      repeat (apply elem_of_cons in H as [?|H]; [done|]).
      by apply elem_of_nil in H.
    + intros q' s. rewrite elem_of_app. intros [H|H]; [|by apply (Hm2 q' s)].
      repeat (apply elem_of_cons in H as [?|H]; [done|]).
      by apply elem_of_nil in H.
Qed.

(** X6.  The promise of a visible application is rejected when
    [unmountApp] returns exactly if its container has no parent. *)
Theorem unmountApp_rejects_iff_detached (appName : string)
    (options : option unmountAppParams) (w : World) (app : AppInterface)
    (ct : Container) :
  JsMap.get (formatAppName appName) (appInstanceMap w) = Some app ->
  getAppState app <> UNMOUNT ->
  isPrefetch app = false ->
  getKeepAliveState app <> KEEP_ALIVE_HIDDEN ->
  container app = Some ct ->
  let p := (unmountApp appName options w).1 in
  let w' := (unmountApp appName options w).2 in
  state_of p w' = Some Rejected <->
  parentNode (document w (getRootContainer ct)) = None.
Proof.
  intros Hget Hst Hpf Hka Hct p w'.
  destruct (parentNode (document w (getRootContainer ct))) as [par|] eqn:Hpar.
  - destruct (unmountApp_visible_normal appName options w app ct par
                Hget Hst Hpf Hka Hct Hpar) as (w2 & _ & Hres & Halive).
    subst p w'. rewrite Hres. cbn [fst snd].
    split; [|done]. intros Hr. by apply not_rejected in Halive.
  - split; [done|]. intros _.
    exact (detached_rejected appName options w app ct
             Hget Hst Hpf Hka Hct Hpar).
Qed.

(** Every way of detaching a container that has a parent leaves it
    without one. *)
Lemma detach_detaches options c w par :
  parentNode (document w c) = Some par ->
  exists w', detach options c w = Normal w' /\ parentNode (document w' c) = None.
Proof.
  intros Hpar. unfold detach.
  destruct (wants_destroy options).
  { destruct (detach_destroy_result disconnectedCallback c w par Hpar)
      as (w_mid & new & w' & Hd & _ & _ & _ & _ & _ & _ & _ & Hp & _).
    exists w'. split; [exact Hd|]. by rewrite Hp, decide_True. }
  destruct (wants_clearAliveState options && hasAttribute c "keep-alive" w).
  - unfold detach_clearAliveState.
    destruct (removeChild_result c (removeAttribute c "keep-alive" w) par)
      as (w_mid & new & w3 & Hrem & _ & _ & _ & _ & _ & _ & Hp3).
    { by rewrite parentNode_removeAttribute. }
    rewrite Hrem. simpl. eexists. split; [reflexivity|].
    rewrite parentNode_setAttribute, Hp3. by rewrite decide_True.
  - destruct (removeChild_result c w par Hpar)
      as (w_mid & new & w3 & Hrem & _ & _ & _ & _ & _ & _ & Hp3).
    exists w3. split; [exact Hrem|]. by rewrite Hp3, decide_True.
Qed.

(** X18.  Unmounting a visible application twice: if, when the first
    call has returned, the registry still holds a visible application
    in the same container (its teardown has not been registered yet),
    a second call of [unmountApp] finds the container without a parent
    and its promise is rejected. *)
Theorem unmountApp_twice_rejects (appName : string)
    (options options' : option unmountAppParams) (w : World)
    (app app' : AppInterface) (ct ct' : Container) (par : nat) :
  JsMap.get (formatAppName appName) (appInstanceMap w) = Some app ->
  getAppState app <> UNMOUNT ->
  isPrefetch app = false ->
  getKeepAliveState app <> KEEP_ALIVE_HIDDEN ->
  container app = Some ct ->
  parentNode (document w (getRootContainer ct)) = Some par ->
  let w1 := (unmountApp appName options w).2 in
  JsMap.get (formatAppName appName) (appInstanceMap w1) = Some app' ->
  getAppState app' <> UNMOUNT ->
  isPrefetch app' = false ->
  getKeepAliveState app' <> KEEP_ALIVE_HIDDEN ->
  container app' = Some ct' ->
  getRootContainer ct' = getRootContainer ct ->
  let r := unmountApp appName options' w1 in
  state_of r.1 r.2 = Some Rejected.
Proof.
  intros Hget Hst Hpf Hka Hct Hpar w1 Hget' Hst' Hpf' Hka' Hct' Hc r.
  assert (parentNode (document w1 (getRootContainer ct')) = None) as Hpar1.
  { subst w1. rewrite Hc.
    rewrite (unmountApp_visible _ _ _ _ _ _ _ _ Hget Hst Hpf Hka Hct). cbn zeta.
    destruct (listening_frame appName (getRootContainer ct) w)
      as (_ & _ & _ & _ & _ & _ & _ & Hel).
    destruct (detach_detaches options (getRootContainer ct)
                (listening appName (getRootContainer ct) w) par)
      as (w' & Hd & Hp); [by destruct (Hel (getRootContainer ct)) as [_ ->]|].
    by rewrite Hd. }
  exact (detached_rejected appName options' w1 app' ct'
           Hget' Hst' Hpf' Hka' Hct' Hpar1).
Qed.

End UnmountMore.

Lemma unmountApp_clearAliveState_restores_keep_alive_witness :
  let w' :=
    (unmountApp Example.formatAppName Example.getRootContainer Example.prompt
       "shown" Example.only_clear Example.page).2 in
  getAttribute 1 "keep-alive" w' = Some "true" /\
  parentNode (document w' 1) = None.
Proof.
  destruct (unmountApp_clearAliveState_restores_keep_alive Example.formatAppName
Example.getRootContainer Example.prompt
              "shown" Example.only_clear Example.page
              (Example.app MOUNTED KEEP_ALIVE_SHOWN false (Some (HTMLElement 1)))
              (HTMLElement 1) 0 "true")
    as (H1 & _ & H2 & _).
  - reflexivity.
  - discriminate.
  - reflexivity.
  - discriminate.
  - reflexivity.
  - reflexivity.
  - reflexivity.
  - reflexivity.
  - reflexivity.
  - split; [exact H1 | exact H2].
Defined.

Lemma unmountApp_plain_removal_witness :
  let w' :=
    (unmountApp Example.formatAppName Example.getRootContainer Example.lazy
       "shown" None Example.page).2 in
  (forall c', attributes (document w' c') = attributes (document Example.page c')) /\
  parentNode (document w' 1) = None.
Proof.
  destruct (unmountApp_plain_removal Example.formatAppName
Example.getRootContainer Example.lazy
              "shown" None Example.page
              (Example.app MOUNTED KEEP_ALIVE_SHOWN false (Some (HTMLElement 1)))
              (HTMLElement 1) 0)
    as (H1 & H2 & _).
  - reflexivity.
  - discriminate.
  - reflexivity.
  - discriminate.
  - reflexivity.
  - reflexivity.
  - reflexivity.
  - left. reflexivity.
  - split; [exact H1 | exact H2].
Defined.

Lemma unmountApp_detached_container_witness :
  let r := unmountApp Example.formatAppName Example.getRootContainer Example.prompt
             "shown" Example.only_destroy Example.orphaned in
  state_of r.1 r.2 = Some Rejected /\
  ("unmount", unmountHandler 1 r.1) ∈ listeners (document r.2 1) /\
  attributes (document r.2 1) =
    <["destroy" := "true"]> (attributes (document Example.orphaned 1)).
Proof.
  destruct (unmountApp_detached_container Example.formatAppName
Example.getRootContainer Example.prompt
              "shown" Example.only_destroy Example.orphaned
              (Example.app MOUNTED KEEP_ALIVE_SHOWN false (Some (HTMLElement 1)))
              (HTMLElement 1))
    as (H1 & H2 & _ & H3 & _).
  - reflexivity.
  - discriminate.
  - reflexivity.
  - discriminate.
  - reflexivity.
  - reflexivity.
  - split; [exact H1|]. split; [exact H2 | exact H3].
Defined.

Lemma unmountApp_rejects_iff_detached_witness :
  let r := unmountApp Example.formatAppName Example.getRootContainer Example.lazy
             "shown" None Example.orphaned in
  state_of r.1 r.2 = Some Rejected <->
  parentNode (document Example.orphaned 1) = None.
Proof.
  apply (unmountApp_rejects_iff_detached Example.formatAppName
Example.getRootContainer Example.lazy
           "shown" None Example.orphaned
           (Example.app MOUNTED KEEP_ALIVE_SHOWN false (Some (HTMLElement 1)))
           (HTMLElement 1)).
  - reflexivity.
  - discriminate.
  - reflexivity.
  - discriminate.
  - reflexivity.
Defined.

Lemma unmountApp_twice_rejects_witness :
  let w1 := (unmountApp Example.formatAppName Example.getRootContainer
Example.lazy "shown" None Example.page).2 in
  let r := unmountApp Example.formatAppName Example.getRootContainer
Example.lazy "shown" None w1 in
  state_of r.1 r.2 = Some Rejected.
Proof.
  apply (unmountApp_twice_rejects Example.formatAppName
Example.getRootContainer Example.lazy
           "shown" None None Example.page
           (Example.app MOUNTED KEEP_ALIVE_SHOWN false (Some (HTMLElement 1)))
           (Example.app MOUNTED KEEP_ALIVE_SHOWN false (Some (HTMLElement 1)))
           (HTMLElement 1) (HTMLElement 1) 0).
  - reflexivity.
  - discriminate.
  - reflexivity.
  - discriminate.
  - reflexivity.
  - reflexivity.
  - reflexivity.
  - discriminate.
  - reflexivity.
  - discriminate.
  - reflexivity.
  - reflexivity.
Defined.
(** * [getActiveApps]: what [excludeHiddenApp] takes away *)

Lemma active_weaken app : active true app -> active false app.
Proof. intros (? & ? & _). by split_and!. Qed.

(** X15.  Asking [getActiveApps] to leave out the hidden applications
    only takes names away and keeps the order of the others; when no
    registered application is hidden by keep-alive, the answer is the
    same with and without the flag. *)
Theorem getActiveApps_excluding_hidden (excludeHiddenApp : option bool) (w : World) :
  sublist (getActiveApps (Some true) w) (getActiveApps excludeHiddenApp w) /\
  ((forall n app, (n, app) ∈ appInstanceMap w ->
      getKeepAliveState app <> KEEP_ALIVE_HIDDEN) ->
   getActiveApps (Some true) w = getActiveApps excludeHiddenApp w).
Proof.
  rewrite !getActiveApps_filter. simpl. split.
  - induction (appInstanceMap w) as [|[n app] m IH]; [done|].
    rewrite !filter_cons. cbn [snd].
    destruct (decide (active true app)) as [Ht|Ht].
    + rewrite decide_True.
      * csimpl. by apply sublist_skip.
      * destruct (truthy excludeHiddenApp); [done|by apply active_weaken].
    + destruct (decide (active (truthy excludeHiddenApp) app)); [|done].
      csimpl. by apply sublist_cons.
  - induction (appInstanceMap w) as [|[n app] m IH]; [done|].
    intros Hnone. rewrite !filter_cons. cbn [snd].
    assert (active true app <-> active (truthy excludeHiddenApp) app) as Hiff.
    { destruct (truthy excludeHiddenApp); [done|].
      split; [apply active_weaken|]. intros (? & ? & _). split_and!; try done.
      intros _. apply (Hnone n). by left. }
    specialize (IH ltac:(intros n' app' Hin; apply (Hnone n'); by right)).
    destruct (decide (active true app)) as [Ht|Ht].
    + rewrite decide_True by (by apply Hiff). csimpl. by rewrite IH.
    + rewrite decide_False by (by rewrite <- Hiff). done.
Qed.

Lemma getActiveApps_excluding_hidden_witness :
  getActiveApps (Some true) Example.orphaned = ["shown"] /\
  sublist (getActiveApps (Some true) Example.page) (getActiveApps None Example.page).
Proof.
  split; [reflexivity|].
  exact (proj1 (getActiveApps_excluding_hidden None Example.page)).
Defined.
(** * [MicroApp.start]: the tag name, the options, the plugin modules *)

Section StartMore.
Variable formatAppName : string -> string.

Local Abbreviation start := (MicroApp.start formatAppName).
Local Abbreviation normalize_modules := (MicroApp.normalize_modules formatAppName).
Local Abbreviation module_key := (module_key formatAppName).

Lemma literal_spec lit s rest :
  MicroApp.literal lit s = Some rest <-> s = lit +:+ rest.
Proof.
  revert s. induction lit as [|a lit IH]; intros s; simpl.
  - split; [by intros [= ->] | by intros ->].
  - destruct s as [|b s].
    + split; [done|]. discriminate.
    + destruct (Ascii.eqb_spec a b) as [->|Hne].
      * rewrite IH. split; [by intros -> | by intros [= ->]].
      * split; [done|]. intros [= ? ?]. done.
Qed.

(** X8.  The pattern [/^micro-app(-\S+)?/] has an optional group and no
    end anchor: [start] takes a tag name exactly if it begins with
    [micro-app], whatever follows. *)
Theorem test_tagName_accepts (s : string) :
  MicroApp.test_tagName s = true <-> exists rest, s = "micro-app" +:+ rest.
Proof.
  unfold MicroApp.test_tagName.
  destruct (MicroApp.literal "micro-app" s) as [rest|] eqn:Hlit.
  - apply literal_spec in Hlit.
    split; [intros _; by exists rest | by destruct (MicroApp.dash_word rest)].
  - split; [done|]. intros [rest Hrest]. apply literal_spec in Hrest.
    congruence.
Qed.

Lemma app_singleton_ne {A : Type} (l : list A) (e : A) : l ++ [e] <> l.
Proof.
  intros H. apply (f_equal length) in H. rewrite length_app in H. simpl in H. lia.
Qed.

Lemma init_options_calls options st :
  MicroApp.calls (MicroApp.init_options formatAppName options st) =
  MicroApp.calls st ++
  match options with
  | Some o =>
      if MicroApp.opt_isPlainObject o then
        match MicroApp.opt_preFetchApps o with
        | Some apps => [MicroApp.Call_preFetch apps]
        | None => []
        end ++
        match MicroApp.opt_globalAssets o with
        | Some assets => [MicroApp.Call_getGlobalAssets assets]
        | None => []
        end
      else []
  | None => []
  end.
Proof.
  destruct options as [o|]; simpl; [|by rewrite app_nil_r].
  destruct (MicroApp.opt_isPlainObject o); [|by rewrite app_nil_r].
  destruct (MicroApp.opt_preFetchApps o), (MicroApp.opt_globalAssets o); simpl;
    by rewrite <- ?app_assoc, ?app_nil_r.
Qed.

Lemma init_options_this options st :
  MicroApp.this (MicroApp.init_options formatAppName options st) =
  match options with
  | Some o =>
      if MicroApp.opt_isPlainObject o
      then MicroApp.copy_options formatAppName o (MicroApp.this st)
      else MicroApp.this st
  | None => MicroApp.this st
  end.
Proof.
  destruct options as [o|]; simpl; [|done].
  destruct (MicroApp.opt_isPlainObject o); [|done].
  by destruct (MicroApp.opt_preFetchApps o), (MicroApp.opt_globalAssets o).
Qed.

(** X9.  [start] does all or nothing.  Either it logs exactly one
    entry, makes no call, leaves [window] alone and changes no field
    of the instance but, at most, the tag name; or it logs nothing and
    makes its calls: the global environment first, the element
    definition, under the instance's tag name, last, and between them
    only the two prefetch calls. *)
Theorem start_all_or_nothing (options : option MicroApp.OptionsType)
    (st : MicroApp.State) :
  let st' := start options st in
  (exists e,
     MicroApp.log st' = MicroApp.log st ++ [e] /\
     MicroApp.calls st' = MicroApp.calls st /\
     MicroApp.window st' = MicroApp.window st /\
     same_settings (MicroApp.this st) (MicroApp.this st')) \/
  (MicroApp.log st' = MicroApp.log st /\
   exists mid,
     MicroApp.calls st' =
       MicroApp.calls st ++ MicroApp.Call_initGlobalEnv :: mid ++
         [MicroApp.Call_defineElement (MicroApp.tagName (MicroApp.this st'))] /\
     Forall (fun c => is_prefetch_call c = true) mid).
Proof.
  cbn zeta. unfold MicroApp.start.
  destruct (MicroApp.window st) as [win|] eqn:Hwin;
    [destruct (MicroApp.customElements win) as [defined|] eqn:Hdef|].
  2,3: left; eexists; simpl; by rewrite ?Hwin.
  destruct (MicroApp.given_tagName options) as [t|] eqn:Ht;
    [destruct (MicroApp.test_tagName t)|]; try case_bool_decide;
    try (left; eexists; simpl; by rewrite ?Hwin).
  - right.
    destruct (init_options_frame formatAppName options
                (MicroApp.call MicroApp.Call_initGlobalEnv
                   (MicroApp.with_this (MicroApp.set_tagName t (MicroApp.this st)) st)))
      as (Hl' & _ & _ & mid & Hc' & Hmid).
    simpl. rewrite Hl', Hc'. simpl. split; [done|].
    exists mid. split; [|done]. by rewrite <- !app_assoc.
  - right.
    destruct (init_options_frame formatAppName options
                (MicroApp.call MicroApp.Call_initGlobalEnv st))
      as (Hl' & _ & _ & mid & Hc' & Hmid).
    simpl. rewrite Hl', Hc'. simpl. split; [done|].
    exists mid. split; [|done]. by rewrite <- !app_assoc.
Qed.

(** X10.  What a start that went through (it logged nothing) leaves
    in the instance, given options.  When the options are a plain
    object: the seven flags are those of the options, an absent flag
    clearing what was set before; [fetch], [lifeCycles] and
    [excludeAssetFilter] are taken over only when they have the right
    type and otherwise keep their value; the same holds for [plugins],
    whose modules are stored renamed; the calls are, in this order:
    the global environment, [preFetch] if [preFetchApps] is given,
    [getGlobalAssets] if [globalAssets] is given, the element
    definition.  When the options are not a plain object, the whole
    block is skipped: no field but the tag name changes and the calls
    are the global environment and the element definition only. *)
Theorem start_copies_options (o : MicroApp.OptionsType) (st : MicroApp.State) :
  let st' := start (Some o) st in
  let f := MicroApp.this st in
  let f' := MicroApp.this st' in
  MicroApp.log st' = MicroApp.log st ->
  (MicroApp.opt_isPlainObject o = true ->
   (MicroApp.shadowDOM f' = MicroApp.opt_shadowDOM o /\
    MicroApp.destroy f' = MicroApp.opt_destroy o /\
    MicroApp.destory f' = MicroApp.opt_destory o /\
    MicroApp.inline f' = MicroApp.opt_inline o /\
    MicroApp.disableScopecss f' = MicroApp.opt_disableScopecss o /\
    MicroApp.disableSandbox f' = MicroApp.opt_disableSandbox o /\
    MicroApp.ssr f' = MicroApp.opt_ssr o) /\
   MicroApp.fetch f' =
     (if MicroApp.isFunction (MicroApp.opt_fetch o)
      then MicroApp.opt_fetch o else MicroApp.fetch f) /\
   MicroApp.lifeCycles f' =
     (if MicroApp.isPlainObject (MicroApp.opt_lifeCycles o)
      then MicroApp.opt_lifeCycles o else MicroApp.lifeCycles f) /\
   MicroApp.excludeAssetFilter f' =
     (if MicroApp.isFunction (MicroApp.opt_excludeAssetFilter o)
      then MicroApp.opt_excludeAssetFilter o else MicroApp.excludeAssetFilter f) /\
   MicroApp.plugins f' =
     (if MicroApp.is_plugins_object (MicroApp.opt_plugins o)
      then MicroApp.normalize_plugins formatAppName <$> MicroApp.opt_plugins o
      else MicroApp.plugins f) /\
   MicroApp.calls st' =
     MicroApp.calls st ++
     [MicroApp.Call_initGlobalEnv] ++
     match MicroApp.opt_preFetchApps o with
     | Some apps => [MicroApp.Call_preFetch apps]
     | None => []
     end ++
     match MicroApp.opt_globalAssets o with
     | Some assets => [MicroApp.Call_getGlobalAssets assets]
     | None => []
     end ++
     [MicroApp.Call_defineElement (MicroApp.tagName f')]) /\
  (MicroApp.opt_isPlainObject o = false ->
   same_settings f f' /\
   MicroApp.calls st' =
     MicroApp.calls st ++
     [MicroApp.Call_initGlobalEnv;
      MicroApp.Call_defineElement (MicroApp.tagName f')]).
Proof.
  cbn zeta. unfold MicroApp.start, same_settings.
  destruct (MicroApp.window st) as [win|] eqn:Hwin;
    [destruct (MicroApp.customElements win) as [defined|] eqn:Hdef|].
  2,3: simpl; intros H; by apply app_singleton_ne in H.
  destruct (MicroApp.given_tagName (Some o)) as [t|] eqn:Ht;
    [destruct (MicroApp.test_tagName t)|]; try case_bool_decide;
    try (simpl; intros Hlog; by apply app_singleton_ne in Hlog); intros _;
    cbn [MicroApp.defineElement MicroApp.this MicroApp.calls MicroApp.call];
    rewrite init_options_this, init_options_calls;
    (split; intros ->);
    cbn [MicroApp.copy_options MicroApp.this MicroApp.call MicroApp.calls
         MicroApp.with_this MicroApp.set_tagName
         MicroApp.shadowDOM MicroApp.destroy MicroApp.destory MicroApp.inline
         MicroApp.disableScopecss MicroApp.disableSandbox MicroApp.ssr
         MicroApp.fetch MicroApp.lifeCycles MicroApp.excludeAssetFilter
         MicroApp.plugins MicroApp.tagName];
    split_and!; try done; by rewrite <- ?app_assoc, ?app_nil_r.
Qed.

(** X16.  An empty [tagName] in the options counts as none: it is not
    tested against the pattern, no error is logged for it, and [start]
    goes on with the tag name the instance has, exactly as if the
    option were left out. *)
Theorem start_empty_tagName (o : MicroApp.OptionsType) (st : MicroApp.State) :
  MicroApp.opt_tagName o = Some "" ->
  start (Some o) st = start (Some (without_tagName o)) st.
Proof.
  intros Hempty. unfold MicroApp.start.
  assert (MicroApp.given_tagName (Some o) = None) as ->
    by (unfold MicroApp.given_tagName; by rewrite Hempty).
  reflexivity.
Qed.

(** *** The renaming of the plugin modules *)

Local Abbreviation rename_step :=
  (fun (modules : list (string * nat)) appName =>
     match JsMap.get appName modules with
     | Some v =>
         let formattedAppName := formatAppName appName in
         if negb (String.eqb formattedAppName "") &&
            negb (String.eqb appName formattedAppName)
         then JsMap.delete appName (JsMap.set formattedAppName v modules)
         else modules
     | None => modules
     end).

Lemma moved_spec a :
  (negb (String.eqb (formatAppName a) "") &&
   negb (String.eqb a (formatAppName a)) = true ->
   module_key a = formatAppName a /\ formatAppName a <> a) /\
  (negb (String.eqb (formatAppName a) "") &&
   negb (String.eqb a (formatAppName a)) = false ->
   module_key a = a).
Proof.
  unfold module_key.
  destruct (String.eqb_spec (formatAppName a) "") as [He|He];
    destruct (String.eqb_spec a (formatAppName a)) as [Ha|Ha]; simpl;
    split; try done; intros _; try done.
Qed.

Lemma rename_fold (m : list (string * nat)) :
  (forall a, a ∈ JsMap.keys m -> module_key a ∈ JsMap.keys m -> module_key a = a) ->
  (forall a b, a ∈ JsMap.keys m -> b ∈ JsMap.keys m ->
               module_key a = module_key b -> a = b) ->
  forall l done cur,
    done ++ l = JsMap.keys m -> NoDup (done ++ l) ->
    JsMap.wf cur ->
    (forall k v, JsMap.get k cur = Some v <->
       exists a, JsMap.get a m = Some v /\
                 ((a ∈ done /\ module_key a = k) \/ ((a ∉ done) /\ a = k))) ->
    JsMap.wf (fold_left rename_step l cur) /\
    (forall k v, JsMap.get k (fold_left rename_step l cur) = Some v <->
       exists a, JsMap.get a m = Some v /\ module_key a = k).
Proof.
  intros Hself Hinj l. induction l as [|a l IH]; intros done cur Hkeys Hnd Hwf Hinv.
  - simpl. split; [done|]. intros k v. rewrite Hinv. rewrite app_nil_r in Hkeys.
    split.
    + intros (a & Ha & [[_ Hk]|[Hn _]]); [by exists a|].
      exfalso. apply Hn. rewrite Hkeys. apply JsMapFacts.elem_of_keys_get.
      by eexists.
    + intros (a & Ha & Hk). exists a. split; [done|]. left. split; [|done].
      rewrite Hkeys. apply JsMapFacts.elem_of_keys_get. by eexists.
  - assert (a ∈ JsMap.keys m) as Hain by (rewrite <- Hkeys; set_solver).
    assert (a ∉ done) as Hadone.
    { apply list.NoDup_app in Hnd as (_ & Hdis & _). intros Hd.
      apply (Hdis a Hd). by left. }
    destruct (proj1 (JsMapFacts.elem_of_keys_get m a) Hain) as [va Hva].
    assert (forall v, JsMap.get a cur = Some v <-> v = va) as Hcur.
    { intros v. rewrite Hinv. split.
      - intros (a' & Ha' & [[Hd Hk]|[_ ->]]); [|congruence].
        assert (a' ∈ JsMap.keys m) as Ha'in
          by (apply JsMapFacts.elem_of_keys_get; by eexists).
        assert (module_key a' = a') as Hs by (apply Hself; [done|by rewrite Hk]).
        congruence.
      - intros ->. exists a. split; [done|]. by right. }
    simpl. rewrite (proj2 (Hcur va) eq_refl).
    apply (IH (done ++ [a])); clear IH.
    + by rewrite <- app_assoc.
    + by rewrite <- app_assoc.
    + destruct (_ && _); [|done].
      by apply JsMapFacts.wf_delete, JsMapFacts.wf_set.
    + intros k v. destruct (moved_spec a) as [Hmoved Hstay].
      destruct (negb (String.eqb (formatAppName a) "") &&
                negb (String.eqb a (formatAppName a))) eqn:Hc.
      * destruct (Hmoved eq_refl) as [Hkey Hne]. clear Hmoved Hstay.
        destruct (decide (k = a)) as [->|Hka].
        -- rewrite JsMapFacts.get_delete_eq by (by apply JsMapFacts.wf_set).
           split; [done|].
           intros (a' & Ha' & [[Hd Hk]|[Hn ->]]).
           ++ assert (a' ∈ JsMap.keys m) as Ha'in
                by (apply JsMapFacts.elem_of_keys_get; by eexists).
              assert (module_key a' = a') as Hs by (apply Hself; [done|by rewrite Hk]).
              assert (a' = a) as -> by congruence. congruence.
           ++ exfalso. apply Hn. set_solver.
        -- rewrite JsMapFacts.get_delete_ne by done.
           destruct (decide (k = formatAppName a)) as [->|Hkf].
           ++ rewrite JsMapFacts.get_set_eq. split.
              ** intros [= <-]. exists a. split; [done|]. left.
                 split; [set_solver|done].
              ** intros (a' & Ha' & [[Hd Hk]|[Hn ->]]).
                 --- assert (a' ∈ JsMap.keys m) as Ha'in
                       by (apply JsMapFacts.elem_of_keys_get; by eexists).
                     assert (a' = a) as -> by (apply Hinj; [done|done|congruence]).
                     congruence.
                 --- exfalso.
                     assert (formatAppName a ∈ JsMap.keys m) as Hfin
                       by (apply JsMapFacts.elem_of_keys_get; by eexists).
                     rewrite <- Hkey in Hfin. apply Hself in Hfin; [|done].
                     congruence.
           ++ rewrite JsMapFacts.get_set_ne by done. rewrite Hinv.
              split; intros (a' & Ha' & Hcase); exists a'; (split; [done|]).
              ** destruct Hcase as [[Hd Hk]|[Hn ->]].
                 --- left. split; [set_solver|done].
                 --- right. split; [set_solver|done].
              ** destruct Hcase as [[Hd Hk]|[Hn ->]].
                 --- apply elem_of_app in Hd as [Hd|Hd]; [by left|].
                     apply list_elem_of_singleton in Hd as ->. congruence.
                 --- right. split; [set_solver|done].
      * specialize (Hstay eq_refl). clear Hmoved.
        rewrite Hinv.
        split; intros (a' & Ha' & Hcase); exists a'; (split; [done|]).
        -- destruct Hcase as [[Hd Hk]|[Hn ->]].
           ++ left. split; [set_solver|done].
           ++ destruct (decide (k = a)) as [->|Hka].
              ** left. split; [set_solver|done].
              ** right. split; [set_solver|done].
        -- destruct Hcase as [[Hd Hk]|[Hn ->]].
           ++ apply elem_of_app in Hd as [Hd|Hd]; [by left|].
              apply list_elem_of_singleton in Hd as ->.
              right. split; [done|congruence].
           ++ right. split; [set_solver|done].
Qed.

(** X11.  The loop over [options.plugins.modules] renames: when no
    name of the object is formatted to another name of the object nor
    to the formatted form of another name, the object afterwards holds
    exactly the old entries, each under its formatted name (an entry
    whose formatted name is empty keeps its name). *)
Theorem normalize_modules_renames (m : list (string * nat)) :
  JsMap.wf m ->
  (forall a, a ∈ JsMap.keys m -> module_key a ∈ JsMap.keys m -> module_key a = a) ->
  (forall a b, a ∈ JsMap.keys m -> b ∈ JsMap.keys m ->
               module_key a = module_key b -> a = b) ->
  JsMap.wf (normalize_modules m) /\
  forall k v, JsMap.get k (normalize_modules m) = Some v <->
              exists a, JsMap.get a m = Some v /\ module_key a = k.
Proof.
  intros Hwf Hself Hinj. unfold MicroApp.normalize_modules.
  apply (rename_fold m Hself Hinj (JsMap.keys m) [] m); try done.
  intros k v. split.
  - intros Hk. exists k. split; [done|]. right. split; [|done]. set_solver.
  - intros (a & Ha & [[Hd _]|[_ ->]]); [|done]. by apply elem_of_nil in Hd.
Qed.

(** X12.  When every name of [modules] is its own formatted name, or
    its formatted name is empty, the loop leaves the object as it
    is. *)
Theorem normalize_modules_formatted (m : list (string * nat)) :
  (forall a, a ∈ JsMap.keys m -> module_key a = a) ->
  normalize_modules m = m.
Proof.
  intros Hself. unfold MicroApp.normalize_modules.
  assert (forall l cur, (forall a, a ∈ l -> module_key a = a) ->
            fold_left rename_step l cur = cur) as Hfold.
  { induction l as [|a l IH]; intros cur Hl; simpl; [done|].
    rewrite IH by (intros b Hb; apply Hl; by right).
    destruct (JsMap.get a cur) as [v|]; [|done].
    destruct (moved_spec a) as [Hmoved _].
    destruct (_ && _); [|done].
    destruct (Hmoved eq_refl) as [Hk Hne]. rewrite Hl in Hk by (by left).
    congruence. }
  by apply Hfold.
Qed.

(** X17.  Running the loop a second time changes nothing more,
    provided formatting a formatted name gives the same name again
    (and, as for the renaming, no two names of the object collide). *)
Theorem normalize_modules_idempotent (m : list (string * nat)) :
  JsMap.wf m ->
  (forall a, a ∈ JsMap.keys m -> module_key a ∈ JsMap.keys m -> module_key a = a) ->
  (forall a b, a ∈ JsMap.keys m -> b ∈ JsMap.keys m ->
               module_key a = module_key b -> a = b) ->
  (forall a, a ∈ JsMap.keys m -> module_key (module_key a) = module_key a) ->
  normalize_modules (normalize_modules m) = normalize_modules m.
Proof.
  intros Hwf Hself Hinj Hidem.
  assert (forall l cur, (forall a, a ∈ l -> module_key a = a) ->
            fold_left rename_step l cur = cur) as Hfold.
  { induction l as [|a l IH]; intros cur Hl; simpl; [done|].
    rewrite IH by (intros b Hb; apply Hl; by right).
    destruct (JsMap.get a cur) as [v|]; [|done].
    destruct (moved_spec a) as [Hmoved _].
    destruct (_ && _); [|done].
    destruct (Hmoved eq_refl) as [Hk Hne]. rewrite Hl in Hk by (by left).
    congruence. }
  unfold MicroApp.normalize_modules at 1. apply Hfold.
  intros k Hk. apply JsMapFacts.elem_of_keys_get in Hk as [v Hv].
  destruct (rename_fold m Hself Hinj (JsMap.keys m) [] m) as [_ Hspec]; try done.
  { intros k' v'. split.
    - intros Hk'. exists k'. split; [done|]. right. split; [|done]. set_solver.
    - intros (a & Ha & [[Hd _]|[_ ->]]); [|done]. by apply elem_of_nil in Hd. }
  fold (normalize_modules m) in Hspec.
  apply Hspec in Hv as (a & Ha & <-). apply Hidem.
  apply JsMapFacts.elem_of_keys_get. by eexists.
Qed.

End StartMore.

Lemma start_copies_options_witness :
  let st' := MicroApp.start Example.formatAppName (Some StartExample.typed)
               (StartExample.browser []) in
  let st2 := MicroApp.start Example.formatAppName (Some StartExample.listed)
               (StartExample.browser []) in
  (MicroApp.ssr (MicroApp.this st') = Some true /\
   MicroApp.fetch (MicroApp.this st') = None /\
   MicroApp.lifeCycles (MicroApp.this st') = Some (MicroApp.JsPlainObject 2) /\
   MicroApp.calls st' =
     [MicroApp.Call_initGlobalEnv; MicroApp.Call_preFetch 7;
      MicroApp.Call_getGlobalAssets 9;
      MicroApp.Call_defineElement "micro-app-demo"]) /\
  MicroApp.calls st2 =
    [MicroApp.Call_initGlobalEnv; MicroApp.Call_defineElement "micro-app-demo"].
Proof.
  destruct (start_copies_options Example.formatAppName StartExample.typed
              (StartExample.browser []) eq_refl) as [Hplain _].
  destruct (Hplain eq_refl)
    as ((_ & _ & _ & _ & _ & _ & H1) & H2 & H3 & _ & _ & H4).
  destruct (start_copies_options Example.formatAppName StartExample.listed
              (StartExample.browser []) eq_refl) as [_ Hother].
  destruct (Hother eq_refl) as [_ H5].
  split; [|exact H5].
  split; [exact H1|]. split; [exact H2|]. split; [exact H3 | exact H4].
Defined.

Lemma normalize_modules_renames_witness :
  JsMap.get "myapp"
    (MicroApp.normalize_modules Example.squeeze Example.modules) = Some 1 /\
  JsMap.get "my app"
    (MicroApp.normalize_modules Example.squeeze Example.modules) = None.
Proof.
  destruct (normalize_modules_renames Example.squeeze Example.modules)
    as [_ H].
  - apply (bool_decide_unpack _). vm_compute. exact I.
  - assert (Forall (fun a =>
              module_key Example.squeeze a ∈ JsMap.keys Example.modules ->
              module_key Example.squeeze a = a) (JsMap.keys Example.modules)) as HF
      by (apply (bool_decide_unpack _); vm_compute; exact I).
    intros a Ha. exact (proj1 (list.Forall_forall _ _) HF a Ha).
  - assert (Forall (fun a => Forall (fun b =>
              module_key Example.squeeze a = module_key Example.squeeze b -> a = b)
              (JsMap.keys Example.modules)) (JsMap.keys Example.modules)) as HF
      by (apply (bool_decide_unpack _); vm_compute; exact I).
    intros a b Ha Hb.
    exact (proj1 (list.Forall_forall _ _)
             (proj1 (list.Forall_forall _ _) HF a Ha) b Hb).
  - split.
    + apply H. exists "my app". split; reflexivity.
    + destruct (JsMap.get "my app" _) as [v|] eqn:E; [|reflexivity].
      apply H in E as (a & Ha & Hk). exfalso.
      unfold Example.modules in Ha. simpl in Ha.
      repeat (case_decide; [subst a; vm_compute in Hk; discriminate|]).
      discriminate.
Defined.

Lemma normalize_modules_formatted_witness :
  MicroApp.normalize_modules Example.squeeze [("shop", 2); ("cart", 3)]
  = [("shop", 2); ("cart", 3)].
Proof.
  apply normalize_modules_formatted.
  assert (Forall (fun a => module_key Example.squeeze a = a)
            (JsMap.keys [("shop", 2); ("cart", 3)])) as HF
    by (apply (bool_decide_unpack _); vm_compute; exact I).
  intros a Ha. exact (proj1 (list.Forall_forall _ _) HF a Ha).
Defined.

Lemma start_empty_tagName_witness :
  MicroApp.log
    (MicroApp.start Example.formatAppName (StartExample.named "")
       (StartExample.browser [])) = [].
Proof.
  unfold StartExample.named.
  match goal with
  | |- MicroApp.log (MicroApp.start _ (Some ?o) _) = _ =>
      rewrite (start_empty_tagName Example.formatAppName o
                 (StartExample.browser []) eq_refl)
  end.
  reflexivity.
Defined.

Lemma normalize_modules_idempotent_witness :
  MicroApp.normalize_modules Example.squeeze
    (MicroApp.normalize_modules Example.squeeze Example.modules)
  = MicroApp.normalize_modules Example.squeeze Example.modules.
Proof.
  apply normalize_modules_idempotent.
  - apply (bool_decide_unpack _). vm_compute. exact I.
  - assert (Forall (fun a =>
              module_key Example.squeeze a ∈ JsMap.keys Example.modules ->
              module_key Example.squeeze a = a) (JsMap.keys Example.modules)) as HF
      by (apply (bool_decide_unpack _); vm_compute; exact I).
    intros a Ha. exact (proj1 (list.Forall_forall _ _) HF a Ha).
  - assert (Forall (fun a => Forall (fun b =>
              module_key Example.squeeze a = module_key Example.squeeze b -> a = b)
              (JsMap.keys Example.modules)) (JsMap.keys Example.modules)) as HF
      by (apply (bool_decide_unpack _); vm_compute; exact I).
    intros a b Ha Hb.
    exact (proj1 (list.Forall_forall _ _)
             (proj1 (list.Forall_forall _ _) HF a Ha) b Hb).
  - assert (Forall (fun a =>
              module_key Example.squeeze (module_key Example.squeeze a)
              = module_key Example.squeeze a) (JsMap.keys Example.modules)) as HF
      by (apply (bool_decide_unpack _); vm_compute; exact I).
    intros a Ha. exact (proj1 (list.Forall_forall _ _) HF a Ha).
Defined.
